(** * Glyph mapping and Type3 glyph compilation of [src/core/fonts_utils.js]

    A shallow embedding of [recoverGlyphName], [type1FontGlyphMapping],
    [normalizeFontName] and [compileType3Glyph], and of the tables
    [MacStandardGlyphOrdering] and [getVerticalPresentationForm], followed
    by the properties proved about them.

    Conventions of the embedding:
    - a JS number that is used as an integer is a [Z];
    - a glyph name is a [string]; the argument of [normalizeFontName], whose
      regular expression looks at code units beyond ASCII, is a list of
      UTF-16 code units;
    - an object or array keyed by char codes is a finite map from [N] (the
      canonical array-index keys) to values, with an optional [length];
    - a typed array is a [list Z]; a read outside of it is [None]
      ([undefined]) and a write outside of it is dropped;
    - [info], which only logs, is left out;
    - a loop that the source does not bound syntactically takes a fuel
      argument and answers [None] when the fuel is used up. *)

From Stdlib Require Import ZArith QArith Lia.
From stdpp Require Import base option list gmap strings.

Close Scope Q_scope.
Open Scope Z_scope.

(** ** JS values that occur in the encoding tables *)

Inductive value : Type :=
  | VUndef
  | VNum (n : Z)
  | VStr (s : string).

(** An object with char-code keys.  [obj_length] is [None] for an object
    without a [length] property (then [charCode < o.length] is false for
    every char code), [Some n] for an array. *)
Record jsobj : Type := mkObj {
  obj_length : option nat;
  obj_props : gmap N value
}.

(** [o[charCode]] *)
Definition obj_get (o : jsobj) (charCode : N) : value :=
  match obj_props o !! charCode with
  | Some v => v
  | None => VUndef
  end.

(** The glyph-name to Unicode map is enumerated with [for ... in], so it is
    an association list in enumeration order. *)
Definition unicode_map : Type := list (string * Z).

(** [glyphsUnicodeMap[key]]: [None] stands for [undefined]. *)
Fixpoint umap_get (m : unicode_map) (key : string) : option Z :=
  match m with
  | [] => None
  | (k, u) :: m' => if String.eqb k key then Some u else umap_get m' key
  end.

(** The modules imported by [fonts_utils.js] whose code is not part of the
    file: the encoding tables of [encodings.js] ([getEncoding] answers
    [null], here [None], for an unknown name), the glyph list of
    [glyphlist.js] and the name-to-codepoint resolver of [unicode.js]. *)
Class Imports : Type := {
  getEncoding : string → option jsobj;
  StandardEncoding : jsobj;
  getGlyphsUnicode : unicode_map;
  getUnicodeForGlyph : string → unicode_map → Z
}.

(** ** [FontFlags] *)

Module FontFlags.
Definition FixedPitch : Z := 1.
Definition Serif : Z := 2.
Definition Symbolic : Z := 4.
Definition Script : Z := 8.
Definition Nonsymbolic : Z := 32.
Definition Italic : Z := 64.
Definition AllCap : Z := 65536.
Definition SmallCap : Z := 131072.
Definition ForceBold : Z := 262144.
End FontFlags.

(** ** [MacStandardGlyphOrdering] *)

Definition MacStandardGlyphOrdering : list string :=
  [".notdef"; ".null"; "nonmarkingreturn"; "space"; "exclam"; "quotedbl";
   "numbersign"; "dollar"; "percent"; "ampersand"; "quotesingle";
   "parenleft"; "parenright"; "asterisk"; "plus"; "comma"; "hyphen";
   "period"; "slash"; "zero"; "one"; "two"; "three"; "four"; "five"; "six";
   "seven"; "eight"; "nine"; "colon"; "semicolon"; "less"; "equal";
   "greater"; "question"; "at"; "A"; "B"; "C"; "D"; "E"; "F"; "G"; "H"; "I";
   "J"; "K"; "L"; "M"; "N"; "O"; "P"; "Q"; "R"; "S"; "T"; "U"; "V"; "W"; "X";
   "Y"; "Z"; "bracketleft"; "backslash"; "bracketright"; "asciicircum";
   "underscore"; "grave"; "a"; "b"; "c"; "d"; "e"; "f"; "g"; "h"; "i"; "j";
   "k"; "l"; "m"; "n"; "o"; "p"; "q"; "r"; "s"; "t"; "u"; "v"; "w"; "x"; "y";
   "z"; "braceleft"; "bar"; "braceright"; "asciitilde"; "Adieresis"; "Aring";
   "Ccedilla"; "Eacute"; "Ntilde"; "Odieresis"; "Udieresis"; "aacute";
   "agrave"; "acircumflex"; "adieresis"; "atilde"; "aring"; "ccedilla";
   "eacute"; "egrave"; "ecircumflex"; "edieresis"; "iacute"; "igrave";
   "icircumflex"; "idieresis"; "ntilde"; "oacute"; "ograve"; "ocircumflex";
   "odieresis"; "otilde"; "uacute"; "ugrave"; "ucircumflex"; "udieresis";
   "dagger"; "degree"; "cent"; "sterling"; "section"; "bullet"; "paragraph";
   "germandbls"; "registered"; "copyright"; "trademark"; "acute"; "dieresis";
   "notequal"; "AE"; "Oslash"; "infinity"; "plusminus"; "lessequal";
   "greaterequal"; "yen"; "mu"; "partialdiff"; "summation"; "product"; "pi";
   "integral"; "ordfeminine"; "ordmasculine"; "Omega"; "ae"; "oslash";
   "questiondown"; "exclamdown"; "logicalnot"; "radical"; "florin";
   "approxequal"; "Delta"; "guillemotleft"; "guillemotright"; "ellipsis";
   "nonbreakingspace"; "Agrave"; "Atilde"; "Otilde"; "OE"; "oe"; "endash";
   "emdash"; "quotedblleft"; "quotedblright"; "quoteleft"; "quoteright";
   "divide"; "lozenge"; "ydieresis"; "Ydieresis"; "fraction"; "currency";
   "guilsinglleft"; "guilsinglright"; "fi"; "fl"; "daggerdbl";
   "periodcentered"; "quotesinglbase"; "quotedblbase"; "perthousand";
   "Acircumflex"; "Ecircumflex"; "Aacute"; "Edieresis"; "Egrave"; "Iacute";
   "Icircumflex"; "Idieresis"; "Igrave"; "Oacute"; "Ocircumflex"; "apple";
   "Ograve"; "Uacute"; "Ucircumflex"; "Ugrave"; "dotlessi"; "circumflex";
   "tilde"; "macron"; "breve"; "dotaccent"; "ring"; "cedilla";
   "hungarumlaut"; "ogonek"; "caron"; "Lslash"; "lslash"; "Scaron"; "scaron";
   "Zcaron"; "zcaron"; "brokenbar"; "Eth"; "eth"; "Yacute"; "yacute";
   "Thorn"; "thorn"; "minus"; "multiply"; "onesuperior"; "twosuperior";
   "threesuperior"; "onehalf"; "onequarter"; "threequarters"; "franc";
   "Gbreve"; "gbreve"; "Idotaccent"; "Scedilla"; "scedilla"; "Cacute";
   "cacute"; "Ccaron"; "ccaron"; "dcroat"].

(** ** [recoverGlyphName] *)

(** The [for (const key in glyphsUnicodeMap)] loop: [keys] is what is left
    of the enumeration, [m] the whole map. *)
Fixpoint find_key (m : unicode_map) (keys : list string) (unicode : Z)
  : option string :=
  match keys with
  | [] => None
  | key :: keys' =>
      if bool_decide (umap_get m key = Some unicode) then Some key
      else find_key m keys' unicode
  end.

Section GlyphMapping.
Context `{Imports}.

Definition recoverGlyphName (name : string) (glyphsUnicodeMap : unicode_map)
  : string :=
  match umap_get glyphsUnicodeMap name with
  | Some _ => name
  | None =>
      let unicode := getUnicodeForGlyph name glyphsUnicodeMap in
      if negb (unicode =? -1) then
        match find_key glyphsUnicodeMap glyphsUnicodeMap.*1 unicode with
        | Some key => key
        | None => name
        end
      else name
  end.

(** ** [type1FontGlyphMapping] *)

Record FontProperties : Type := mkProps {
  flags : Z;
  isInternalFont : bool;
  baseEncodingName : option string;
  differences : option (gmap N string)
}.

(** [Array.prototype.indexOf] on the array of glyph names, which holds
    strings only: strict equality never matches another kind of value. *)
Fixpoint index_from (i : Z) (s : string) (l : list string) : Z :=
  match l with
  | [] => -1
  | x :: l' => if String.eqb x s then i else index_from (i + 1) s l'
  end.

Definition indexOf (glyphNames : list string) (v : value) : Z :=
  match v with
  | VStr s => index_from 0 s glyphNames
  | _ => -1
  end.

(** [glyphId >= 0 ? glyphId : 0] *)
Definition or_notdef (glyphId : Z) : Z :=
  if 0 <=? glyphId then glyphId else 0.

(** [for (charCode = 0; charCode < baseEncoding.length; charCode++)] *)
Definition char_codes (baseEncoding : jsobj) : list N :=
  match obj_length baseEncoding with
  | Some n => N.of_nat <$> seq 0 n
  | None => []
  end.

(** The loop shared by the three name-translating branches. *)
Definition translate_loop (baseEncoding : jsobj) (glyphNames : list string)
  (charCodeToGlyphId : gmap N value) : gmap N value :=
  foldl (λ acc charCode,
           let glyphId := indexOf glyphNames (obj_get baseEncoding charCode) in
           <[charCode := VNum (or_notdef glyphId)]> acc)
        charCodeToGlyphId (char_codes baseEncoding).

(** [for (charCode in builtInEncoding)] of the symbolic branch. *)
Definition copy_loop (builtInEncoding : jsobj)
  (charCodeToGlyphId : gmap N value) : gmap N value :=
  map_fold (λ charCode v acc, <[charCode := v]> acc)
           charCodeToGlyphId (obj_props builtInEncoding).

Definition isSymbolicFont (properties : FontProperties) : bool :=
  negb (Z.land (flags properties) FontFlags.Symbolic =? 0).

(** A string in a condition: [undefined] and the empty string are falsy. *)
Definition truthy_name (o : option string) : option string :=
  match o with
  | Some s => if String.eqb s "" then None else Some s
  | None => None
  end.

(** Lines 116-143.  [None] is the [TypeError] raised by [baseEncoding.length]
    when [getEncoding] answers [null]. *)
Definition base_pass (properties : FontProperties) (builtInEncoding : jsobj)
  (glyphNames : list string) : option (gmap N value) :=
  if isInternalFont properties then
    Some (translate_loop builtInEncoding glyphNames ∅)
  else
    match truthy_name (baseEncodingName properties) with
    | Some encodingName =>
        match getEncoding encodingName with
        | Some baseEncoding => Some (translate_loop baseEncoding glyphNames ∅)
        | None => None
        end
    | None =>
        if isSymbolicFont properties then Some (copy_loop builtInEncoding ∅)
        else Some (translate_loop StandardEncoding glyphNames ∅)
    end.

(** One iteration of the loop over [differences] (lines 150-162).  The state
    is the table under construction and the lazily fetched
    [glyphsUnicodeMap] ([None] while it is still [undefined]). *)
Definition difference_step (glyphNames : list string) (charCode : N)
  (glyphName : string) (st : gmap N value * option unicode_map)
  : gmap N value * option unicode_map :=
  let '(charCodeToGlyphId, glyphsUnicodeMap) := st in
  let glyphId := indexOf glyphNames (VStr glyphName) in
  if glyphId =? -1 then
    let glyphsUnicodeMap' :=
      match glyphsUnicodeMap with
      | Some m => m
      | None => getGlyphsUnicode
      end in
    let standardGlyphName := recoverGlyphName glyphName glyphsUnicodeMap' in
    let glyphId' :=
      if negb (String.eqb standardGlyphName glyphName)
      then indexOf glyphNames (VStr standardGlyphName)
      else glyphId in
    (<[charCode := VNum (or_notdef glyphId')]> charCodeToGlyphId,
     Some glyphsUnicodeMap')
  else
    (<[charCode := VNum (or_notdef glyphId)]> charCodeToGlyphId,
     glyphsUnicodeMap).

(** Lines 146-164. *)
Definition merge_differences (properties : FontProperties)
  (glyphNames : list string) (charCodeToGlyphId : gmap N value)
  : gmap N value :=
  match differences properties with
  | Some diffs =>
      (map_fold (difference_step glyphNames) (charCodeToGlyphId, None) diffs).1
  | None => charCodeToGlyphId
  end.

Definition type1FontGlyphMapping (properties : FontProperties)
  (builtInEncoding : jsobj) (glyphNames : list string)
  : option (gmap N value) :=
  merge_differences properties glyphNames
    <$> base_pass properties builtInEncoding glyphNames.

End GlyphMapping.

(** ** [normalizeFontName] *)

(** A JS string as its UTF-16 code units. *)
Definition ustring : Type := list N.

(** The class [\s] of an ECMAScript regular expression: WhiteSpace and
    LineTerminator code points. *)
Definition is_whitespace (c : N) : bool :=
  ((9 <=? c) && (c <=? 13) || (c =? 32) || (c =? 160) || (c =? 5760)
   || (8192 <=? c) && (c <=? 8202) || (c =? 8232) || (c =? 8233)
   || (c =? 8239) || (c =? 8287) || (c =? 12288) || (c =? 65279))%N.

Definition COMMA : N := 44.
Definition UNDERSCORE : N := 95.
Definition HYPHEN : N := 45.

(** [s.replaceAll(/[,_]/g, "-")] *)
Definition replace_comma_underscore (s : ustring) : ustring :=
  (λ c, if (c =? COMMA)%N || (c =? UNDERSCORE)%N then HYPHEN else c) <$> s.

(** [s.replaceAll(/\s/g, "")] *)
Definition remove_whitespace (s : ustring) : ustring :=
  List.filter (λ c, negb (is_whitespace c)) s.

Definition normalizeFontName (name : ustring) : ustring :=
  remove_whitespace (replace_comma_underscore name).

(** Code units of an ASCII string, for writing examples. *)
Fixpoint code_units (s : string) : ustring :=
  match s with
  | EmptyString => []
  | String a s' => Ascii.N_of_ascii a :: code_units s'
  end.

(** ** [getVerticalPresentationForm] *)

(** The writes [t[char] = form] of the initializer, in the order of the
    source. *)
Definition vertical_forms : list (N * N) :=
  [(0x2013, 0xfe32); (0x2014, 0xfe31); (0x2025, 0xfe30); (0x2026, 0xfe19);
   (0x3001, 0xfe11); (0x3002, 0xfe12); (0x3008, 0xfe3f); (0x3009, 0xfe40);
   (0x300a, 0xfe3d); (0x300b, 0xfe3e); (0x300c, 0xfe41); (0x300d, 0xfe42);
   (0x300e, 0xfe43); (0x300f, 0xfe44); (0x3010, 0xfe3b); (0x3011, 0xfe3c);
   (0x3014, 0xfe39); (0x3015, 0xfe3a); (0x3016, 0xfe17); (0x3017, 0xfe18);
   (0xfe4f, 0xfe34); (0xff01, 0xfe15); (0xff08, 0xfe35); (0xff09, 0xfe36);
   (0xff0c, 0xfe10); (0xff1a, 0xfe13); (0xff1b, 0xfe14); (0xff1f, 0xfe16);
   (0xff3b, 0xfe47); (0xff3d, 0xfe48); (0xff3f, 0xfe33); (0xff5b, 0xfe37);
   (0xff5d, 0xfe38)]%N.

(** The initializer passed to [getLookupTableFactory]: it writes the table
    into the object [t]. *)
Definition vertical_forms_init (t : gmap N N) : gmap N N :=
  foldl (λ t '(char, form), <[char := form]> t) t vertical_forms.

(** The table a call answers.  Modelled from the spec: "fixed-table lookup
    for vertical-writing presentation substitution - pure, no state"; the
    factory of [core_utils.js] is not part of this file, and is taken to
    run the initializer on an empty object. *)
Definition getVerticalPresentationForm : gmap N N := vertical_forms_init ∅.

(** ** [compileType3Glyph] *)

(** *** Typed arrays *)

(** [a[i]]; [None] is [undefined]. *)
Definition zget (a : list Z) (i : Z) : option Z :=
  if i <? 0 then None else a !! Z.to_nat i.

(** [a[i] = v]; outside of the array nothing happens. *)
Definition zset (a : list Z) (i v : Z) : list Z :=
  if i <? 0 then a else <[Z.to_nat i := v]> a.

(** A read in a condition: [undefined] and [0] are falsy. *)
Definition truthy (o : option Z) : bool :=
  match o with
  | Some v => negb (v =? 0)
  | None => false
  end.

(** [a !== b] on reads. *)
Definition strict_ne (a b : option Z) : bool := negb (bool_decide (a = b)).

(** [for (j = j0; ...; j++) body], run [n] times. *)
Fixpoint for_loop {A : Type} (n : nat) (j : Z) (body : Z → A → A) (s : A) : A :=
  match n with
  | O => s
  | S n' => for_loop n' (j + 1) body (body j s)
  end.

(** *** The glyph and the result *)

Record BitmapGlyph : Type := mkGlyph {
  data : list Z;
  width : Z;
  height : Z
}.

Inductive path_cmd : Type :=
  | MoveTo (x y : Q)
  | LineTo (x y : Q).

(** [null], or the path buffer with the bounding box
    [[0, 0, width, height]]. *)
Inductive compiled : Type :=
  | Null
  | Outline (pathBuf : list path_cmd) (bbox : Z * Z * Z * Z).

Definition MAX_SIZE_TO_COMPILE : Z := 1000.
Definition POINT_TO_PROCESS_LIMIT : Z := 1000.
Definition POINT_TYPES : list Z :=
  [0; 2; 4; 0; 1; 0; 5; 4; 8; 10; 0; 8; 0; 2; 1; 0].

(** *** Decoding the bit-packed mask (lines 227-237) *)

(** [(width + 7) & ~7].  JS takes the operands of [&] as 32-bit integers:
    for the widths that pass the size test, and as long as [width + 7] is
    a 32-bit integer, that is the bitwise and of the integers. *)
Definition lineSize_of (width : Z) : Z := Z.land (width + 7) (Z.lnot 7).

(** The values [mask] takes in [while (mask > 0) { ...; mask >>= 1 }]. *)
Definition MASKS : list Z := [128; 64; 32; 16; 8; 4; 2; 1].

Definition unpack_elem (st : list Z * Z) (elem : Z) : list Z * Z :=
  foldl (λ '(data, pos) mask,
           (zset data pos (if negb (Z.land elem mask =? 0) then 0 else 255),
            pos + 1))
        st MASKS.

(** [new Uint8Array(lineSize * height)] and the loop over [img].  The
    source raises a RangeError for a negative length; the sizes that reach
    these lines are those of the callers, which are not negative. *)
Definition unpack (img : list Z) (width height : Z) : list Z :=
  let lineSize := lineSize_of width in
  let data := replicate (Z.to_nat (lineSize * height)) 0 in
  (foldl unpack_elem (data, 0) img).1.

(** *** Classifying the points (lines 249-316) *)

(** [points[idx] = v; ++count] *)
Definition mark (st : list Z * Z) (idx v : Z) : list Z * Z :=
  (zset st.1 idx v, st.2 + 1).

(** Lines 251-265; the state is [(points, count)]. *)
Definition first_row (data : list Z) (width : Z) (st : list Z * Z)
  : list Z * Z :=
  let pos := 0 in
  let st := if strict_ne (zget data pos) (Some 0) then mark st 0 1 else st in
  let n := Z.to_nat (width - 1) in
  let '(st, pos) :=
    for_loop n 1
      (λ j '(st, pos),
         (if strict_ne (zget data pos) (zget data (pos + 1))
          then mark st j (if truthy (zget data pos) then 2 else 1)
          else st,
          pos + 1))
      (st, pos) in
  let j := 1 + Z.of_nat n in
  if strict_ne (zget data pos) (Some 0) then mark st j 2 else st.

(** The body of the loop over [i] up to the test of the limit
    (lines 267-290). *)
Definition middle_row (data : list Z) (width lineSize i : Z)
  (st : list Z * Z) : list Z * Z :=
  let width1 := width + 1 in
  let pos := i * lineSize in
  let j0 := i * width1 in
  let st :=
    if strict_ne (zget data (pos - lineSize)) (zget data pos)
    then mark st j0 (if truthy (zget data pos) then 1 else 8)
    else st in
  let sum := (if truthy (zget data pos) then 4 else 0)
             + (if truthy (zget data (pos - lineSize)) then 8 else 0) in
  let n := Z.to_nat (width - 1) in
  let '(st, pos, sum) :=
    for_loop n 1
      (λ j '(st, pos, sum),
         let sum := Z.shiftr sum 2
                    + (if truthy (zget data (pos + 1)) then 4 else 0)
                    + (if truthy (zget data (pos - lineSize + 1)) then 8
                       else 0) in
         (if truthy (zget POINT_TYPES sum)
          then mark st (j0 + j) (default 0 (zget POINT_TYPES sum))
          else st,
          pos + 1, sum))
      (st, pos, sum) in
  let j := 1 + Z.of_nat n in
  if strict_ne (zget data (pos - lineSize)) (zget data pos)
  then mark st (j0 + j) (if truthy (zget data pos) then 2 else 4)
  else st.

(** [for (i = 1; i < height; i++)], [n] rows left; [None] is the
    [return null] of line 293. *)
Fixpoint middle_rows (n : nat) (data : list Z) (width lineSize i : Z)
  (st : list Z * Z) : option (list Z * Z) :=
  match n with
  | O => Some st
  | S n' =>
      let st := middle_row data width lineSize i st in
      if POINT_TO_PROCESS_LIMIT <? st.2 then None
      else middle_rows n' data width lineSize (i + 1) st
  end.

(** Lines 297-313; [i] is the value the loop over the rows has left. *)
Definition last_row (data : list Z) (width height lineSize i : Z)
  (st : list Z * Z) : list Z * Z :=
  let width1 := width + 1 in
  let pos := lineSize * (height - 1) in
  let j0 := i * width1 in
  let st := if strict_ne (zget data pos) (Some 0) then mark st j0 8 else st in
  let n := Z.to_nat (width - 1) in
  let '(st, pos) :=
    for_loop n 1
      (λ j '(st, pos),
         (if strict_ne (zget data pos) (zget data (pos + 1))
          then mark st (j0 + j) (if truthy (zget data pos) then 4 else 8)
          else st,
          pos + 1))
      (st, pos) in
  let j := 1 + Z.of_nat n in
  if strict_ne (zget data pos) (Some 0) then mark st (j0 + j) 4 else st.

(** The whole classification: the points and their count, or [None] when
    one of the two tests of the limit returns [null]. *)
Definition classify (data : list Z) (width height : Z)
  : option (list Z * Z) :=
  let width1 := width + 1 in
  let lineSize := lineSize_of width in
  let points := replicate (Z.to_nat (width1 * (height + 1))) 0 in
  let st := first_row data width (points, 0) in
  let n := Z.to_nat (height - 1) in
  match middle_rows n data width lineSize 1 st with
  | None => None
  | Some st =>
      let i := 1 + Z.of_nat n in
      let st := last_row data width height lineSize i st in
      if POINT_TO_PROCESS_LIMIT <? st.2 then None else Some st
  end.

(** *** Building the outlines (lines 318-370) *)

(** The part of [DOMMatrix] the function uses: the matrix is
    [[a c e; b d f]] and both operations multiply on the right.  The
    coordinates are rationals where the source has floating-point numbers;
    the properties below are about the points that are visited and, for
    the 1 x 1 glyph, about coordinates on which the floating-point
    operations are exact. *)
Record DOMMatrix : Type := mkMatrix {
  m_a : Q; m_b : Q; m_c : Q; m_d : Q; m_e : Q; m_f : Q
}.

Definition identity_matrix : DOMMatrix :=
  mkMatrix 1%Q 0%Q 0%Q 1%Q 0%Q 0%Q.

Definition scaleSelf (m : DOMMatrix) (sx sy : Q) : DOMMatrix :=
  mkMatrix (m_a m * sx)%Q (m_b m * sx)%Q (m_c m * sy)%Q (m_d m * sy)%Q
           (m_e m) (m_f m).

Definition translateSelf (m : DOMMatrix) (tx ty : Q) : DOMMatrix :=
  mkMatrix (m_a m) (m_b m) (m_c m) (m_d m)
           (m_a m * tx + m_c m * ty + m_e m)%Q
           (m_b m * tx + m_d m * ty + m_f m)%Q.

(** [a * x + c * y + e, b * x + d * y + f] *)
Definition transform (m : DOMMatrix) (x y : Z) : Q * Q :=
  ((m_a m * inject_Z x + m_c m * inject_Z y + m_e m)%Q,
   (m_b m * inject_Z x + m_d m * inject_Z y + m_f m)%Q).

Definition glyph_matrix (width height : Z) : DOMMatrix :=
  translateSelf
    (scaleSelf identity_matrix (1 / inject_Z width)%Q (- (1) / inject_Z height)%Q)
    0%Q (- inject_Z height)%Q.

Definition moveTo (m : DOMMatrix) (x y : Z) : path_cmd :=
  let '(u, v) := transform m x y in MoveTo u v.

Definition lineTo (m : DOMMatrix) (x y : Z) : path_cmd :=
  let '(u, v) := transform m x y in LineTo u v.

(** [new Int32Array([0, width1, -1, 0, -width1, 0, 0, 0, 1])] *)
Definition steps_of (width1 : Z) : list Z :=
  [0; width1; -1; 0; - width1; 0; 0; 0; 1].

(** [while (p < end && !points[p]) p++], which runs at most [end - p]
    times. *)
Fixpoint scan_row (n : nat) (points : list Z) (p end_ : Z) : Z :=
  match n with
  | O => p
  | S n' =>
      if (p <? end_) && negb (truthy (zget points p))
      then scan_row n' points (p + 1) end_
      else p
  end.

(** [do { p += step; } while (!points[p])] *)
Fixpoint skip (fuel : nat) (points : list Z) (p step : Z) : option Z :=
  match fuel with
  | O => None
  | S fuel' =>
      let p := p + step in
      if negb (truthy (zget points p)) then skip fuel' points p step
      else Some p
  end.

(** The state of the tracing loops. *)
Record tracer : Type := mkTracer {
  points : list Z;
  count : Z;
  pathBuf : list path_cmd
}.

(** One turn of the [do ... while (p0 !== p)] loop (lines 343-367): the
    new state, position and type.  [None]: the inner loop has not come to
    an end, or [steps[type]] is [undefined] and [p] becomes [NaN], which no
    read of [points] ends. *)
Definition walk_step (inner : nat) (width1 : Z) (m : DOMMatrix)
  (t : tracer) (p type : Z) : option (tracer * Z * Z) :=
  match zget (steps_of width1) type with
  | None => None
  | Some step =>
      match skip inner (points t) p step with
      | None => None
      | Some p =>
          let pp := default 0 (zget (points t) p) in
          let '(type, points) :=
            if negb (pp =? 5) && negb (pp =? 10) then
              (pp, zset (points t) p 0)
            else
              let type := Z.land pp (Z.shiftr (51 * type) 4) in
              (type,
               zset (points t) p
                 (Z.land pp (Z.lor (Z.shiftr type 2) (Z.shiftl type 2)))) in
          let x := p mod width1 in
          let y := p / width1 in
          let pathBuf := pathBuf t ++ [lineTo m x y] in
          let count :=
            if negb (truthy (zget points p)) then count t - 1 else count t in
          Some (mkTracer points count pathBuf, p, type)
      end
  end.

(** [do ... while (p0 !== p)] *)
Fixpoint walk (inner fuel : nat) (width1 : Z) (m : DOMMatrix) (p0 : Z)
  (t : tracer) (p type : Z) : option tracer :=
  match fuel with
  | O => None
  | S fuel' =>
      match walk_step inner width1 m t p type with
      | None => None
      | Some (t, p, type) =>
          if negb (p0 =? p) then walk inner fuel' width1 m p0 t p type
          else Some t
      end
  end.

(** [for (i = 0; count && i <= height; i++)] (lines 327-370) *)
Fixpoint trace (inner fuel : nat) (width height : Z) (m : DOMMatrix)
  (i : Z) (t : tracer) : option tracer :=
  match fuel with
  | O => None
  | S fuel' =>
      if negb (count t =? 0) && (i <=? height) then
        let width1 := width + 1 in
        let p := i * width1 in
        let end_ := p + width in
        let p := scan_row (Z.to_nat (end_ - p)) (points t) p end_ in
        if p =? end_ then trace inner fuel' width height m (i + 1) t
        else
          let x := p mod width1 in
          let y := i in
          let t := mkTracer (points t) (count t)
                            (pathBuf t ++ [moveTo m x y]) in
          let p0 := p in
          let type := default 0 (zget (points t) p) in
          match walk inner inner width1 m p0 t p type with
          | None => None
          | Some t => trace inner fuel' width height m (i - 1 + 1) t
          end
      else Some t
  end.

(** The function, for the glyphs of its callers: [width] and [height]
    positive integers and [data] an array of bytes.  [fuel] bounds the
    number of turns of each of the three loops of the tracing; [None] means
    that one of them used it up. *)
Definition compileType3Glyph (fuel : nat) (g : BitmapGlyph)
  : option compiled :=
  let img := data g in
  let width := width g in
  let height := height g in
  if (MAX_SIZE_TO_COMPILE <? width) || (MAX_SIZE_TO_COMPILE <? height)
  then Some Null
  else
    let data := unpack img width height in
    match classify data width height with
    | None => Some Null
    | Some (points, count) =>
        let m := glyph_matrix width height in
        match trace fuel fuel width height m 0 (mkTracer points count []) with
        | None => None
        | Some t => Some (Outline (pathBuf t) (0, 0, width, height))
        end
    end.

(** * Properties of the glyph mapping and of the font name *)

(** ** Notions used to state the properties *)

(** The position of a glyph name in [glyphNames], if it is there. *)
Definition name_position (glyphNames : list string) (s : string) : option nat :=
  fst <$> list_find (λ x, x = s) glyphNames.

(** "translated through glyphNames (miss gives id 0)" *)
Definition name_id (glyphNames : list string) (v : value) : Z :=
  match v with
  | VStr s => from_option Z.of_nat 0 (name_position glyphNames s)
  | _ => 0
  end.

(** "a char-code-to-glyph-name table translated through glyphNames": what
    the translated table holds for the char code [c].  The table has the
    char codes below its length; the entry of a char code is looked up by
    name, and an entry that is missing, or is no glyph name, gives id 0. *)
Definition translated (table : jsobj) (glyphNames : list string) (c : N)
  : option value :=
  match obj_length table with
  | Some n =>
      if (c <? N.of_nat n)%N
      then Some (VNum (from_option (name_id glyphNames) 0
                         (obj_props table !! c)))
      else None
  | None => None
  end.

(** "entries are copied through unchanged" *)
Definition copied (table : jsobj) (c : N) : option value :=
  obj_props table !! c.

(** The map [m] holds what [f] says, for every char code. *)
Definition agrees (m : gmap N value) (f : N → option value) : Prop :=
  ∀ c, m !! c = f c.

(** A glyph id "within [0, len(glyphNames))". *)
Definition in_range (glyphNames : list string) (v : value) : Prop :=
  match v with
  | VNum n => 0 ≤ n < Z.of_nat (length glyphNames)
  | _ => False
  end.

(** "commas, underscores, and all whitespace characters stripped" *)
Definition stripped (s : ustring) : ustring :=
  List.filter
    (λ c, negb ((c =? COMMA)%N || (c =? UNDERSCORE)%N || is_whitespace c)) s.

(** What [normalizeFontName] does to one code unit. *)
Definition normalize_unit (c : N) : ustring :=
  if (c =? COMMA)%N || (c =? UNDERSCORE)%N then [HYPHEN]
  else if is_whitespace c then []
  else [c].

Section GlyphMappingProperties.
Context `{Imports}.

(** "the id derived from the difference entry": the index of the name,
    retried with the recovered name on a miss, 0 if still unresolved. *)
Definition difference_id (glyphNames : list string) (glyphName : string) : Z :=
  match name_position glyphNames glyphName with
  | Some i => Z.of_nat i
  | None =>
      let recovered := recoverGlyphName glyphName getGlyphsUnicode in
      from_option Z.of_nat 0 (name_position glyphNames recovered)
  end.

(** *** [recoverGlyphName] *)

Lemma find_key_first (m : unicode_map) (keys : list string) (u : Z) (k : string) :
  find_key m keys u = Some k →
  ∃ l1 l2, keys = l1 ++ k :: l2 ∧ umap_get m k = Some u
           ∧ ∀ k', k' ∈ l1 → umap_get m k' ≠ Some u.
Proof.
  induction keys as [|key keys IH]; simpl; [done|].
  case_bool_decide as Hk.
  - intros [= <-]. exists [], keys. split_and!; [done|done|].
    intros k' Hin. by apply elem_of_nil in Hin.
  - intros Hf. destruct (IH Hf) as (l1 & l2 & -> & Hu & Hl1).
    exists (key :: l1), l2. split_and!; [done|done|].
    intros k' [->|Hin]%elem_of_cons; auto.
Qed.

Lemma find_key_none (m : unicode_map) (keys : list string) (u : Z) :
  find_key m keys u = None → ∀ k, k ∈ keys → umap_get m k ≠ Some u.
Proof.
  induction keys as [|key keys IH]; simpl.
  - intros _ k Hin. by apply elem_of_nil in Hin.
  - case_bool_decide as Hk; [done|].
    intros Hf k [->|Hin]%elem_of_cons; auto.
Qed.

(** C10.  [recoverGlyphName] answers its input, or, when the input is not a
    key of the map and its codepoint is not -1, the first key in
    enumeration order whose value is that codepoint.  It answers the input
    only when the input is a key, the codepoint is -1 or no key has that
    codepoint; so a result other than the input is a key of the map. *)
Theorem recoverGlyphName_result (name : string) (m : unicode_map) :
  let r := recoverGlyphName name m in
  let unicode := getUnicodeForGlyph name m in
  (r = name
   ∧ (is_Some (umap_get m name) ∨ unicode = -1
      ∨ ∀ k, k ∈ m.*1 → umap_get m k ≠ Some unicode))
  ∨ (umap_get m name = None ∧ unicode ≠ -1
     ∧ ∃ l1 l2, m.*1 = l1 ++ r :: l2 ∧ umap_get m r = Some unicode
                ∧ ∀ k, k ∈ l1 → umap_get m k ≠ Some unicode).
Proof.
  cbn zeta. unfold recoverGlyphName.
  destruct (umap_get m name) as [u|] eqn:Hname.
  { left. split; [done|]. left. by exists u. }
  destruct (Z.eqb_spec (getUnicodeForGlyph name m) (-1)) as [Hu|Hu]; simpl.
  { left. split; [done|]. right. by left. }
  destruct (find_key m m.*1 (getUnicodeForGlyph name m)) as [key|] eqn:Hf.
  - right. split_and!; [done|done|]. by apply find_key_first.
  - left. split; [done|]. right. right. by apply find_key_none.
Qed.

(** *** The glyph-name index *)

Lemma index_from_find (s : string) (l : list string) (i : Z) :
  index_from i s l
  = from_option (λ k, i + Z.of_nat k) (-1) (name_position l s).
Proof.
  unfold name_position. revert i.
  induction l as [|x l IH]; intros i; simpl; [done|].
  destruct (String.eqb_spec x s) as [->|Hne].
  - rewrite decide_True by done. simpl. lia.
  - rewrite decide_False by done. rewrite IH.
    destruct (list_find _ l) as [[k y]|]; simpl; [lia|done].
Qed.

Lemma indexOf_position (g : list string) (s : string) :
  indexOf g (VStr s) = from_option Z.of_nat (-1) (name_position g s).
Proof.
  simpl. rewrite index_from_find. by destruct (name_position g s).
Qed.

Lemma or_notdef_indexOf (g : list string) (v : value) :
  or_notdef (indexOf g v) = name_id g v.
Proof.
  destruct v as [|n|s]; [done|done|].
  rewrite indexOf_position. simpl.
  destruct (name_position g s) as [k|]; simpl; [|done].
  unfold or_notdef. destruct (Z.leb_spec 0 (Z.of_nat k)); lia.
Qed.

Lemma name_position_lt (g : list string) (s : string) (k : nat) :
  name_position g s = Some k → (k < length g)%nat.
Proof.
  unfold name_position. destruct (list_find _ g) as [[i y]|] eqn:Hf; [|done].
  intros [= <-]. apply list_find_Some in Hf as (Hl & _).
  by apply lookup_lt_Some in Hl.
Qed.

Lemma name_id_in_range (g : list string) (v : value) :
  (0 < length g)%nat → in_range g (VNum (name_id g v)).
Proof.
  intros Hg. destruct v as [|n|s]; simpl; [lia|lia|].
  destruct (name_position g s) as [k|] eqn:Hk; simpl; [|lia].
  apply name_position_lt in Hk. lia.
Qed.

(** *** The loops *)

Lemma translate_loop_lookup (tbl : jsobj) (g : list string)
  (m0 : gmap N value) (c : N) :
  translate_loop tbl g m0 !! c
  = if bool_decide (c ∈ char_codes tbl)
    then Some (VNum (name_id g (obj_get tbl c)))
    else m0 !! c.
Proof.
  unfold translate_loop. revert m0.
  induction (char_codes tbl) as [|c' l IH]; intros m0.
  - rewrite bool_decide_eq_false_2; [done|]. apply not_elem_of_nil.
  - cbn [foldl]. rewrite IH. case_bool_decide as Hl.
    + rewrite bool_decide_eq_true_2; [done|]. by apply elem_of_cons; right.
    + destruct (decide (c = c')) as [->|Hne].
      * rewrite lookup_insert_eq, or_notdef_indexOf.
        rewrite bool_decide_eq_true_2; [done|]. by apply elem_of_cons; left.
      * rewrite lookup_insert_ne by done.
        rewrite bool_decide_eq_false_2; [done|].
        by intros [?|?]%elem_of_cons.
Qed.

Lemma translate_loop_translated (tbl : jsobj) (g : list string) (c : N) :
  translate_loop tbl g ∅ !! c = translated tbl g c.
Proof.
  rewrite translate_loop_lookup, lookup_empty.
  unfold translated, char_codes, obj_get.
  destruct (obj_length tbl) as [n|].
  - destruct (N.ltb_spec c (N.of_nat n)) as [Hlt|Hge].
    + rewrite bool_decide_eq_true_2.
      * by destruct (obj_props tbl !! c).
      * apply list_elem_of_fmap. exists (N.to_nat c).
        split; [lia|]. apply elem_of_seq. lia.
    + rewrite bool_decide_eq_false_2; [done|].
      intros (k & -> & Hk%elem_of_seq)%list_elem_of_fmap. lia.
  - rewrite bool_decide_eq_false_2; [done|]. apply not_elem_of_nil.
Qed.

Lemma copy_loop_props (o : jsobj) : copy_loop o ∅ = obj_props o.
Proof.
  unfold copy_loop.
  apply (map_fold_weak_ind (λ r (m : gmap N value), r = m)); [done|].
  by intros c v m r _ ->.
Qed.

(** The loop over [differences]: every entry is written with the id derived
    from it, the other char codes keep what they had, and the map of glyph
    names to codepoints, once fetched, is the one of [getGlyphsUnicode]. *)
Lemma difference_loop_lookup (g : list string) (m0 : gmap N value)
  (diffs : gmap N string) (c : N) :
  (map_fold (difference_step g) (m0, None) diffs).1 !! c
  = match diffs !! c with
    | Some name => Some (VNum (difference_id g name))
    | None => m0 !! c
    end.
Proof.
  revert c.
  refine (proj2 (map_fold_weak_ind
    (λ (r : gmap N value * option unicode_map) (d : gmap N string),
       (r.2 = None ∨ r.2 = Some getGlyphsUnicode)
       ∧ ∀ c, r.1 !! c = match d !! c with
                         | Some name => Some (VNum (difference_id g name))
                         | None => m0 !! c
                         end)
    (difference_step g) (m0, None) _ _ diffs)).
  - split; [by left|]. intros c. by rewrite lookup_empty.
  - intros c name d [m cache] Hfresh [Hcache IH]. cbn [fst snd] in *.
    assert (Hhit : ∀ k, name_position g name = Some k →
              (indexOf g (VStr name) =? -1) = false
              ∧ or_notdef (indexOf g (VStr name)) = difference_id g name).
    { intros k Hk. unfold difference_id. rewrite indexOf_position, Hk.
      simpl. split; [apply Z.eqb_neq; lia|].
      unfold or_notdef. destruct (Z.leb_spec 0 (Z.of_nat k)); lia. }
    assert (Hmiss : name_position g name = None →
              (indexOf g (VStr name) =? -1) = true
              ∧ or_notdef
                  (if negb (String.eqb
                              (recoverGlyphName name getGlyphsUnicode) name)
                   then indexOf g (VStr (recoverGlyphName name getGlyphsUnicode))
                   else indexOf g (VStr name))
                = difference_id g name).
    { intros Hk. unfold difference_id. rewrite !indexOf_position, Hk.
      simpl. split; [done|].
      destruct (String.eqb_spec (recoverGlyphName name getGlyphsUnicode) name)
        as [Heq|Hne]; cbn [negb].
      - rewrite Heq, Hk. reflexivity.
      - destruct (name_position g (recoverGlyphName name getGlyphsUnicode))
          as [k|]; simpl; [|reflexivity].
        unfold or_notdef. destruct (Z.leb_spec 0 (Z.of_nat k)); lia. }
    unfold difference_step.
    destruct (name_position g name) as [k|] eqn:Hk.
    + destruct (Hhit k eq_refl) as [-> Hid]. cbn [fst snd]. split; [done|].
      intros c'. rewrite Hid.
      destruct (decide (c = c')) as [->|Hne].
      * by rewrite !lookup_insert_eq.
      * by rewrite !lookup_insert_ne.
    + destruct (Hmiss eq_refl) as [-> Hid]. cbn [fst snd].
      assert (Hmap : match cache with Some m' => m' | None => getGlyphsUnicode end
                     = getGlyphsUnicode) by (by destruct Hcache as [->| ->]).
      rewrite Hmap. split; [by right|].
      intros c'. rewrite Hid.
      destruct (decide (c = c')) as [->|Hne].
      * by rewrite !lookup_insert_eq.
      * by rewrite !lookup_insert_ne.
Qed.

Lemma merge_differences_lookup (p : FontProperties) (g : list string)
  (m0 : gmap N value) (c : N) :
  merge_differences p g m0 !! c
  = match differences p ≫= (.!! c) with
    | Some name => Some (VNum (difference_id g name))
    | None => m0 !! c
    end.
Proof.
  unfold merge_differences. destruct (differences p) as [diffs|]; simpl; [|done].
  apply difference_loop_lookup.
Qed.

Lemma difference_id_in_range (g : list string) (name : string) :
  (0 < length g)%nat → in_range g (VNum (difference_id g name)).
Proof.
  intros Hg. unfold difference_id.
  destruct (name_position g name) as [k|] eqn:Hk.
  - apply name_position_lt in Hk. simpl. lia.
  - destruct (name_position g (recoverGlyphName name getGlyphsUnicode))
      as [k|] eqn:Hk'; simpl; [|lia].
    apply name_position_lt in Hk'. lia.
Qed.

End GlyphMappingProperties.

(** *** Sample data for the closed instances below *)

Definition sample_map : unicode_map := [("space", 32); ("A", 65); ("B", 66)].

Definition sample_imports : Imports := {|
  getEncoding := λ encodingName,
    if String.eqb encodingName "WinAnsiEncoding"
    then Some (mkObj (Some 2%nat) {[ 0%N := VStr ""; 1%N := VStr "B" ]})
    else None;
  StandardEncoding := mkObj (Some 2%nat) {[ 0%N := VStr ""; 1%N := VStr "A" ]};
  getGlyphsUnicode := sample_map;
  getUnicodeForGlyph := λ name m,
    match umap_get m name with
    | Some u => u
    | None => if String.eqb name "uni0041" then 65 else -1
    end
|}.

Definition sample_names : list string := [".notdef"; "A"; "B"].

(** A symbolic font whose built-in encoding names glyph 7. *)
Definition symbolic_props : FontProperties :=
  mkProps FontFlags.Symbolic false None None.

(** A font with the difference [65 -> uni0041] over the standard table. *)
Definition differences_props : FontProperties :=
  mkProps 0 false None (Some {[ 65%N := "uni0041" ]}).

Section GlyphMappingClaims.
Context `{Imports}.

(** The third branch of the selection is the one that is taken. *)
Definition copies_builtin_ids (p : FontProperties) : bool :=
  negb (isInternalFont p)
  && bool_decide (truthy_name (baseEncodingName p) = None)
  && isSymbolicFont p.

Lemma base_pass_in_range (p : FontProperties) (b : jsobj) (g : list string)
  (m : gmap N value) :
  base_pass p b g = Some m →
  (0 < length g)%nat →
  (copies_builtin_ids p = true →
   ∀ c v, obj_props b !! c = Some v → in_range g v) →
  ∀ c v, m !! c = Some v → in_range g v.
Proof.
  unfold base_pass, copies_builtin_ids. intros Hm Hg Hb c v Hc.
  assert (Htr : ∀ tbl, translate_loop tbl g ∅ !! c = Some v → in_range g v).
  { intros tbl. rewrite translate_loop_lookup, lookup_empty.
    destruct (bool_decide (c ∈ char_codes tbl)); [|intros [=]].
    intros [= <-]. by apply name_id_in_range. }
  destruct (isInternalFont p).
  { injection Hm as <-. eauto. }
  destruct (truthy_name (baseEncodingName p)) as [n|].
  { destruct (getEncoding n) as [tbl|]; [|done]. injection Hm as <-. eauto. }
  destruct (isSymbolicFont p).
  - injection Hm as <-. rewrite copy_loop_props in Hc. eapply Hb; [|done].
    by rewrite bool_decide_eq_true_2.
  - injection Hm as <-. eauto.
Qed.

(** C1, amended.  When [glyphNames] is not empty and, in case the symbolic
    branch is the one taken, the entries of [builtInEncoding] are glyph ids
    within [0, len(glyphNames)), every glyph id of the returned map lies
    within [0, len(glyphNames)). *)
Theorem glyph_ids_in_range (p : FontProperties) (b : jsobj) (g : list string)
  (m : gmap N value) :
  type1FontGlyphMapping p b g = Some m →
  (0 < length g)%nat →
  (copies_builtin_ids p = true →
   ∀ c v, obj_props b !! c = Some v → in_range g v) →
  ∀ c v, m !! c = Some v → in_range g v.
Proof.
  unfold type1FontGlyphMapping. intros Hm Hg Hb c v Hc.
  destruct (base_pass p b g) as [m0|] eqn:Hbase; [|done].
  injection Hm as <-. rewrite merge_differences_lookup in Hc.
  destruct (differences p ≫= (.!! c)) as [name|].
  - injection Hc as <-. by apply difference_id_in_range.
  - by eapply base_pass_in_range.
Qed.

(** C2.  For a char code of [differences], the glyph id of the returned map
    is the id derived from the difference entry, whatever the base pass has
    written for that code. *)
Theorem differences_win (p : FontProperties) (b : jsobj) (g : list string)
  (m : gmap N value) (diffs : gmap N string) (c : N) (name : string) :
  type1FontGlyphMapping p b g = Some m →
  differences p = Some diffs →
  diffs !! c = Some name →
  m !! c = Some (VNum (difference_id g name)).
Proof.
  unfold type1FontGlyphMapping. intros Hm Hd Hc.
  destruct (base_pass p b g) as [m0|]; [|done].
  injection Hm as <-. rewrite merge_differences_lookup, Hd. simpl.
  by rewrite Hc.
Qed.

(** The table the precedence of the spec selects, as the entry of each
    char code; [None] when the named table cannot be fetched. *)
Definition chosen_table (p : FontProperties) (b : jsobj) (g : list string)
  : option (N → option value) :=
  if isInternalFont p then Some (translated b g)
  else match truthy_name (baseEncodingName p) with
       | Some encodingName =>
           (λ table, translated table g) <$> getEncoding encodingName
       | None =>
           if negb (Z.land (flags p) 4 =? 0) then Some (copied b)
           else Some (translated StandardEncoding g)
       end.

(** C3.  The base table is chosen by precedence: the built-in encoding
    translated by name for an internal font; else, when [baseEncodingName]
    is present (a non-empty string, the test the code makes), the table
    [getEncoding] answers translated by name; else, when the Symbolic flag
    is set, the entries of the built-in encoding unchanged; else the
    standard encoding translated by name.  The base pass writes, for every
    char code, the entry of the table that is chosen, and no other; it
    fails exactly when no table is chosen. *)
Theorem base_table_precedence (p : FontProperties) (b : jsobj)
  (g : list string) :
  option_Forall2 agrees (base_pass p b g) (chosen_table p b g).
Proof.
  unfold base_pass, chosen_table, isSymbolicFont, FontFlags.Symbolic.
  destruct (isInternalFont p).
  { constructor. intros c. apply translate_loop_translated. }
  destruct (truthy_name (baseEncodingName p)) as [n|].
  { destruct (getEncoding n) as [tbl|]; simpl; constructor.
    intros c. apply translate_loop_translated. }
  destruct (negb _); constructor; intros c.
  - by rewrite copy_loop_props.
  - apply translate_loop_translated.
Qed.

End GlyphMappingClaims.

(** C1 as written fails: the symbolic branch copies the entry 7 of the
    built-in encoding for char code 65 although there is one glyph name. *)
Lemma symbolic_id_out_of_range :
  let m := type1FontGlyphMapping (H := sample_imports) symbolic_props
             (mkObj None {[ 65%N := VNum 7 ]}) [".notdef"] in
  (m ≫= (.!! 65%N)) = Some (VNum 7) ∧ ¬ in_range [".notdef"] (VNum 7).
Proof. split; [by vm_compute|]. simpl. lia. Qed.

Lemma glyph_ids_in_range_witness : in_range sample_names (VNum 2).
Proof.
  apply (glyph_ids_in_range (H := sample_imports) symbolic_props
           (mkObj None {[ 65%N := VNum 2 ]}) sample_names
           ({[ 65%N := VNum 2 ]} : gmap N value)) with (c := 65%N).
  - vm_compute. reflexivity.
  - simpl. lia.
  - intros _ c v Hc. simpl in Hc.
    apply lookup_singleton_Some in Hc as [_ <-]. simpl. lia.
  - vm_compute. reflexivity.
Defined.

(** A symbolic font that names a base encoding: the name comes first, and
    the table of that name is translated ("" is no glyph name, B is
    glyph 2). *)
Definition named_props : FontProperties :=
  mkProps FontFlags.Symbolic false (Some "WinAnsiEncoding") None.

Lemma base_table_precedence_witness :
  option_Forall2 agrees
    (Some ({[ 0%N := VNum 0; 1%N := VNum 2 ]} : gmap N value))
    (chosen_table (H := sample_imports) named_props
       (mkObj None {[ 65%N := VNum 7 ]}) sample_names).
Proof.
  exact (base_table_precedence (H := sample_imports) named_props
           (mkObj None {[ 65%N := VNum 7 ]}) sample_names).
Defined.

(** What the chosen table of that font holds: the two char codes of the
    named table, and nothing for the char code of the built-in encoding. *)
Example named_table_entries :
  let table := chosen_table (H := sample_imports) named_props
                 (mkObj None {[ 65%N := VNum 7 ]}) sample_names in
  (table ≫= (λ f, f 0%N)) = Some (VNum 0)
  ∧ (table ≫= (λ f, f 1%N)) = Some (VNum 2)
  ∧ (table ≫= (λ f, f 65%N)) = None.
Proof. by vm_compute. Qed.

Lemma differences_win_witness :
  ({[ 0%N := VNum 0; 1%N := VNum 1; 65%N := VNum 1 ]} : gmap N value) !! 65%N
  = Some (VNum (difference_id (H := sample_imports) sample_names "uni0041")).
Proof.
  apply (differences_win (H := sample_imports) differences_props
           (mkObj None ∅) sample_names _ {[ 65%N := "uni0041" ]}).
  - vm_compute. reflexivity.
  - reflexivity.
  - vm_compute. reflexivity.
Defined.

(** *** [normalizeFontName] *)

(** C8 as written fails: the comma of "a,b" is replaced by a hyphen, not
    stripped. *)
Lemma comma_not_stripped :
  normalizeFontName (code_units "a,b") = code_units "a-b"
  ∧ normalizeFontName (code_units "a,b") ≠ stripped (code_units "a,b").
Proof. split; [reflexivity|]. vm_compute. discriminate. Qed.

Lemma hyphen_not_whitespace : is_whitespace HYPHEN = false.
Proof. reflexivity. Qed.

(** C8, amended.  [normalizeFontName] replaces every comma and every
    underscore by a hyphen, removes every whitespace character, and leaves
    every other code unit in place. *)
Theorem normalizeFontName_units (name : ustring) :
  normalizeFontName name = name ≫= normalize_unit.
Proof.
  unfold normalizeFontName, remove_whitespace, replace_comma_underscore.
  induction name as [|c name IH]; [done|].
  cbn [fmap list_fmap List.filter mbind list_bind]. rewrite IH.
  unfold normalize_unit.
  destruct ((c =? COMMA)%N || (c =? UNDERSCORE)%N) eqn:Hc.
  - rewrite hyphen_not_whitespace. reflexivity.
  - destruct (is_whitespace c); reflexivity.
Qed.

(** * Properties of the compilation of Type3 glyphs *)

(** ** Notions used to state and to prove the properties *)

(** The four directions of a walk, named by the point type that sends a
    walk there: 1 down, 2 left, 4 up, 8 right. *)
Definition is_dir (t : Z) : Prop := t = 1 ∨ t = 2 ∨ t = 4 ∨ t = 8.

(** The step of a direction in the grid; [steps[t]] is
    [dx t + width1 * dy t]. *)
Definition dx (t : Z) : Z := match t with 8 => 1 | 2 => -1 | _ => 0 end.

Definition dy (t : Z) : Z := match t with 1 => 1 | 4 => -1 | _ => 0 end.

(** The value [c] of a cell of [points] still holds the direction [t]. *)
Definition has (c t : Z) : bool := negb (Z.land c t =? 0).

(** The index into [POINT_TYPES] of a point whose neighbouring pixels are
    [tl tr / bl br]: top-right 8, bottom-right 4, top-left 2,
    bottom-left 1. *)
Definition sum_of (tl tr bl br : bool) : Z :=
  (if tr then 8 else 0) + (if br then 4 else 0)
  + (if tl then 2 else 0) + (if bl then 1 else 0).

(** The type of a point from its four neighbouring pixels. *)
Definition type_of (tl tr bl br : bool) : Z :=
  default 0 (zget POINT_TYPES (sum_of tl tr bl br)).

(** A boundary edge leaves the point in direction [t]: the pixel to the
    left of the edge has ink and the pixel to its right has none. *)
Definition out4 (t : Z) (tl tr bl br : bool) : bool :=
  match t with
  | 8 => tr && negb br
  | 2 => bl && negb tl
  | 1 => br && negb bl
  | 4 => tl && negb tr
  | _ => false
  end.

(** A boundary edge reaches the point in direction [t]. *)
Definition inn4 (t : Z) (tl tr bl br : bool) : bool :=
  match t with
  | 8 => tl && negb bl
  | 2 => br && negb tr
  | 1 => tr && negb tl
  | 4 => bl && negb br
  | _ => false
  end.

(** The new direction at a cell of value [T] reached in direction [t]
    (lines 349-357). *)
Definition pair_dir (T t : Z) : Z :=
  if negb (T =? 5) && negb (T =? 10) then T
  else Z.land T (Z.shiftr (51 * t) 4).

(** The value the cell keeps when the direction [o] has been taken
    (lines 353 and 359). *)
Definition rest_of (T o : Z) : Z :=
  if negb (T =? 5) && negb (T =? 10) then 0
  else Z.land T (Z.lor (Z.shiftr o 2) (Z.shiftl o 2)).

(** The cell value [c] is what is left of the point type [T]: all of it,
    nothing, or one of the two directions of a crossing. *)
Definition sub (c T : Z) : Prop :=
  c = 0 ∨ c = T ∨ (T = 5 ∧ (c = 1 ∨ c = 4)) ∨ (T = 10 ∧ (c = 2 ∨ c = 8)).

(** The number of directions a cell value holds. *)
Definition bits (c : Z) : Z :=
  Z.b2z (has c 1) + Z.b2z (has c 2) + Z.b2z (has c 4) + Z.b2z (has c 8).

(** A read of [points] in a condition or after one: [undefined] counts
    as 0. *)
Definition rd (a : list Z) (i : Z) : Z := default 0 (zget a i).

(** The number of directions the whole array holds. *)
Definition total (a : list Z) : Z := foldr (λ c s, bits c + s) 0 a.

(** The command is a line-to. *)
Definition is_line (c : path_cmd) : Prop :=
  match c with LineTo _ _ => True | MoveTo _ _ => False end.

(** Every contour of the path is closed: the path is a sequence of
    contours, each a move-to, line-tos, and a last line-to with the
    coordinates of the move-to. *)
Inductive closed : list path_cmd → Prop :=
  | closed_nil : closed []
  | closed_snoc path u v lines :
      closed path → Forall is_line lines →
      closed (path ++ MoveTo u v :: lines ++ [LineTo u v]).

(** The pixel [(x, y)] of the decoded mask is marked: it lies in the
    bitmap and its byte is not 0. *)
Definition pix (data : list Z) (w h : Z) (x y : Z) : bool :=
  (0 <=? x) && (x <? w) && (0 <=? y) && (y <? h)
  && truthy (zget data (y * lineSize_of w + x)).

(** 1 for a point that is classified (non-zero type), else 0. *)
Definition nz (t : Z) : Z := if t =? 0 then 0 else 1.

(** [points[idx] = v; ++count] when [v] is not 0, nothing otherwise. *)
Definition put (st : list Z * Z) (idx v : Z) : list Z * Z :=
  if v =? 0 then st else mark st idx v.

(** Every byte of the decoded mask is 0 or 255. *)
Definition binary (data : list Z) : Prop := Forall (λ v, v = 0 ∨ v = 255) data.

(** [elem & mask ? 0 : 255] *)
Definition mask_byte (elem mask : Z) : Z :=
  if negb (Z.land elem mask =? 0) then 0 else 255.

(** The byte the decoding writes for the bit [b] of [elem], bit 0 being
    the most significant one. *)
Definition bit_byte (elem b : Z) : Z :=
  if Z.testbit elem (7 - b) then 0 else 255.

(** One turn of the loop over [mask]. *)
Definition unpack_bit (elem : Z) (st : list Z * Z) (mask : Z) : list Z * Z :=
  (zset st.1 st.2 (mask_byte elem mask), st.2 + 1).

(** ** Point types, by cases on the four neighbouring pixels *)

Ltac dirs H := destruct H as [->|[->|[->| ->]]].
Ltac bools := repeat match goal with b : bool |- _ => destruct b end.

(** A point type holds the direction [t] when an edge leaves the point
    that way and none reaches it that way. *)
Lemma type_has (t : Z) (tl tr bl br : bool) :
  is_dir t →
  has (type_of tl tr bl br) t = out4 t tl tr bl br && negb (inn4 t tl tr bl br).
Proof. intros Ht. dirs Ht; bools; reflexivity. Qed.

(** At a point of type 0 the boundary goes straight on. *)
Lemma type_zero_through (t : Z) (tl tr bl br : bool) :
  is_dir t → type_of tl tr bl br = 0 →
  inn4 t tl tr bl br = out4 t tl tr bl br.
Proof. intros Ht. dirs Ht; bools; (reflexivity || discriminate). Qed.

Lemma through_type_zero (t : Z) (tl tr bl br : bool) :
  is_dir t → inn4 t tl tr bl br = true → out4 t tl tr bl br = true →
  type_of tl tr bl br = 0.
Proof. intros Ht. dirs Ht; bools; (reflexivity || discriminate). Qed.

Lemma type_values (tl tr bl br : bool) :
  let T := type_of tl tr bl br in
  T = 0 ∨ is_dir T ∨ T = 5 ∨ T = 10.
Proof. unfold is_dir. bools; vm_compute; tauto. Qed.

(** At a classified point every edge that comes in is paired with a
    direction the type holds, and two edges are not paired with the same. *)
Lemma pair_out (t : Z) (tl tr bl br : bool) :
  is_dir t → inn4 t tl tr bl br = true → type_of tl tr bl br ≠ 0 →
  let o := pair_dir (type_of tl tr bl br) t in
  is_dir o ∧ has (type_of tl tr bl br) o = true.
Proof.
  intros Ht. unfold is_dir.
  dirs Ht; bools; vm_compute; intros; try discriminate; try tauto;
    try (split; [tauto|reflexivity]).
Qed.

Lemma pair_inj (t t' : Z) (tl tr bl br : bool) :
  is_dir t → is_dir t' →
  inn4 t tl tr bl br = true → inn4 t' tl tr bl br = true →
  pair_dir (type_of tl tr bl br) t = pair_dir (type_of tl tr bl br) t' → t = t'.
Proof.
  intros Ht Ht'.
  dirs Ht; dirs Ht'; bools; vm_compute; intros; try discriminate;
    try reflexivity.
Qed.

(** What lines 349-360 do to a cell of value [c] that is left of the type
    [T] and still holds the direction paired with the incoming one: they
    take that direction and remove it from the cell. *)
Lemma arrival (c T t : Z) :
  sub c T → (T = 0 ∨ is_dir T ∨ T = 5 ∨ T = 10) → is_dir t →
  is_dir (pair_dir T t) →
  has c (pair_dir T t) = true →
  let o := pair_dir c t in
  let c' := rest_of c o in
  o = pair_dir T t ∧ sub c' T ∧ has c' o = false
  ∧ (∀ t', is_dir t' → t' ≠ o → has c' t' = has c t')
  ∧ bits c' = bits c - 1.
Proof.
  unfold sub, is_dir. intros Hs HT Ht Ho Hh.
  destruct HT as [->|[HT|[->| ->]]].
  - destruct Hs as [->|[->|[[? _]|[? _]]]]; try discriminate; vm_compute in Hh; discriminate.
  - dirs HT.
    all: destruct Hs as [->|[->|[[? _]|[? _]]]]; try discriminate;
      try (vm_compute in Hh; discriminate).
    all: cbn zeta; split_and!; try reflexivity; try tauto.
    all: intros t' Ht'; dirs Ht'; intros; try reflexivity; try (exfalso; vm_compute in *; congruence).
  - dirs Ht.
    all: destruct Hs as [->|[->|[[_ [->| ->]]|[? _]]]]; try discriminate; try (vm_compute in Hh; discriminate).
    all: try (vm_compute in Ho; exfalso; intuition discriminate).
    all: cbn zeta; split_and!; try reflexivity; try (vm_compute; tauto).
    all: intros t' Ht'; dirs Ht'; intros; try reflexivity; try (exfalso; vm_compute in *; congruence).
  - dirs Ht.
    all: destruct Hs as [->|[->|[[? _]|[_ [->| ->]]]]]; try discriminate; try (vm_compute in Hh; discriminate).
    all: try (vm_compute in Ho; exfalso; intuition discriminate).
    all: cbn zeta; split_and!; try reflexivity; try (vm_compute; tauto).
    all: intros t' Ht'; dirs Ht'; intros; try reflexivity; try (exfalso; vm_compute in *; congruence).
Qed.

(** ** Typed arrays *)

Lemma truthy_rd (a : list Z) (i : Z) : truthy (zget a i) = negb (rd a i =? 0).
Proof. unfold rd. by destruct (zget a i). Qed.

Lemma zget_zset (a : list Z) (i v k : Z) :
  zget (zset a i v) k
  = if bool_decide (k = i ∧ 0 ≤ i < Z.of_nat (length a)) then Some v
    else zget a k.
Proof.
  unfold zget, zset.
  destruct (Z.ltb_spec i 0) as [Hi|Hi].
  { rewrite bool_decide_eq_false_2; [done|lia]. }
  destruct (Z.ltb_spec k 0) as [Hk|Hk].
  { rewrite bool_decide_eq_false_2; [done|lia]. }
  case_bool_decide as Hd.
  - destruct Hd as [-> Hlt]. apply list_lookup_insert_eq. lia.
  - destruct (decide (Z.to_nat i = Z.to_nat k)) as [Heq|Hne].
    + assert (k = i) as -> by lia.
      rewrite list_insert_ge; [done|lia].
    + by rewrite list_lookup_insert_ne.
Qed.

Lemma length_zset (a : list Z) (i v : Z) : length (zset a i v) = length a.
Proof. unfold zset. destruct (i <? 0); [done|]. apply length_insert. Qed.

Lemma rd_zset (a : list Z) (i v k : Z) :
  0 ≤ i < Z.of_nat (length a) →
  rd (zset a i v) k = if bool_decide (k = i) then v else rd a k.
Proof.
  intros Hi. unfold rd. rewrite zget_zset.
  case_bool_decide as H1; case_bool_decide as H2; try done.
  - destruct H1. by destruct H2.
  - destruct H1. done.
Qed.

Lemma zget_in_range (a : list Z) (i : Z) :
  0 ≤ i < Z.of_nat (length a) → zget a i = Some (rd a i).
Proof.
  intros Hi. unfold rd, zget. destruct (Z.ltb_spec i 0); [lia|].
  destruct (a !! Z.to_nat i) eqn:Hl; [done|].
  apply lookup_ge_None in Hl. lia.
Qed.

Lemma bits_nonneg (c : Z) : 0 ≤ bits c.
Proof. unfold bits. destruct (has c 1), (has c 2), (has c 4), (has c 8); simpl; lia. Qed.

Lemma total_nonneg (a : list Z) : 0 ≤ total a.
Proof. induction a as [|c a IH]; simpl; [lia|]. pose proof (bits_nonneg c). lia. Qed.

Lemma total_insert (a : list Z) (i : nat) (c v : Z) :
  a !! i = Some c → total (<[i := v]> a) = total a - bits c + bits v.
Proof.
  revert i. induction a as [|c' a IH]; intros [|i] Hl; simpl in *; try done.
  - injection Hl as ->. lia.
  - rewrite (IH i Hl). lia.
Qed.

Lemma total_zset (a : list Z) (i v : Z) :
  0 ≤ i < Z.of_nat (length a) →
  total (zset a i v) = total a - bits (rd a i) + bits v.
Proof.
  intros Hi. pose proof (zget_in_range a i Hi) as Hg.
  unfold zset, zget in *. destruct (Z.ltb_spec i 0); [lia|].
  by apply total_insert.
Qed.

Lemma total_pos (a : list Z) (i : Z) : 0 < bits (rd a i) → 0 < total a.
Proof.
  unfold rd, zget. destruct (i <? 0); [simpl; unfold bits; simpl; lia|].
  generalize (Z.to_nat i). intros n. revert n.
  induction a as [|c a IH]; intros [|n]; simpl; try (unfold bits; simpl; lia).
  - pose proof (total_nonneg a). lia.
  - intros Hb. specialize (IH n Hb). pose proof (bits_nonneg c). lia.
Qed.

(** The inner loop stops at the first cell that is not 0. *)
Lemma skip_finds (points : list Z) (step : Z) (fuel : nat) (p k : Z) :
  1 ≤ k ≤ Z.of_nat fuel →
  (∀ j, 0 < j < k → rd points (p + j * step) = 0) →
  rd points (p + k * step) ≠ 0 →
  skip fuel points p step = Some (p + k * step).
Proof.
  revert p k. induction fuel as [|fuel IH]; intros p k Hk Hmid Hend; [lia|].
  simpl. rewrite truthy_rd, negb_involutive.
  destruct (Z.eqb_spec (rd points (p + step)) 0) as [Hz|Hnz].
  - destruct (decide (k = 1)) as [->|Hk1].
    { rewrite Z.mul_1_l in Hend. done. }
    replace (p + k * step) with (p + step + (k - 1) * step) by lia.
    apply IH; [lia| |].
    + intros j Hj. replace (p + step + j * step) with (p + (j + 1) * step) by lia.
      apply Hmid. lia.
    + by replace (p + step + (k - 1) * step) with (p + k * step) by lia.
  - destruct (decide (k = 1)) as [->|Hk1].
    { by rewrite Z.mul_1_l. }
    destruct Hnz. specialize (Hmid 1 ltac:(lia)). by rewrite Z.mul_1_l in Hmid.
Qed.

(** The scan of a row stops at the first cell that is not 0, or at the
    end of the row. *)
Lemma scan_row_spec (points : list Z) (n : nat) (p end_ : Z) :
  end_ - p ≤ Z.of_nat n → p ≤ end_ →
  p ≤ scan_row n points p end_ ≤ end_
  ∧ (∀ k, p ≤ k < scan_row n points p end_ → rd points k = 0)
  ∧ (scan_row n points p end_ < end_ → rd points (scan_row n points p end_) ≠ 0).
Proof.
  revert p. induction n as [|n IH]; intros p Hn Hp; cbn [scan_row].
  { split; [lia|]. split; intros; lia. }
  rewrite truthy_rd, negb_involutive.
  destruct (Z.ltb_spec p end_) as [Hlt|Hge]; cbn [andb].
  2:{ split; [lia|]. split; intros; lia. }
  destruct (Z.eqb_spec (rd points p) 0) as [Hz|Hnz].
  - destruct (IH (p + 1)) as (H1 & H2 & H3); [lia|lia|].
    split; [lia|]. split; [|done].
    intros k Hk. destruct (decide (k = p)) as [->|Hne]; [done|]. apply H2. lia.
  - split; [lia|]. split; [intros; lia|done].
Qed.

(** ** Cell values *)

Lemma has_self (t : Z) : is_dir t → has t t = true.
Proof. intros Ht. dirs Ht; reflexivity. Qed.

Lemma has_dir_eq (t o : Z) : is_dir t → is_dir o → has t o = true → o = t.
Proof. intros Ht Ho. dirs Ht; dirs Ho; (reflexivity || discriminate). Qed.

Lemma sub_dir_has (c T : Z) : sub c T → is_dir c → has T c = true.
Proof.
  unfold sub. intros Hs Hc.
  destruct Hs as [->|[->|[[-> [->| ->]]|[-> [->| ->]]]]]; try reflexivity.
  - unfold is_dir in Hc. lia.
  - by apply has_self.
Qed.

Lemma type_ten_inn (tl tr bl br : bool) :
  type_of tl tr bl br = 10 → inn4 1 tl tr bl br = true.
Proof. bools; (reflexivity || discriminate). Qed.

Lemma sub_values (c T : Z) :
  sub c T → (T = 0 ∨ is_dir T ∨ T = 5 ∨ T = 10) →
  c = 0 ∨ is_dir c ∨ (c = 5 ∧ T = 5) ∨ (c = 10 ∧ T = 10).
Proof. unfold sub, is_dir. intros Hs HT. intuition (subst; auto). Qed.

Lemma sub_zero (c : Z) : sub c 0 → c = 0.
Proof. unfold sub. intuition congruence. Qed.

(** One turn of the walk in terms of [pair_dir] and [rest_of]. *)
Lemma walk_step_eq (inner : nat) (width1 : Z) (m : DOMMatrix) (tr : tracer)
  (p t : Z) :
  walk_step inner width1 m tr p t
  = match zget (steps_of width1) t with
    | None => None
    | Some step =>
        match skip inner (points tr) p step with
        | None => None
        | Some p' =>
            let c := rd (points tr) p' in
            let o := pair_dir c t in
            let pts := zset (points tr) p' (rest_of c o) in
            Some (mkTracer pts
                    (if negb (truthy (zget pts p')) then count tr - 1
                     else count tr)
                    (pathBuf tr ++ [lineTo m (p' mod width1) (p' / width1)]),
                  p', o)
        end
    end.
Proof.
  unfold walk_step. destruct (zget (steps_of width1) t) as [step|]; [|done].
  destruct (skip inner (points tr) p step) as [p'|]; [|done].
  fold (rd (points tr) p'). unfold pair_dir, rest_of.
  by destruct (negb (rd (points tr) p' =? 5) && negb (rd (points tr) p' =? 10)).
Qed.

(** ** The boundary of the mask and the walk along it

    The mask is any function [ink] that is false outside of the bitmap.
    Its boundary is made of unit edges between a marked and an unmarked
    pixel, directed so that the marked pixel is on the left.  A run is a
    maximal straight piece of the boundary: it leaves a classified point,
    passes points of type 0 and ends at the next classified point. *)

Section Tracing.
Variables (w h : Z) (ink : Z → Z → bool).
Hypothesis ink_inside : ∀ x y, ink x y = true → 0 ≤ x < w ∧ 0 ≤ y < h.
Hypothesis w_pos : 0 ≤ w.
Hypothesis h_pos : 0 ≤ h.

(** The type of the point [(x, y)], and the edges that leave and reach
    it. *)
Definition ctype (x y : Z) : Z :=
  type_of (ink (x - 1) (y - 1)) (ink x (y - 1)) (ink (x - 1) y) (ink x y).
Definition out (t x y : Z) : bool :=
  out4 t (ink (x - 1) (y - 1)) (ink x (y - 1)) (ink (x - 1) y) (ink x y).
Definition inn (t x y : Z) : bool :=
  inn4 t (ink (x - 1) (y - 1)) (ink x (y - 1)) (ink (x - 1) y) (ink x y).

(** The points of the [(w + 1) x (h + 1)] grid. *)
Definition on_grid (x y : Z) : Prop := 0 ≤ x ≤ w ∧ 0 ≤ y ≤ h.

Lemma out_inn (t x y : Z) :
  is_dir t → out t x y = inn t (x + dx t) (y + dy t).
Proof.
  intros Ht. unfold out, inn. dirs Ht; simpl.
  all: repeat match goal with
       | |- andb _ _ = andb _ _ => f_equal
       | |- negb _ = negb _ => f_equal
       | |- ink _ _ = ink _ _ => f_equal; lia
       end.
Qed.

Lemma inn_out (t x y : Z) :
  is_dir t → inn t x y = out t (x - dx t) (y - dy t).
Proof.
  intros Ht. rewrite out_inn by done. f_equal; lia.
Qed.

Lemma ctype_has (t x y : Z) :
  is_dir t → has (ctype x y) t = out t x y && negb (inn t x y).
Proof. apply type_has. Qed.

Lemma has_zero (t : Z) : has 0 t = false.
Proof. reflexivity. Qed.

Lemma ctype_inside (x y : Z) : ctype x y ≠ 0 → on_grid x y.
Proof.
  unfold ctype, on_grid. intros HT.
  destruct (ink (x - 1) (y - 1)) eqn:H1; [apply ink_inside in H1; lia|].
  destruct (ink x (y - 1)) eqn:H2; [apply ink_inside in H2; lia|].
  destruct (ink (x - 1) y) eqn:H3; [apply ink_inside in H3; lia|].
  destruct (ink x y) eqn:H4; [apply ink_inside in H4; lia|].
  by destruct HT.
Qed.

Lemma ctype_values (x y : Z) :
  ctype x y = 0 ∨ is_dir (ctype x y) ∨ ctype x y = 5 ∨ ctype x y = 10.
Proof. apply type_values. Qed.

(** The room ahead of a point in a direction, and behind it. *)
Definition room (t x y : Z) : Z :=
  match t with 8 => w - x | 2 => x | 1 => h - y | 4 => y | _ => 0 end.

Lemma out_room (t x y : Z) : is_dir t → out t x y = true → 1 ≤ room t x y.
Proof.
  intros Ht. unfold out, room. dirs Ht; simpl; intros [H1 _]%andb_true_iff;
    apply ink_inside in H1; lia.
Qed.

Lemma inn_room (t x y : Z) :
  is_dir t → inn t x y = true → 1 ≤ room t (x - dx t) (y - dy t).
Proof. intros Ht Hi. apply out_room; [done|]. by rewrite <- inn_out. Qed.

(** The run of length [k] that leaves [(x, y)] in direction [t]. *)
Definition run (t x y k : Z) : Prop :=
  1 ≤ k ∧ has (ctype x y) t = true
  ∧ (∀ j, 0 < j < k → ctype (x + j * dx t) (y + j * dy t) = 0)
  ∧ ctype (x + k * dx t) (y + k * dy t) ≠ 0
  ∧ inn t (x + k * dx t) (y + k * dy t) = true.

Lemma room_step (t x y : Z) :
  is_dir t → room t (x + dx t) (y + dy t) = room t x y - 1.
Proof. intros Ht. unfold room. dirs Ht; simpl; lia. Qed.

Lemma ahead (n : nat) (t x y : Z) :
  is_dir t → out t x y = true → room t x y ≤ Z.of_nat n →
  ∃ k, 1 ≤ k ≤ room t x y
       ∧ (∀ j, 0 < j < k → ctype (x + j * dx t) (y + j * dy t) = 0)
       ∧ ctype (x + k * dx t) (y + k * dy t) ≠ 0
       ∧ inn t (x + k * dx t) (y + k * dy t) = true.
Proof.
  intros Ht. revert x y. induction n as [|n IH]; intros x y Ho Hr.
  { apply out_room in Ho; [lia|done]. }
  pose proof (out_room _ _ _ Ht Ho) as Hr1.
  assert (Hi : inn t (x + dx t) (y + dy t) = true) by (by rewrite <- out_inn).
  destruct (decide (ctype (x + dx t) (y + dy t) = 0)) as [Hz|Hnz].
  - assert (Ho' : out t (x + dx t) (y + dy t) = true).
    { unfold inn, out in *. unfold ctype in Hz.
      by rewrite <- (type_zero_through t _ _ _ _ Ht Hz). }
    destruct (IH _ _ Ho') as (k & Hk & Hmid & Hend & Hinn).
    { rewrite room_step by done. lia. }
    rewrite room_step in Hk by done.
    exists (k + 1). split; [lia|]. split_and!.
    + intros j Hj. destruct (decide (j = 1)) as [->|Hj1].
      * by rewrite !Z.mul_1_l.
      * specialize (Hmid (j - 1) ltac:(lia)).
        by replace (x + dx t + (j - 1) * dx t) with (x + j * dx t) in Hmid by lia;
        replace (y + dy t + (j - 1) * dy t) with (y + j * dy t) in Hmid by lia.
    + by replace (x + (k + 1) * dx t) with (x + dx t + k * dx t) by lia;
         replace (y + (k + 1) * dy t) with (y + dy t + k * dy t) by lia.
    + by replace (x + (k + 1) * dx t) with (x + dx t + k * dx t) by lia;
         replace (y + (k + 1) * dy t) with (y + dy t + k * dy t) by lia.
  - exists 1. split; [lia|]. split_and!.
    + intros j Hj. lia.
    + by rewrite !Z.mul_1_l.
    + by rewrite !Z.mul_1_l.
Qed.

(** Every direction of a point type starts a run, and every edge that
    reaches a classified point ends one; runs are determined by either
    end. *)
Lemma run_fwd (t x y : Z) :
  is_dir t → has (ctype x y) t = true → ∃ k, run t x y k ∧ k ≤ room t x y.
Proof.
  intros Ht Hh. pose proof Hh as Hh'.
  rewrite ctype_has in Hh' by done. apply andb_true_iff in Hh' as [Ho _].
  destruct (ahead (Z.to_nat (room t x y)) t x y Ht Ho) as (k & Hk & ? & ? & ?).
  { pose proof (out_room _ _ _ Ht Ho). lia. }
  exists k. unfold run. split; [|lia]. split_and!; auto; lia.
Qed.

Definition room_b (t x y : Z) : Z :=
  match t with 8 => x | 2 => w - x | 1 => y | 4 => h - y | _ => 0 end.

Lemma inn_room_b (t x y : Z) : is_dir t → inn t x y = true → 1 ≤ room_b t x y.
Proof.
  intros Ht. unfold inn, room_b. dirs Ht; simpl; intros [H1 _]%andb_true_iff;
    apply ink_inside in H1; lia.
Qed.

Lemma behind (n : nat) (t x y : Z) :
  is_dir t → inn t x y = true → room_b t x y ≤ Z.of_nat n →
  ∃ k, 1 ≤ k
       ∧ has (ctype (x - k * dx t) (y - k * dy t)) t = true
       ∧ (∀ j, 0 < j < k → ctype (x - j * dx t) (y - j * dy t) = 0).
Proof.
  intros Ht. revert x y. induction n as [|n IH]; intros x y Hi Hr.
  { apply inn_room_b in Hi; [lia|done]. }
  pose proof (inn_room_b _ _ _ Ht Hi) as Hr1.
  assert (Ho : out t (x - dx t) (y - dy t) = true) by (by rewrite <- inn_out).
  destruct (inn t (x - dx t) (y - dy t)) eqn:Hi'.
  - assert (Hz : ctype (x - dx t) (y - dy t) = 0).
    { by apply (through_type_zero t). }
    destruct (IH _ _ Hi') as (k & Hk & Hsrc & Hmid).
    { unfold room_b in *. dirs Ht; simpl in *; lia. }
    exists (k + 1). split; [lia|]. split.
    + by replace (x - (k + 1) * dx t) with (x - dx t - k * dx t) by lia;
         replace (y - (k + 1) * dy t) with (y - dy t - k * dy t) by lia.
    + intros j Hj. destruct (decide (j = 1)) as [->|Hj1].
      * by rewrite !Z.mul_1_l.
      * specialize (Hmid (j - 1) ltac:(lia)).
        by replace (x - dx t - (j - 1) * dx t) with (x - j * dx t) in Hmid by lia;
        replace (y - dy t - (j - 1) * dy t) with (y - j * dy t) in Hmid by lia.
  - exists 1. split; [lia|]. split.
    + rewrite !Z.mul_1_l, ctype_has by done. by rewrite Ho, Hi'.
    + intros j Hj. lia.
Qed.

Lemma run_bwd (t x y : Z) :
  is_dir t → inn t x y = true → ctype x y ≠ 0 →
  ∃ sx sy k, run t sx sy k ∧ sx + k * dx t = x ∧ sy + k * dy t = y.
Proof.
  intros Ht Hi Hnz.
  destruct (behind (Z.to_nat (room_b t x y)) t x y Ht Hi) as (k & Hk & Hsrc & Hmid).
  { pose proof (inn_room_b _ _ _ Ht Hi). lia. }
  exists (x - k * dx t), (y - k * dy t), k.
  split; [|lia]. unfold run. split_and!; [done|done| | |].
  - intros j Hj. specialize (Hmid (k - j) ltac:(lia)).
    by replace (x - k * dx t + j * dx t) with (x - (k - j) * dx t) by lia;
       replace (y - k * dy t + j * dy t) with (y - (k - j) * dy t) by lia.
  - by replace (x - k * dx t + k * dx t) with x by lia;
       replace (y - k * dy t + k * dy t) with y by lia.
  - by replace (x - k * dx t + k * dx t) with x by lia;
       replace (y - k * dy t + k * dy t) with y by lia.
Qed.

Lemma has_nonzero (c t : Z) : has c t = true → c ≠ 0.
Proof. intros Hh ->. by rewrite has_zero in Hh. Qed.

Lemma run_det_fwd (t x y k k' : Z) : run t x y k → run t x y k' → k = k'.
Proof.
  intros (Hk & _ & Hmid & Hend & _) (Hk' & _ & Hmid' & Hend' & _).
  destruct (Z.lt_trichotomy k k') as [Hlt|[->|Hlt]]; [|done|].
  - destruct Hend. apply Hmid'. lia.
  - destruct Hend'. apply Hmid. lia.
Qed.

Lemma dir_move (t k k' x x' y y' : Z) :
  is_dir t → x + k * dx t = x' + k' * dx t → y + k * dy t = y' + k' * dy t →
  x = x' + (k' - k) * dx t ∧ y = y' + (k' - k) * dy t.
Proof. intros Ht. dirs Ht; simpl; lia. Qed.

Lemma dir_same (t k x x' y y' : Z) :
  is_dir t → x + k * dx t = x' + k * dx t → y + k * dy t = y' + k * dy t →
  x = x' ∧ y = y'.
Proof. intros Ht. dirs Ht; simpl; lia. Qed.

Lemma run_det_bwd (t x y k x' y' k' : Z) :
  is_dir t → run t x y k → run t x' y' k' →
  x + k * dx t = x' + k' * dx t → y + k * dy t = y' + k' * dy t →
  x = x' ∧ y = y' ∧ k = k'.
Proof.
  intros Ht (Hk & Hs & Hmid & _) (Hk' & Hs' & Hmid' & _) Hx Hy.
  destruct (Z.lt_trichotomy k k') as [Hlt|[->|Hlt]].
  - destruct (dir_move t k k' x x' y y' Ht Hx Hy) as [-> ->].
    apply has_nonzero in Hs. destruct Hs. apply Hmid'. lia.
  - destruct (dir_same t k' x x' y y' Ht Hx Hy) as [-> ->]. done.
  - symmetry in Hx, Hy.
    destruct (dir_move t k' k x' x y' y Ht Hx Hy) as [-> ->].
    apply has_nonzero in Hs'. destruct Hs'. apply Hmid. lia.
Qed.

Lemma run_inside (t x y k : Z) :
  is_dir t → run t x y k →
  on_grid x y ∧ on_grid (x + k * dx t) (y + k * dy t) ∧ k ≤ w + h.
Proof.
  intros Ht (Hk & Hs & _ & Hend & _).
  apply has_nonzero, ctype_inside in Hs. apply ctype_inside in Hend.
  split; [done|]. split; [done|]. unfold on_grid in *. dirs Ht; simpl in *; lia.
Qed.

Lemma run_target_ne (t x y k : Z) :
  is_dir t → run t x y k → (x + k * dx t, y + k * dy t) ≠ (x, y).
Proof. intros Ht (Hk & _). dirs Ht; simpl; intros [= ? ?]; lia. Qed.

(** The index of the point [(x, y)] in [points]. *)
Definition idx (x y : Z) : Z := y * (w + 1) + x.

Lemma idx_range (x y : Z) : on_grid x y → 0 ≤ idx x y < (w + 1) * (h + 1).
Proof. unfold on_grid, idx. nia. Qed.

Lemma idx_inj (x y x' y' : Z) :
  on_grid x y → on_grid x' y' → idx x y = idx x' y' → x = x' ∧ y = y'.
Proof.
  unfold on_grid, idx. intros Hi Hi' He.
  assert (y = y'); [|subst; lia].
  destruct (Z.lt_trichotomy y y') as [Hlt|[?|Hlt]]; [|done|].
  - assert ((y + 1) * (w + 1) ≤ y' * (w + 1)) by (apply Z.mul_le_mono_nonneg_r; lia).
    lia.
  - assert ((y' + 1) * (w + 1) ≤ y * (w + 1)) by (apply Z.mul_le_mono_nonneg_r; lia).
    lia.
Qed.

Lemma idx_mod (x y : Z) : on_grid x y → idx x y mod (w + 1) = x.
Proof.
  unfold on_grid, idx. intros Hi. rewrite Z.add_comm, Z.mod_add by lia.
  apply Z.mod_small. lia.
Qed.

Lemma idx_div (x y : Z) : on_grid x y → idx x y / (w + 1) = y.
Proof.
  unfold on_grid, idx. intros Hi. rewrite Z.add_comm, Z.div_add by lia.
  rewrite Z.div_small by lia. lia.
Qed.

Lemma idx_ray (t x y j : Z) :
  idx (x + j * dx t) (y + j * dy t) = idx x y + j * (dx t + (w + 1) * dy t).
Proof. unfold idx. lia. Qed.

Lemma steps_dir (t : Z) :
  is_dir t → zget (steps_of (w + 1)) t = Some (dx t + (w + 1) * dy t).
Proof. intros Ht. dirs Ht; cbv [zget steps_of]; simpl; f_equal; lia. Qed.

(** *** The invariant of the walk

    A cell holds the direction paired with a run that reaches it exactly
    when that run has not been walked.  Between two contours this is the
    case when the cell at the start of the run still holds the direction
    of the run ([balanced]).  During a walk two runs are exceptions: the
    one the walk is about to take, whose direction has left its cell on
    arrival, and the one the contour started with, whose direction stays
    in its cell until the walk is back ([walking]). *)
Definition same_arc (x y t x' y' t' : Z) : bool :=
  bool_decide (x = x' ∧ y = y' ∧ t = t').

Definition covered (cur : Z → Z → Z) : Prop :=
  ∀ x y, on_grid x y → sub (cur x y) (ctype x y).

(** The cells with the walk at [(px, py)] heading [t] and the contour
    started at [(x0, y0)] heading [t0]. *)
Definition balance (cur : Z → Z → Z) (px py t x0 y0 t0 : Z) : Prop :=
  ∀ t' x y k, is_dir t' → run t' x y k →
    has (cur (x + k * dx t') (y + k * dy t'))
        (pair_dir (ctype (x + k * dx t') (y + k * dy t')) t')
    = xorb (xorb (has (cur x y) t') (same_arc x y t' px py t)) (same_arc x y t' x0 y0 t0).

Definition balanced (cur : Z → Z → Z) : Prop :=
  covered cur ∧
  ∀ t' x y k, is_dir t' → run t' x y k →
    has (cur (x + k * dx t') (y + k * dy t'))
        (pair_dir (ctype (x + k * dx t') (y + k * dy t')) t')
    = has (cur x y) t'.

Definition walking (cur : Z → Z → Z) (px py t x0 y0 t0 : Z) : Prop :=
  covered cur ∧ is_dir t ∧ has (ctype px py) t = true ∧ on_grid x0 y0
  ∧ is_dir t0 ∧ cur x0 y0 = t0
  ∧ has (cur px py) t = same_arc px py t x0 y0 t0
  ∧ balance cur px py t x0 y0 t0.

Lemma balanced_iff (cur : Z → Z → Z) (x0 y0 t0 : Z) :
  balanced cur ↔ covered cur ∧ balance cur x0 y0 t0 x0 y0 t0.
Proof.
  unfold balanced, balance. split; intros [Hc Hb]; (split; [done|]);
    intros t' x y k Ht' Hr; specialize (Hb t' x y k Ht' Hr); rewrite Hb;
    by destruct (has (cur x y) t'), (same_arc x y t' x0 y0 t0).
Qed.

Lemma balanced_start (cur : Z → Z → Z) (x0 y0 : Z) :
  balanced cur → on_grid x0 y0 → is_dir (cur x0 y0) →
  walking cur x0 y0 (cur x0 y0) x0 y0 (cur x0 y0).
Proof.
  intros HJ Hin Hd. pose proof HJ as [Hc _].
  apply (balanced_iff cur x0 y0 (cur x0 y0)) in HJ as [_ Hb].
  unfold walking. split_and!; try done.
  - apply sub_dir_has; [by apply Hc|done].
  - rewrite has_self by done. unfold same_arc. by rewrite bool_decide_eq_true_2.
Qed.

(** One turn of the walk keeps the invariant; back at the start the cells
    are balanced again. *)
Lemma walking_step (cur cur' : Z → Z → Z) (px py t x0 y0 t0 k : Z) :
  walking cur px py t x0 y0 t0 → run t px py k →
  let qx := px + k * dx t in
  let qy := py + k * dy t in
  let c := cur qx qy in
  let o := pair_dir c t in
  let c' := rest_of c o in
  (∀ x y, on_grid x y →
          cur' x y = if bool_decide (x = qx ∧ y = qy) then c' else cur x y) →
  c ≠ 0 ∧ is_dir o ∧ bits c' = bits c - 1
  ∧ ((qx, qy) ≠ (x0, y0) → walking cur' qx qy o x0 y0 t0)
  ∧ ((qx, qy) = (x0, y0) → balanced cur').
Proof.
  intros (Hcov & Ht & Hsrc & Hin0 & Ht0 & Hcur0 & Hhead & Hbal) Hrun.
  intros qx qy c o c' Hupd.
  pose proof (run_inside t px py k Ht Hrun) as (HinP & HinQ & _).
  pose proof (run_target_ne t px py k Ht Hrun) as HneP.
  fold qx qy in HinQ, HneP.
  assert (HneP' : (px, py) ≠ (qx, qy)) by (intros Heq; by destruct HneP).
  pose proof Hrun as (Hk & _ & _ & HTq & Hinq). fold qx qy in HTq, Hinq.
  destruct (pair_out t _ _ _ _ Ht Hinq HTq) as [HoT HhasT].
  fold (ctype qx qy) in HoT, HhasT.
  assert (Hhas : has c (pair_dir (ctype qx qy) t) = true).
  { unfold c, qx, qy. rewrite (Hbal t px py k Ht Hrun), Hhead.
    unfold same_arc at 2. rewrite bool_decide_eq_true_2 by done.
    by destruct (same_arc px py t px py t), (same_arc px py t x0 y0 t0). }
  destruct (arrival c (ctype qx qy) t (Hcov _ _ HinQ) (ctype_values qx qy)
              Ht HoT Hhas) as (Ho & Hsub' & Hgone & Hother & Hbits).
  fold o in Ho, Hgone, Hother. fold c' in Hsub', Hgone, Hother, Hbits.
  rewrite <- Ho in HoT, HhasT, Hhas.
  assert (HcurQ : cur' qx qy = c').
  { rewrite Hupd by done. by rewrite bool_decide_eq_true_2. }
  assert (Hcur_ne : ∀ x y, on_grid x y → (x, y) ≠ (qx, qy) → cur' x y = cur x y).
  { intros x y Hin Hne. rewrite Hupd by done.
    rewrite bool_decide_eq_false_2; [done|]. intros [-> ->]. by destruct Hne. }
  assert (Hcov' : covered cur').
  { intros x y Hin. destruct (decide ((x, y) = (qx, qy))) as [[= -> ->]|Hne].
    - by rewrite HcurQ.
    - rewrite Hcur_ne by done. by apply Hcov. }
  (* the cells after the step, with the walk at (qx, qy) heading o *)
  assert (Hbal' : balance cur' qx qy o x0 y0 t0).
  { intros t' x y k' Ht' Hr.
    pose proof (run_inside t' x y k' Ht' Hr) as (HinS & HinR & _).
    pose proof (run_target_ne t' x y k' Ht' Hr) as HneS.
    pose proof Hr as (_ & _ & _ & HTr & Hinr).
    destruct (pair_out t' _ _ _ _ Ht' Hinr HTr) as [HoR _].
    fold (ctype (x + k' * dx t') (y + k' * dy t')) in HoR.
    specialize (Hbal t' x y k' Ht' Hr).
    set (rx := x + k' * dx t') in *. set (ry := y + k' * dy t') in *.
    destruct (decide (x = px ∧ y = py ∧ t' = t)) as [(-> & -> & ->)|Hnhead].
    - (* the run that has just been walked *)
      assert (k' = k) as -> by (by eapply run_det_fwd).
      subst rx ry. fold qx qy in Hbal |- *.
      rewrite HcurQ. rewrite <- Ho. rewrite Hgone.
      rewrite (Hcur_ne px py HinP HneP').
      fold c in Hbal. rewrite <- Ho, Hhas in Hbal.
      unfold same_arc in *. rewrite bool_decide_eq_true_2 in Hbal by done.
      rewrite (bool_decide_eq_false_2 (px = qx ∧ _)).
      2:{ intros (Hx & Hy & _). destruct HneP'. by f_equal. }
      by destruct (has (cur px py) t), (bool_decide (px = x0 ∧ _)).
    - unfold same_arc in Hbal at 1. rewrite bool_decide_eq_false_2 in Hbal by done.
      (* the cell of the target keeps the bit of this run *)
      assert (HL : has (cur' rx ry) (pair_dir (ctype rx ry) t')
                   = has (cur rx ry) (pair_dir (ctype rx ry) t')).
      { destruct (decide ((rx, ry) = (qx, qy))) as [[= Hx Hy]|Hne].
        - rewrite Hx, Hy, HcurQ. fold c. apply Hother.
          + by rewrite <- Hx, <- Hy.
          + rewrite Ho. intros Hp. rewrite Hx, Hy in Hinr.
            apply (pair_inj t' t) in Hp; [|done..]. subst t'.
            destruct (run_det_bwd t x y k' px py k Ht Hr Hrun Hx Hy)
              as (-> & -> & ->). by destruct Hnhead.
        - by rewrite Hcur_ne. }
      rewrite HL, Hbal.
      destruct (decide (x = qx ∧ y = qy ∧ t' = o)) as [(-> & -> & ->)|Hnq].
      + rewrite HcurQ, Hgone. fold c. rewrite Hhas.
        unfold same_arc at 2. rewrite bool_decide_eq_true_2 by done. done.
      + unfold same_arc at 2. rewrite (bool_decide_eq_false_2 _ Hnq).
        destruct (decide ((x, y) = (qx, qy))) as [[= -> ->]|Hne].
        * rewrite HcurQ. fold c. rewrite Hother; [done|done|].
          intros ->. by destruct Hnq.
        * by rewrite Hcur_ne. }
  split; [by apply has_nonzero in Hhas|]. split; [done|]. split; [done|].
  split.
  - intros Hne0. unfold walking. split_and!; try done.
    + rewrite Hcur_ne; [done|done|]. intros Heq. by destruct Hne0.
    + rewrite HcurQ, Hgone. unfold same_arc. rewrite bool_decide_eq_false_2; [done|].
      intros (Hx & Hy & _). destruct Hne0. by f_equal.
  - intros [= Hx Hy]. apply (balanced_iff cur' x0 y0 t0). split; [done|].
    assert (o = t0) as <-.
    { apply has_dir_eq; [done|done|]. rewrite <- Hcur0, <- Hx, <- Hy. done. }
    clearbody qx qy. by subst qx qy.
Qed.

Variables (m : DOMMatrix) (inner : nat).
Hypothesis inner_big : w + h ≤ Z.of_nat inner.

(** *** The loops of the tracing *)

(** The array read as a function of the point. *)
Definition cur_of (pts : list Z) (x y : Z) : Z := rd pts (idx x y).

Definition sized (pts : list Z) : Prop :=
  Z.of_nat (length pts) = (w + 1) * (h + 1).

Lemma on_grid_between (t x y k j : Z) :
  is_dir t → on_grid x y → on_grid (x + k * dx t) (y + k * dy t) → 0 < j < k →
  on_grid (x + j * dx t) (y + j * dy t).
Proof. unfold on_grid. intros Ht. dirs Ht; simpl; lia. Qed.

(** A contour never starts at a crossing that has not been visited: one
    of its runs ends, or starts, in a row that the scan has found empty. *)
Lemma start_dir (cur : Z → Z → Z) (x0 i : Z) :
  balanced cur → on_grid x0 i → x0 < w → cur x0 i ≠ 0 →
  (∀ x y, 0 ≤ x < w → 0 ≤ y < i → cur x y = 0) →
  is_dir (cur x0 i).
Proof.
  intros [Hcov Hbal] Hin Hx Hnz Hzero.
  destruct (sub_values _ _ (Hcov _ _ Hin) (ctype_values x0 i))
    as [Hc|[Hc|[[Hc HT]|[Hc HT]]]]; [done|done| |].
  - (* a crossing of type 5: the run upwards ends in an earlier row *)
    assert (Hup : has (ctype x0 i) 4 = true) by (by rewrite HT).
    assert (Hd : is_dir 4) by (unfold is_dir; lia).
    destruct (run_fwd 4 x0 i Hd Hup) as (k & Hr & _).
    pose proof (run_inside 4 x0 i k Hd Hr) as (_ & Hq & _).
    specialize (Hbal 4 x0 i k Hd Hr). rewrite Hc in Hbal.
    destruct Hr as (Hk & _). simpl in Hbal, Hq.
    rewrite Hzero in Hbal; [by rewrite has_zero in Hbal| |];
      unfold on_grid in *; lia.
  - (* a crossing of type 10: the run that comes down starts in an earlier row *)
    assert (Hi : inn 1 x0 i = true) by (by apply type_ten_inn).
    assert (Hd : is_dir 1) by (unfold is_dir; lia).
    destruct (run_bwd 1 x0 i Hd Hi) as (sx & sy & k & Hr & Hsx & Hsy).
    { by rewrite HT. }
    pose proof (run_inside 1 sx sy k Hd Hr) as (Hs & _ & _).
    specialize (Hbal 1 sx sy k Hd Hr). rewrite Hsx, Hsy, Hc, HT in Hbal.
    destruct Hr as (Hk & _). simpl in Hsx, Hsy.
    rewrite Hzero in Hbal; [by rewrite has_zero in Hbal| |];
      unfold on_grid in *; lia.
Qed.

Lemma walk_step_ok (tr : tracer) (px py t x0 y0 t0 : Z) :
  sized (points tr) →
  walking (cur_of (points tr)) px py t x0 y0 t0 →
  ∃ tr' qx qy o,
    walk_step inner (w + 1) m tr (idx px py) t = Some (tr', idx qx qy, o)
    ∧ on_grid qx qy ∧ sized (points tr')
    ∧ total (points tr') = total (points tr) - 1
    ∧ (∀ k, rd (points tr) k = 0 → rd (points tr') k = 0)
    ∧ ((qx, qy) ≠ (x0, y0) → walking (cur_of (points tr')) qx qy o x0 y0 t0)
    ∧ ((qx, qy) = (x0, y0) → balanced (cur_of (points tr'))).
Proof.
  intros Hsz HK. pose proof HK as (Hcov & Ht & Hsrc & _).
  destruct (run_fwd t px py Ht Hsrc) as (k & Hr & _).
  pose proof (run_inside t px py k Ht Hr) as (HinP & HinQ & Hkb).
  set (qx := px + k * dx t) in *. set (qy := py + k * dy t) in *.
  set (c := cur_of (points tr) qx qy).
  set (o := pair_dir c t).
  set (pts := zset (points tr) (idx qx qy) (rest_of c o)).
  pose proof (idx_range qx qy HinQ) as Hrange.
  assert (Hupd : ∀ x y, on_grid x y →
            cur_of pts x y = if bool_decide (x = qx ∧ y = qy) then rest_of c o
                             else cur_of (points tr) x y).
  { intros x y Hin. unfold cur_of, pts. rewrite rd_zset by (rewrite Hsz; lia).
    case_bool_decide as H1; case_bool_decide as H2; try done.
    - destruct H2. by apply (idx_inj).
    - destruct H2 as [-> ->]. done. }
  destruct (walking_step _ (cur_of pts) _ _ _ _ _ _ k HK Hr Hupd)
    as (Hc & Ho & Hbits & Hcont & Hclose).
  fold qx qy in Hc, Ho, Hbits, Hcont, Hclose.
  fold c in Hc, Ho, Hbits, Hcont. fold o in Ho, Hbits, Hcont.
  pose proof Hr as (Hk & _ & Hmid & _).
  exists (mkTracer pts
            (if negb (truthy (zget pts (idx qx qy))) then count tr - 1
             else count tr)
            (pathBuf tr ++ [lineTo m qx qy])), qx, qy, o.
  split_and!; try done.
  - rewrite walk_step_eq, (steps_dir t Ht).
    rewrite (skip_finds (points tr) _ inner (idx px py) k).
    + rewrite <- idx_ray. fold qx qy. cbn zeta.
      change (rd (points tr) (idx qx qy)) with c. fold o. fold pts.
      by rewrite (idx_mod qx qy HinQ),
                 (idx_div qx qy HinQ).
    + lia.
    + intros j Hj. rewrite <- idx_ray.
      apply sub_zero. rewrite <- (Hmid j Hj). apply Hcov.
      by apply (on_grid_between t px py k j).
    + by rewrite <- idx_ray.
  - unfold sized, pts. cbn [points]. by rewrite length_zset.
  - cbn [points]. unfold pts. rewrite total_zset by (rewrite Hsz; lia).
    change (rd (points tr) (idx qx qy)) with c. lia.
  - intros j Hj. cbn [points]. unfold pts. rewrite rd_zset by (rewrite Hsz; lia).
    case_bool_decide as Heq; [|done]. subst j. by destruct Hc.
Qed.

(** The walk comes back to its start before the directions of the array
    are used up. *)
Lemma walk_ok (n : nat) (tr : tracer) (px py t x0 y0 t0 : Z) :
  sized (points tr) →
  walking (cur_of (points tr)) px py t x0 y0 t0 →
  total (points tr) ≤ Z.of_nat n →
  ∃ tr',
    walk inner n (w + 1) m (idx x0 y0) tr (idx px py) t = Some tr'
    ∧ balanced (cur_of (points tr')) ∧ sized (points tr')
    ∧ total (points tr') < total (points tr)
    ∧ (∀ k, rd (points tr) k = 0 → rd (points tr') k = 0).
Proof.
  revert tr px py t. induction n as [|n IH]; intros tr px py t Hsz HK Hn.
  { destruct (walk_step_ok tr px py t x0 y0 t0 Hsz HK)
      as (tr' & _ & _ & _ & _ & _ & _ & Htot & _).
    pose proof (total_nonneg (points tr')). lia. }
  destruct (walk_step_ok tr px py t x0 y0 t0 Hsz HK)
    as (tr' & qx & qy & o & Hstep & HinQ & Hsz' & Htot & Hzero & Hcont & Hclose).
  pose proof HK as (_ & _ & _ & Hin0 & _).
  cbn [walk]. rewrite Hstep.
  destruct (Z.eqb_spec (idx x0 y0) (idx qx qy)) as [Heq|Hne]; cbn [negb].
  - apply (idx_inj) in Heq as [-> ->]; [|done..].
    exists tr'. split_and!; [done|by apply Hclose|done|lia|done].
  - destruct (IH tr' qx qy o Hsz') as (tr'' & Hw & HJ & Hsz'' & Htot' & Hzero').
    + apply Hcont. intros [= -> ->]. by destruct Hne.
    + lia.
    + exists tr''. split_and!; [done|done|done|lia|auto].
Qed.

(** The loop over the rows ends: every turn goes to the next row or
    walks a contour, which removes directions from the array. *)
Lemma trace_terminates (n : nat) (i : Z) (tr : tracer) :
  0 ≤ i → sized (points tr) → balanced (cur_of (points tr)) →
  (∀ x y, 0 ≤ x < w → 0 ≤ y < i → cur_of (points tr) x y = 0) →
  total (points tr) ≤ Z.of_nat inner →
  total (points tr) + Z.max 0 (h + 1 - i) < Z.of_nat n →
  ∃ tr', trace inner n w h m i tr = Some tr'.
Proof.
  revert i tr. induction n as [|n IH]; intros i tr Hi Hsz HJ Hzero Hinner Hn.
  { pose proof (total_nonneg (points tr)). lia. }
  cbn [trace].
  destruct (negb (count tr =? 0) && (i <=? h)) eqn:Hcond; [|by eexists].
  apply andb_true_iff in Hcond as [_ Hih%Z.leb_le].
  replace (i * (w + 1) + w - i * (w + 1)) with w by lia.
  destruct (scan_row_spec (points tr) (Z.to_nat w) (i * (w + 1)) (i * (w + 1) + w))
    as (Hp & Hbefore & Hat); [lia|lia|].
  set (p := scan_row (Z.to_nat w) (points tr) (i * (w + 1)) (i * (w + 1) + w)) in *.
  destruct (Z.eqb_spec p (i * (w + 1) + w)) as [Hend|Hfound].
  - apply IH; [lia|done|done| |done|lia].
    intros x y Hx Hy. destruct (decide (y = i)) as [->|Hne].
    + apply Hbefore. unfold idx. lia.
    + apply Hzero; lia.
  - set (x0 := p - i * (w + 1)).
    assert (Hp0 : p = idx x0 i) by (unfold idx, x0; lia).
    assert (Hin0 : on_grid x0 i) by (unfold on_grid, x0; lia).
    assert (Hnz : cur_of (points tr) x0 i ≠ 0).
    { unfold cur_of. rewrite <- Hp0. apply Hat. lia. }
    assert (Hdir : is_dir (cur_of (points tr) x0 i)).
    { apply start_dir; [done|done|unfold x0; lia|done|done]. }
    cbn [points]. fold (rd (points tr) p). rewrite Hp0.
    fold (cur_of (points tr) x0 i).
    destruct (walk_ok inner
                (mkTracer (points tr) (count tr)
                   (pathBuf tr ++ [moveTo m (idx x0 i mod (w + 1)) i]))
                x0 i (cur_of (points tr) x0 i) x0 i (cur_of (points tr) x0 i))
      as (tr' & Hw & HJ' & Hsz' & Htot & Hzero'); [done| |done|].
    { cbn [points]. by apply balanced_start. }
    rewrite Hw. rewrite Z.sub_add.
    cbn [points] in Htot, Hzero'.
    apply IH; [done|done|done| |lia|lia].
    intros x y Hx Hy. apply Hzero'. by apply Hzero.
Qed.

End Tracing.

(** ** The classification of the points *)

Lemma for_loop_ind {A : Type} (P : Z → A → Prop) (body : Z → A → A)
  (n : nat) (j : Z) (s : A) :
  P j s →
  (∀ i s, j ≤ i < j + Z.of_nat n → P i s → P (i + 1) (body i s)) →
  P (j + Z.of_nat n) (for_loop n j body s).
Proof.
  revert j s. induction n as [|n IH]; intros j s H0 Hstep.
  { by rewrite Z.add_0_r. }
  cbn [for_loop]. replace (j + Z.of_nat (S n)) with (j + 1 + Z.of_nat n) by lia.
  apply IH.
  - apply Hstep; [lia|done].
  - intros i s' Hi. apply Hstep. lia.
Qed.

Lemma for_loop_sim {A B : Type} (R : Z → A → B → Prop)
  (f : Z → A → A) (g : Z → B → B) (n : nat) (j : Z) (s : A) (t : B) :
  R j s t →
  (∀ i s t, j ≤ i < j + Z.of_nat n → R i s t → R (i + 1) (f i s) (g i t)) →
  R (j + Z.of_nat n) (for_loop n j f s) (for_loop n j g t).
Proof.
  revert j s t. induction n as [|n IH]; intros j s t H0 Hstep.
  { by rewrite Z.add_0_r. }
  cbn [for_loop]. replace (j + Z.of_nat (S n)) with (j + 1 + Z.of_nat n) by lia.
  apply IH.
  - apply Hstep; [lia|done].
  - intros i s' t' Hi. apply Hstep. lia.
Qed.

Lemma for_loop_snoc {A : Type} (body : Z → A → A) (n : nat) (j : Z) (s : A) :
  for_loop (S n) j body s = body (j + Z.of_nat n) (for_loop n j body s).
Proof.
  revert j s. induction n as [|n IH]; intros j s.
  { cbn. by rewrite Z.add_0_r. }
  cbn [for_loop] in *. rewrite IH. f_equal. lia.
Qed.

Lemma put_cond (st : list Z * Z) (k T val : Z) (cond : bool) :
  cond = negb (T =? 0) → (cond = true → val = T) →
  (if cond then mark st k val else st) = put st k T.
Proof.
  unfold put. intros -> Hv. destruct (T =? 0); simpl in *; [done|].
  by rewrite Hv.
Qed.

Section Classify.
Variables (data : list Z) (w h : Z).
Hypothesis w_pos : 1 ≤ w.
Hypothesis h_pos : 1 ≤ h.
Hypothesis line_ge : w ≤ lineSize_of w.
Hypothesis data_len : Z.of_nat (length data) = lineSize_of w * h.
Hypothesis data_bin : binary data.

(** The length of a row of the decoded mask. *)
Definition stride : Z := lineSize_of w.
(** The mask of the decoded data. *)
Definition ink (x y : Z) : bool := pix data w h x y.

Lemma ink_inside (x y : Z) : ink x y = true → 0 ≤ x < w ∧ 0 ≤ y < h.
Proof. unfold ink, pix. intros Hi. repeat (apply andb_true_iff in Hi as [Hi ?]). lia. Qed.

Lemma ink_outside (x y : Z) : ¬ (0 ≤ x < w ∧ 0 ≤ y < h) → ink x y = false.
Proof.
  intros Hn. destruct (ink x y) eqn:Hi; [|done]. by apply ink_inside in Hi.
Qed.

Lemma pos_range (x y : Z) :
  0 ≤ x < w → 0 ≤ y < h → 0 ≤ y * stride + x < Z.of_nat (length data).
Proof. unfold stride. rewrite data_len. nia. Qed.

Lemma data_cell (x y : Z) :
  0 ≤ x < w → 0 ≤ y < h →
  zget data (y * stride + x) = Some (if ink x y then 255 else 0).
Proof.
  intros Hx Hy. pose proof (pos_range x y Hx Hy) as Hr.
  rewrite (zget_in_range _ _ Hr). f_equal. unfold ink, pix. fold stride.
  rewrite (zget_in_range _ _ Hr).
  assert (Hb : rd data (y * stride + x) = 0 ∨ rd data (y * stride + x) = 255).
  { pose proof (zget_in_range _ _ Hr) as Hg. unfold zget in Hg.
    destruct (Z.ltb_spec (y * stride + x) 0); [lia|].
    unfold binary in data_bin. rewrite Forall_lookup in data_bin.
    by apply (data_bin _ _ Hg). }
  destruct (Z.leb_spec 0 x), (Z.ltb_spec x w), (Z.leb_spec 0 y), (Z.ltb_spec y h);
    try lia.
  destruct Hb as [-> | ->]; reflexivity.
Qed.

Ltac ink_out :=
  repeat match goal with
         | |- context [ink ?a ?b] => rewrite (ink_outside a b) by lia
         end.

(** What the classification has to do at the point [(x, y)], and in the
    row [y]. *)
Definition row_body (y x : Z) (st : list Z * Z) : list Z * Z :=
  put st (y * (w + 1) + x) (ctype ink x y).

Definition row_spec (y : Z) (st : list Z * Z) : list Z * Z :=
  for_loop (Z.to_nat (w + 1)) 0 (row_body y) st.

Lemma row_split (y : Z) (st : list Z * Z) :
  row_spec y st
  = row_body y w (for_loop (Z.to_nat (w - 1)) 1 (row_body y) (row_body y 0 st)).
Proof.
  unfold row_spec.
  replace (Z.to_nat (w + 1)) with (S (S (Z.to_nat (w - 1)))) by lia.
  rewrite for_loop_snoc. cbn [for_loop]. f_equal. lia.
Qed.

Lemma data_at (e x y : Z) :
  e = y * stride + x → 0 ≤ x < w → 0 ≤ y < h →
  zget data e = Some (if ink x y then 255 else 0).
Proof. intros ->. apply data_cell. Qed.

Ltac solve_put :=
  unfold ctype; ink_out;
  repeat match goal with
         | |- context [ink ?a ?b] => destruct (ink a b)
         | H : context [ink ?a ?b] |- _ => destruct (ink a b)
         end;
  try reflexivity; try discriminate.

(** The three pieces of code that classify a row do what [row_spec]
    says. *)
Lemma first_row_spec (st : list Z * Z) : first_row data w st = row_spec 0 st.
Proof.
  rewrite row_split. unfold first_row.
  set (n := Z.to_nat (w - 1)).
  assert (H0 : (if strict_ne (zget data 0) (Some 0) then mark st 0 1 else st)
               = row_body 0 0 st).
  { unfold row_body. rewrite (data_at 0 0 0) by lia.
    apply put_cond; [|intros Hc]; solve_put. }
  rewrite H0.
  pose proof (for_loop_sim
    (λ j (s : list Z * Z * Z) (t : list Z * Z), s.1 = t ∧ s.2 = j - 1)
    (λ j '(st, pos),
       (if strict_ne (zget data pos) (zget data (pos + 1))
        then mark st j (if truthy (zget data pos) then 2 else 1)
        else st, pos + 1))
    (row_body 0) n 1 (row_body 0 0 st, 0) (row_body 0 0 st)) as Hsim.
  destruct Hsim as [Hs1 Hs2].
  { done. }
  { intros i [s pos] t Hi [Hs Hpos]. cbn [fst snd] in *. subst s pos.
    split; [|lia]. unfold row_body.
    rewrite (data_at (i - 1) (i - 1) 0), (data_at (i - 1 + 1) i 0) by lia.
    replace (0 * (w + 1) + i) with i by lia.
    apply put_cond; [|intros Hc]; solve_put. }
  destruct (for_loop n 1 _ (row_body 0 0 st, 0)) as [s pos].
  cbn [fst snd] in Hs1, Hs2. subst s pos.
  cbv zeta. rewrite (data_at (1 + Z.of_nat n - 1) (w - 1) 0) by lia.
  replace (1 + Z.of_nat n) with w by lia.
  generalize (for_loop n 1 (row_body 0) (row_body 0 0 st)). intros s.
  unfold row_body. replace (0 * (w + 1) + w) with w by lia.
  apply put_cond; [|intros Hc]; solve_put.
Qed.

Lemma middle_row_spec (i : Z) (st : list Z * Z) :
  1 ≤ i < h → middle_row data w (lineSize_of w) i st = row_spec i st.
Proof.
  intros Hi. rewrite row_split. unfold middle_row. fold stride.
  set (n := Z.to_nat (w - 1)).
  rewrite (data_at (i * stride - stride) 0 (i - 1)), (data_at (i * stride) 0 i) by lia.
  assert (H0 : (if strict_ne (Some (if ink 0 (i - 1) then 255 else 0))
                             (Some (if ink 0 i then 255 else 0))
                then mark st (i * (w + 1))
                       (if truthy (Some (if ink 0 i then 255 else 0)) then 1
                        else 8)
                else st)
               = row_body i 0 st).
  { unfold row_body. rewrite Z.add_0_r.
    apply put_cond; [|intros Hc]; solve_put. }
  rewrite H0.
  pose proof (for_loop_sim
    (λ j (s : list Z * Z * Z * Z) (t : list Z * Z),
       s.1.1 = t ∧ s.1.2 = i * stride + j - 1
       ∧ Z.shiftr s.2 2 = (if ink (j - 1) i then 1 else 0)
                          + (if ink (j - 1) (i - 1) then 2 else 0))
    (λ j '(st, pos, sum),
       let sum := Z.shiftr sum 2
                  + (if truthy (zget data (pos + 1)) then 4 else 0)
                  + (if truthy (zget data (pos - stride + 1)) then 8 else 0) in
       (if truthy (zget POINT_TYPES sum)
        then mark st (i * (w + 1) + j) (default 0 (zget POINT_TYPES sum))
        else st, pos + 1, sum))
    (row_body i) n 1
    (row_body i 0 st, i * stride,
     (if truthy (Some (if ink 0 i then 255 else 0)) then 4 else 0)
     + (if truthy (Some (if ink 0 (i - 1) then 255 else 0)) then 8 else 0))
    (row_body i 0 st)) as Hsim.
  destruct Hsim as (Hs1 & Hs2 & _).
  { cbn [fst snd]. split; [done|]. split; [lia|].
    replace (1 - 1) with 0 by lia. by destruct (ink 0 i), (ink 0 (i - 1)). }
  { intros j [[s pos] sum] t Hj (Hs & Hpos & Hsum). cbn [fst snd] in *.
    subst s pos. cbv zeta. rewrite Hsum.
    rewrite (data_at (i * stride + j - 1 + 1) j i),
            (data_at (i * stride + j - 1 - stride + 1) j (i - 1)) by lia.
    replace (j + 1 - 1) with j by lia.
    split; [|split; [lia|]].
    - unfold row_body. apply put_cond; [|intros Hc]; solve_put.
    - by destruct (ink (j - 1) i), (ink (j - 1) (i - 1)), (ink j i),
                  (ink j (i - 1)). }
  destruct (for_loop n 1 _ (row_body i 0 st, i * stride, _)) as [[s pos] sum].
  cbn [fst snd] in Hs1, Hs2. subst s pos.
  cbv zeta.
  rewrite (data_at (i * stride + (1 + Z.of_nat n) - 1 - stride) (w - 1) (i - 1)),
          (data_at (i * stride + (1 + Z.of_nat n) - 1) (w - 1) i) by lia.
  replace (1 + Z.of_nat n) with w by lia.
  generalize (for_loop n 1 (row_body i) (row_body i 0 st)). intros s.
  unfold row_body. apply put_cond; [|intros Hc]; solve_put.
Qed.

Lemma last_row_spec (st : list Z * Z) :
  last_row data w h (lineSize_of w) h st = row_spec h st.
Proof.
  rewrite row_split. unfold last_row. fold stride.
  set (n := Z.to_nat (w - 1)).
  assert (H0 : (if strict_ne (zget data (stride * (h - 1))) (Some 0)
                then mark st (h * (w + 1)) 8 else st)
               = row_body h 0 st).
  { unfold row_body. rewrite Z.add_0_r.
    rewrite (data_at (stride * (h - 1)) 0 (h - 1)) by lia.
    apply put_cond; [|intros Hc]; solve_put. }
  rewrite H0.
  pose proof (for_loop_sim
    (λ j (s : list Z * Z * Z) (t : list Z * Z),
       s.1 = t ∧ s.2 = stride * (h - 1) + j - 1)
    (λ j '(st, pos),
       (if strict_ne (zget data pos) (zget data (pos + 1))
        then mark st (h * (w + 1) + j) (if truthy (zget data pos) then 4 else 8)
        else st, pos + 1))
    (row_body h) n 1 (row_body h 0 st, stride * (h - 1)) (row_body h 0 st)) as Hsim.
  destruct Hsim as [Hs1 Hs2].
  { cbn [fst snd]. split; [done|lia]. }
  { intros j [s pos] t Hj [Hs Hpos]. cbn [fst snd] in *. subst s pos.
    split; [|lia]. unfold row_body.
    rewrite (data_at (stride * (h - 1) + j - 1) (j - 1) (h - 1)),
            (data_at (stride * (h - 1) + j - 1 + 1) j (h - 1)) by lia.
    apply put_cond; [|intros Hc]; solve_put. }
  destruct (for_loop n 1 _ (row_body h 0 st, stride * (h - 1))) as [s pos].
  cbn [fst snd] in Hs1, Hs2. subst s pos.
  cbv zeta.
  rewrite (data_at (stride * (h - 1) + (1 + Z.of_nat n) - 1) (w - 1) (h - 1)) by lia.
  replace (1 + Z.of_nat n) with w by lia.
  generalize (for_loop n 1 (row_body h) (row_body h 0 st)). intros s.
  unfold row_body. apply put_cond; [|intros Hc]; solve_put.
Qed.

(** The number of classified points of the row [y], and of the grid. *)
Definition count_row (y : Z) : Z :=
  for_loop (Z.to_nat (w + 1)) 0 (λ x c, c + nz (ctype ink x y)) 0.

Definition corner_count : Z :=
  for_loop (Z.to_nat (h + 1)) 0 (λ y c, c + count_row y) 0.

(** The classification without the tests of the limit. *)
Definition all_rows (st : list Z * Z) : list Z * Z :=
  for_loop (Z.to_nat (h + 1)) 0 row_spec st.

Lemma nz_nonneg (t : Z) : 0 ≤ nz t.
Proof. unfold nz. destruct (t =? 0); lia. Qed.

Lemma put_count (st : list Z * Z) (k T : Z) : (put st k T).2 = st.2 + nz T.
Proof. unfold put, nz, mark. destruct (T =? 0); simpl; lia. Qed.

Lemma row_spec_mono (y : Z) (st : list Z * Z) : st.2 ≤ (row_spec y st).2.
Proof.
  unfold row_spec.
  apply (for_loop_ind (λ _ s, st.2 ≤ s.2) (row_body y) (Z.to_nat (w + 1)) 0 st).
  - lia.
  - intros x s _ Hs. unfold row_body. rewrite put_count.
    pose proof (nz_nonneg (ctype ink x y)). lia.
Qed.

Lemma rows_mono (n : nat) (i : Z) (st : list Z * Z) :
  st.2 ≤ (for_loop n i row_spec st).2.
Proof.
  apply (for_loop_ind (λ _ s, st.2 ≤ s.2) row_spec n i st).
  - lia.
  - intros y s _ Hs. pose proof (row_spec_mono y s). lia.
Qed.

Lemma middle_rows_some (n : nat) (i : Z) (st st' : list Z * Z) :
  1 ≤ i → i + Z.of_nat n ≤ h →
  middle_rows n data w (lineSize_of w) i st = Some st' →
  st' = for_loop n i row_spec st.
Proof.
  revert i st. induction n as [|n IH]; intros i st Hi Hn; cbn [middle_rows for_loop].
  { by intros [= <-]. }
  rewrite middle_row_spec by lia.
  destruct (POINT_TO_PROCESS_LIMIT <? (row_spec i st).2); [done|].
  apply IH; lia.
Qed.

Lemma middle_rows_none (n : nat) (i : Z) (st : list Z * Z) :
  1 ≤ i → i + Z.of_nat n ≤ h →
  middle_rows n data w (lineSize_of w) i st = None →
  POINT_TO_PROCESS_LIMIT < (for_loop n i row_spec st).2.
Proof.
  revert i st. induction n as [|n IH]; intros i st Hi Hn; cbn [middle_rows for_loop].
  { done. }
  rewrite middle_row_spec by lia.
  destruct (Z.ltb_spec POINT_TO_PROCESS_LIMIT (row_spec i st).2) as [Hlt|Hge].
  - intros _. pose proof (rows_mono n (i + 1) (row_spec i st)). lia.
  - apply IH; lia.
Qed.

Lemma loop_split {A : Type} (body : Z → A → A) (n : nat) (s : A) :
  for_loop (S (S n)) 0 body s
  = body (1 + Z.of_nat n) (for_loop n 1 body (body 0 s)).
Proof. rewrite for_loop_snoc. cbn [for_loop]. f_equal. lia. Qed.

(** [new Uint8Array(width1 * (height + 1))] *)
Definition zeros : list Z := replicate (Z.to_nat ((w + 1) * (h + 1))) 0.

(** The tests of the limit return [null] exactly when the final count
    is over the limit, because the count never decreases. *)
Lemma classify_spec :
  classify data w h
  = if POINT_TO_PROCESS_LIMIT <? (all_rows (zeros, 0)).2 then None
    else Some (all_rows (zeros, 0)).
Proof.
  unfold classify, all_rows. fold zeros.
  replace (Z.to_nat (h + 1)) with (S (S (Z.to_nat (h - 1)))) by lia.
  rewrite loop_split. rewrite first_row_spec.
  set (n := Z.to_nat (h - 1)). replace (1 + Z.of_nat n) with h by lia.
  destruct (middle_rows n data w (lineSize_of w) 1 (row_spec 0 (zeros, 0)))
    as [st|] eqn:Hm.
  - apply middle_rows_some in Hm; [|lia..]. subst st.
    by rewrite last_row_spec.
  - apply middle_rows_none in Hm; [|lia..].
    pose proof (row_spec_mono h (for_loop n 1 row_spec (row_spec 0 (zeros, 0)))).
    destruct (Z.ltb_spec POINT_TO_PROCESS_LIMIT
                (row_spec h (for_loop n 1 row_spec (row_spec 0 (zeros, 0)))).2);
      [done|lia].
Qed.

Lemma rd_zeros (n : nat) (k : Z) : rd (replicate n 0) k = 0.
Proof.
  unfold rd, zget. destruct (k <? 0); [done|].
  destruct (replicate n 0 !! Z.to_nat k) eqn:Hl; [|done].
  by apply lookup_replicate in Hl as [-> _].
Qed.

Lemma total_zeros (n : nat) : total (replicate n 0) = 0.
Proof.
  induction n as [|n IH]; [done|].
  change (total (replicate (S n) 0)) with (bits 0 + total (replicate n 0)).
  by rewrite IH.
Qed.

Lemma bits_type (tl tr bl br : bool) :
  bits (type_of tl tr bl br) ≤ 2 * nz (type_of tl tr bl br).
Proof. destruct tl, tr, bl, br; vm_compute; discriminate. Qed.

Lemma put_length (st : list Z * Z) (k T : Z) :
  length (put st k T).1 = length st.1.
Proof. unfold put, mark. destruct (T =? 0); [done|]. apply length_zset. Qed.

Lemma put_rd (st : list Z * Z) (k T k' : Z) :
  0 ≤ k < Z.of_nat (length st.1) → rd st.1 k = 0 →
  rd (put st k T).1 k' = if bool_decide (k' = k) then T else rd st.1 k'.
Proof.
  intros Hk Hz. unfold put, mark. destruct (Z.eqb_spec T 0) as [->|Hne].
  - case_bool_decide; by subst.
  - cbn [fst]. by apply rd_zset.
Qed.

Lemma put_total (st : list Z * Z) (k T : Z) :
  0 ≤ k < Z.of_nat (length st.1) → rd st.1 k = 0 →
  total (put st k T).1 = total st.1 + bits T.
Proof.
  intros Hk Hz. unfold put, mark. destruct (Z.eqb_spec T 0) as [->|Hne].
  - change (bits 0) with 0. lia.
  - cbn [fst]. rewrite total_zset by done. rewrite Hz. change (bits 0) with 0. lia.
Qed.

(** The cells below [bound] hold the types of their points, the others 0;
    [c] is the count. *)
Definition filled (bound : Z) (st : list Z * Z) (c : Z) : Prop :=
  Z.of_nat (length st.1) = (w + 1) * (h + 1)
  ∧ (∀ k, rd st.1 k
          = if (0 <=? k) && (k <? bound)
            then ctype ink (k mod (w + 1)) (k / (w + 1)) else 0)
  ∧ st.2 = c ∧ total st.1 ≤ 2 * c.

Lemma row_filled (y : Z) (st : list Z * Z) (c : Z) :
  0 ≤ y ≤ h → filled (y * (w + 1)) st c →
  filled ((y + 1) * (w + 1)) (row_spec y st) (c + count_row y).
Proof.
  intros Hy Hst. unfold row_spec, count_row.
  pose proof (for_loop_sim
    (λ x (s : list Z * Z) (cx : Z), filled (y * (w + 1) + x) s (c + cx))
    (row_body y) (λ x cx, cx + nz (ctype ink x y))
    (Z.to_nat (w + 1)) 0 st 0) as Hsim.
  cbv beta in Hsim.
  replace (y * (w + 1) + (0 + Z.of_nat (Z.to_nat (w + 1))))
    with ((y + 1) * (w + 1)) in Hsim by lia.
  apply Hsim; clear Hsim.
  { by rewrite !Z.add_0_r. }
  intros x s cx Hx (Hlen & Hrd & Hcnt & Htot). unfold row_body.
  assert (Hk0 : 0 ≤ y * (w + 1) + x < Z.of_nat (length s.1)).
  { rewrite Hlen. nia. }
  assert (Hzero : rd s.1 (y * (w + 1) + x) = 0).
  { rewrite Hrd. destruct (Z.ltb_spec (y * (w + 1) + x) (y * (w + 1) + x)); [lia|].
    by rewrite andb_false_r. }
  assert (Hing : on_grid w h x y) by (unfold on_grid; lia).
  unfold filled. split_and!.
  - by rewrite put_length.
  - intros k. rewrite put_rd by done. rewrite Hrd.
    case_bool_decide as Hk.
    + subst k. fold (idx w x y).
      rewrite (idx_mod w h) by (done || lia). rewrite (idx_div w h) by (done || lia).
      unfold idx.
      destruct (Z.leb_spec 0 (y * (w + 1) + x)), (Z.ltb_spec (y * (w + 1) + x) (y * (w + 1) + (x + 1)));
        try lia; done.
    + destruct (Z.leb_spec 0 k); [|done]. cbn [andb].
      destruct (Z.ltb_spec k (y * (w + 1) + x)), (Z.ltb_spec k (y * (w + 1) + (x + 1)));
        try lia; done.
  - rewrite put_count. lia.
  - rewrite put_total by done.
    pose proof (bits_type (ink (x - 1) (y - 1)) (ink x (y - 1)) (ink (x - 1) y) (ink x y)).
    unfold ctype. lia.
Qed.

Lemma all_filled :
  filled ((h + 1) * (w + 1)) (all_rows (zeros, 0)) corner_count.
Proof.
  unfold all_rows, corner_count.
  pose proof (for_loop_sim
    (λ y (s : list Z * Z) (c : Z), filled (y * (w + 1)) s c)
    row_spec (λ y c, c + count_row y) (Z.to_nat (h + 1)) 0 (zeros, 0) 0) as Hsim.
  cbv beta in Hsim.
  replace (0 + Z.of_nat (Z.to_nat (h + 1))) with (h + 1) in Hsim by lia.
  apply Hsim; clear Hsim.
  - unfold filled, zeros. cbn [fst snd]. split_and!.
    + rewrite length_replicate. lia.
    + intros k. rewrite rd_zeros.
      destruct (Z.leb_spec 0 k), (Z.ltb_spec k (0 * (w + 1))); try lia; done.
    + done.
    + rewrite total_zeros. lia.
  - intros y s c Hy Hs. apply row_filled; [lia|done].
Qed.

(** What a classification that does not return [null] computes. *)
Lemma classify_some (pts : list Z) (cnt : Z) :
  classify data w h = Some (pts, cnt) →
  sized w h pts
  ∧ (∀ x y, on_grid w h x y → cur_of w pts x y = ctype ink x y)
  ∧ cnt = corner_count ∧ cnt ≤ POINT_TO_PROCESS_LIMIT ∧ total pts ≤ 2 * cnt.
Proof.
  rewrite classify_spec. pose proof all_filled as (Hlen & Hrd & Hcnt & Htot).
  destruct (Z.ltb_spec POINT_TO_PROCESS_LIMIT (all_rows (zeros, 0)).2) as [|Hle];
    [done|].
  intros [= Heq]. rewrite Heq in *. cbn [fst snd] in *.
  split_and!; [done| |done|lia|lia].
  intros x y Hin. unfold cur_of. rewrite Hrd.
  pose proof (idx_range w h ltac:(lia) x y Hin).
  rewrite (idx_mod w h), (idx_div w h) by (done || lia).
  destruct (Z.leb_spec 0 (idx w x y)), (Z.ltb_spec (idx w x y) ((h + 1) * (w + 1)));
    try lia; done.
Qed.

Lemma classify_none :
  classify data w h = None ↔ POINT_TO_PROCESS_LIMIT < corner_count.
Proof.
  rewrite classify_spec. pose proof all_filled as (_ & _ & Hcnt & _).
  rewrite Hcnt.
  destruct (Z.ltb_spec POINT_TO_PROCESS_LIMIT corner_count); split; (done || lia).
Qed.

End Classify.

(** ** The decoding of the mask *)

Lemma land_pow2 (a n : Z) :
  0 ≤ n → Z.land a (2 ^ n) = if Z.testbit a n then 2 ^ n else 0.
Proof.
  intros Hn. apply Z.bits_inj'. intros m Hm.
  rewrite Z.land_spec, Z.pow2_bits_eqb by done.
  destruct (Z.eqb_spec n m) as [->|Hne].
  - destruct (Z.testbit a m); [|by rewrite Z.bits_0].
    rewrite Z.pow2_bits_eqb by done. by rewrite Z.eqb_refl.
  - rewrite andb_false_r. destruct (Z.testbit a n); [|by rewrite Z.bits_0].
    rewrite Z.pow2_bits_eqb by done. symmetry. by apply Z.eqb_neq.
Qed.

Lemma mask_byte_bit (elem b : Z) :
  0 ≤ b < 8 → mask_byte elem (2 ^ (7 - b)) = bit_byte elem b.
Proof.
  intros Hb. unfold mask_byte, bit_byte. rewrite land_pow2 by lia.
  destruct (Z.testbit elem (7 - b)); [|done].
  assert (0 < 2 ^ (7 - b)) by (apply Z.pow_pos_nonneg; lia).
  destruct (Z.eqb_spec (2 ^ (7 - b)) 0); [lia|done].
Qed.

Lemma masks_lookup (b : Z) :
  0 ≤ b < 8 → MASKS !! Z.to_nat b = Some (2 ^ (7 - b)).
Proof.
  intros Hb.
  assert (b = 0 ∨ b = 1 ∨ b = 2 ∨ b = 3 ∨ b = 4 ∨ b = 5 ∨ b = 6 ∨ b = 7)
    as Hc by lia.
  repeat destruct Hc as [->|Hc]; try subst b; reflexivity.
Qed.

Lemma unpack_elem_eq (st : list Z * Z) (elem : Z) :
  unpack_elem st elem = foldl (unpack_bit elem) st MASKS.
Proof. by destruct st. Qed.

Lemma unpack_bits_spec (elem : Z) (masks : list Z) (data : list Z) (pos : Z) :
  0 ≤ pos →
  (foldl (unpack_bit elem) (data, pos) masks).2 = pos + Z.of_nat (length masks)
  ∧ length (foldl (unpack_bit elem) (data, pos) masks).1 = length data
  ∧ ∀ k, zget (foldl (unpack_bit elem) (data, pos) masks).1 k
         = if (pos <=? k) && (k <? pos + Z.of_nat (length masks))
              && (k <? Z.of_nat (length data))
           then mask_byte elem <$> masks !! Z.to_nat (k - pos)
           else zget data k.
Proof.
  revert data pos. induction masks as [|mask masks IH]; intros data pos Hpos.
  { cbn [foldl fst snd length]. split; [lia|]. split; [done|]. intros k.
    destruct (Z.leb_spec pos k), (Z.ltb_spec k (pos + Z.of_nat 0)); try lia; done. }
  cbn [foldl].
  change (unpack_bit elem (data, pos) mask)
    with (zset data pos (mask_byte elem mask), pos + 1).
  destruct (IH (zset data pos (mask_byte elem mask)) (pos + 1)) as (H1 & H2 & H3);
    [lia|].
  rewrite H1, H2, length_zset. cbn [length].
  split; [lia|]. split; [done|]. intros k. rewrite H3, length_zset, zget_zset.
  destruct (Z.leb_spec (pos + 1) k), (Z.leb_spec pos k),
    (Z.ltb_spec k (pos + 1 + Z.of_nat (length masks))),
    (Z.ltb_spec k (pos + Z.of_nat (S (length masks)))),
    (Z.ltb_spec k (Z.of_nat (length data))); try lia; cbn [andb].
  all: try (case_bool_decide as Hd; [destruct Hd as [-> Hd]; try lia|];
            try done; try lia).
  - replace (Z.to_nat (k - pos)) with (S (Z.to_nat (k - (pos + 1)))) by lia. done.
  - by rewrite Z.sub_diag.
Qed.

Lemma unpack_elem_spec (elem : Z) (data : list Z) (pos : Z) :
  0 ≤ pos →
  (unpack_elem (data, pos) elem).2 = pos + 8
  ∧ length (unpack_elem (data, pos) elem).1 = length data
  ∧ ∀ k, zget (unpack_elem (data, pos) elem).1 k
         = if (pos <=? k) && (k <? pos + 8) && (k <? Z.of_nat (length data))
           then Some (bit_byte elem (k - pos))
           else zget data k.
Proof.
  intros Hpos. rewrite unpack_elem_eq.
  destruct (unpack_bits_spec elem MASKS data pos Hpos) as (H1 & H2 & H3).
  split; [done|]. split; [done|]. intros k. rewrite H3.
  change (Z.of_nat (length MASKS)) with 8.
  destruct (Z.leb_spec pos k), (Z.ltb_spec k (pos + 8)),
    (Z.ltb_spec k (Z.of_nat (length data))); try done. cbn [andb].
  rewrite masks_lookup by lia. cbn [fmap option_fmap option_map].
  by rewrite mask_byte_bit by lia.
Qed.

Lemma unpack_all_spec (img : list Z) (data : list Z) (pos : Z) :
  0 ≤ pos →
  length (foldl unpack_elem (data, pos) img).1 = length data
  ∧ ∀ k, zget (foldl unpack_elem (data, pos) img).1 k
         = if (pos <=? k) && (k <? pos + 8 * Z.of_nat (length img))
              && (k <? Z.of_nat (length data))
           then (λ elem, bit_byte elem ((k - pos) mod 8))
                  <$> img !! Z.to_nat ((k - pos) / 8)
           else zget data k.
Proof.
  revert data pos. induction img as [|elem img IH]; intros data pos Hpos.
  { cbn [foldl fst length]. split; [done|]. intros k.
    destruct (Z.leb_spec pos k), (Z.ltb_spec k (pos + 8 * Z.of_nat 0)); try lia; done. }
  cbn [foldl].
  destruct (unpack_elem_spec elem data pos Hpos) as (E1 & E2 & E3).
  destruct (unpack_elem (data, pos) elem) as [data' pos'] eqn:He.
  cbn [fst snd] in E1, E2, E3. subst pos'.
  destruct (IH data' (pos + 8)) as (H2 & H3); [lia|].
  rewrite H2, E2. split; [done|]. intros k. rewrite H3, E2, E3. cbn [length].
  destruct (Z.leb_spec (pos + 8) k), (Z.leb_spec pos k),
    (Z.ltb_spec k (pos + 8 + 8 * Z.of_nat (length img))),
    (Z.ltb_spec k (pos + 8 * Z.of_nat (S (length img)))),
    (Z.ltb_spec k (pos + 8)),
    (Z.ltb_spec k (Z.of_nat (length data))); try lia; cbn [andb]; try done.
  - replace (k - pos) with ((k - (pos + 8)) + 1 * 8) by lia.
    rewrite Z.div_add, Z.mod_add by lia.
    replace (Z.to_nat ((k - (pos + 8)) / 8 + 1))
      with (S (Z.to_nat ((k - (pos + 8)) / 8))); [done|].
    assert (0 ≤ (k - (pos + 8)) / 8) by (apply Z.div_pos; lia). lia.
  - rewrite Z.div_small, Z.mod_small by lia. done.
Qed.

Lemma unpack_length (img : list Z) (w h : Z) :
  length (unpack img w h) = Z.to_nat (lineSize_of w * h).
Proof.
  unfold unpack.
  destruct (unpack_all_spec img (replicate (Z.to_nat (lineSize_of w * h)) 0) 0)
    as [Hl _]; [lia|].
  by rewrite Hl, length_replicate.
Qed.

Lemma unpack_get (img : list Z) (w h k : Z) :
  zget (unpack img w h) k
  = if (0 <=? k) && (k <? 8 * Z.of_nat (length img)) && (k <? lineSize_of w * h)
    then (λ elem, bit_byte elem (k mod 8)) <$> img !! Z.to_nat (k / 8)
    else if (0 <=? k) && (k <? lineSize_of w * h) then Some 0 else None.
Proof.
  unfold unpack.
  destruct (unpack_all_spec img (replicate (Z.to_nat (lineSize_of w * h)) 0) 0)
    as [_ Hg]; [lia|].
  rewrite Hg, length_replicate, Z.add_0_l, Z.sub_0_r.
  destruct (Z.leb_spec 0 k), (Z.ltb_spec k (8 * Z.of_nat (length img))),
    (Z.ltb_spec k (Z.of_nat (Z.to_nat (lineSize_of w * h)))),
    (Z.ltb_spec k (lineSize_of w * h)); try lia; cbn [andb]; try done.
  all: unfold zget; destruct (Z.ltb_spec k 0); try done; try lia.
  all: first [ rewrite lookup_replicate_2 by lia; done
             | apply lookup_replicate_None; lia ].
Qed.

Lemma unpack_binary (img : list Z) (w h : Z) : binary (unpack img w h).
Proof.
  unfold binary. apply Forall_lookup. intros i v Hi.
  pose proof (unpack_get img w h (Z.of_nat i)) as Hg.
  unfold zget in Hg. destruct (Z.ltb_spec (Z.of_nat i) 0); [lia|].
  rewrite Nat2Z.id, Hi in Hg.
  destruct ((0 <=? Z.of_nat i) && (Z.of_nat i <? 8 * Z.of_nat (length img))
            && (Z.of_nat i <? lineSize_of w * h)).
  - destruct (img !! Z.to_nat (Z.of_nat i / 8)) as [elem|]; [|done].
    injection Hg as ->. unfold bit_byte. destruct (Z.testbit _ _); auto.
  - destruct ((0 <=? Z.of_nat i) && (Z.of_nat i <? lineSize_of w * h)); [|done].
    injection Hg as ->. auto.
Qed.

Lemma lineSize_eq (w : Z) : lineSize_of w = 8 * ((w + 7) / 8).
Proof.
  unfold lineSize_of. rewrite <- Z.ldiff_land.
  change 7 with (Z.ones 3) at 2. rewrite Z.ldiff_ones_r by lia.
  rewrite Z.shiftl_mul_pow2, Z.shiftr_div_pow2 by lia.
  change (2 ^ 3) with 8. lia.
Qed.

Lemma lineSize_ge (w : Z) : w ≤ lineSize_of w.
Proof.
  rewrite lineSize_eq.
  pose proof (Z.div_mod (w + 7) 8 ltac:(lia)).
  pose proof (Z.mod_pos_bound (w + 7) 8 ltac:(lia)). lia.
Qed.

(** After the classification the cells are balanced. *)
Lemma balanced_init (w h : Z) (ink : Z → Z → bool) (cur : Z → Z → Z) :
  (∀ x y, ink x y = true → 0 ≤ x < w ∧ 0 ≤ y < h) → 0 ≤ w → 0 ≤ h →
  (∀ x y, on_grid w h x y → cur x y = ctype ink x y) →
  balanced w h ink cur.
Proof.
  intros Hink Hw Hh Hcur. split.
  - intros x y Hin. rewrite Hcur by done. unfold sub. auto.
  - intros t x y k Ht Hr.
    pose proof (run_inside w h ink Hink Hw Hh t x y k Ht Hr) as (Hs & Hq & _).
    rewrite !Hcur by done.
    destruct Hr as (_ & Hsrc & _ & Hnz & Hinn). rewrite Hsrc.
    destruct (pair_out t _ _ _ _ Ht Hinn Hnz) as [_ Hp]. exact Hp.
Qed.

Lemma pix_inside (data : list Z) (w h x y : Z) :
  pix data w h x y = true → 0 ≤ x < w ∧ 0 ≤ y < h.
Proof.
  unfold pix. intros Hi. repeat (apply andb_true_iff in Hi as [Hi ?]). lia.
Qed.

(** ** The path buffer *)

Lemma walk_step_path (inner : nat) (width1 : Z) (m : DOMMatrix)
  (tr tr' : tracer) (p t p' t' : Z) :
  walk_step inner width1 m tr p t = Some (tr', p', t') →
  pathBuf tr' = pathBuf tr ++ [lineTo m (p' mod width1) (p' / width1)].
Proof.
  rewrite walk_step_eq. destruct (zget (steps_of width1) t); [|done].
  destruct (skip inner (points tr) p z); [|done]. by intros [= <- <- _].
Qed.

Lemma lineTo_line (m : DOMMatrix) (x y : Z) : is_line (lineTo m x y).
Proof. done. Qed.

Lemma walk_path (inner n : nat) (width1 : Z) (m : DOMMatrix) (p0 : Z)
  (tr tr' : tracer) (p t : Z) :
  walk inner n width1 m p0 tr p t = Some tr' →
  ∃ lines, Forall is_line lines
           ∧ pathBuf tr' = pathBuf tr ++ lines
                           ++ [lineTo m (p0 mod width1) (p0 / width1)].
Proof.
  revert tr p t. induction n as [|n IH]; intros tr p t; cbn [walk]; [done|].
  destruct (walk_step inner width1 m tr p t) as [[[tr1 p1] t1]|] eqn:Hstep;
    [|done].
  apply walk_step_path in Hstep.
  destruct (Z.eqb_spec p0 p1) as [->|Hne]; cbn [negb].
  - intros [= <-]. exists []. split; [constructor|]. by rewrite Hstep.
  - intros Hw. destruct (IH _ _ _ Hw) as (lines & Hl & Hp).
    exists (lineTo m (p1 mod width1) (p1 / width1) :: lines).
    split; [constructor; [apply lineTo_line|done]|].
    rewrite Hp, Hstep. by rewrite <- app_assoc.
Qed.

Lemma trace_path (inner n : nat) (w h : Z) (m : DOMMatrix) (i : Z)
  (tr tr' : tracer) :
  0 ≤ w → 0 ≤ i →
  trace inner n w h m i tr = Some tr' →
  closed (pathBuf tr) → closed (pathBuf tr').
Proof.
  intros Hw. revert i tr. induction n as [|n IH]; intros i tr Hi; cbn [trace];
    [done|].
  destruct (negb (count tr =? 0) && (i <=? h)) eqn:Hcond; [|by intros [= <-]].
  apply andb_true_iff in Hcond as [_ Hih%Z.leb_le].
  replace (i * (w + 1) + w - i * (w + 1)) with w by lia.
  destruct (scan_row_spec (points tr) (Z.to_nat w) (i * (w + 1)) (i * (w + 1) + w))
    as (Hp & _ & _); [lia|lia|].
  set (p := scan_row (Z.to_nat w) (points tr) (i * (w + 1)) (i * (w + 1) + w)) in *.
  destruct (Z.eqb_spec p (i * (w + 1) + w)) as [Hend|Hfound].
  { apply IH. lia. }
  destruct (walk inner inner (w + 1) m p _ p _) as [tr1|] eqn:Hwalk; [|done].
  apply walk_path in Hwalk as (lines & Hl & Hpath). cbn [pathBuf] in Hpath.
  rewrite Z.sub_add. intros Htr Hclosed. apply (IH i tr1 Hi Htr).
  rewrite Hpath.
  assert (Hdiv : p / (w + 1) = i).
  { replace p with (idx w (p - i * (w + 1)) i) by (unfold idx; lia).
    apply (idx_div w h); [lia|]. unfold on_grid. lia. }
  rewrite Hdiv. unfold moveTo, lineTo.
  destruct (transform m (p mod (w + 1)) i) as [u v].
  rewrite <- app_assoc. cbn [app]. by constructor.
Qed.

(** ** The properties of [compileType3Glyph] *)

(** Turns of each loop of the tracing that are enough for every glyph
    that passes the two gates: at most 1000 points are classified, each
    holds at most two directions, and there are at most 1001 rows. *)
Definition FUEL : nat := 3002.

(** The count the classification ends with: the number of points of the
    grid whose four neighbouring pixels have a non-zero entry in
    [POINT_TYPES]. *)
Definition boundary_points (g : BitmapGlyph) : Z :=
  corner_count (unpack (data g) (width g) (height g)) (width g) (height g).

(** The outline of the unit square, from its top-left corner. *)
Definition unit_square : list path_cmd :=
  [MoveTo 0 1; LineTo 0 0; LineTo 1 0; LineTo 1 1; LineTo 0 1]%Q.

(** Two pixels on a diagonal, which meet in a crossing: the rows are
    [01] and [10], and a clear bit marks the pixel. *)
Definition diagonal : BitmapGlyph := mkGlyph [64; 128] 2 2.

(** A checkerboard of 64 x 32 pixels. *)
Definition checkerboard : BitmapGlyph :=
  mkGlyph (flat_map (λ y, replicate 8 (if Nat.even y then 170 else 85))
             (seq 0 32))
          64 32.

Lemma gate_off (w h : Z) :
  (MAX_SIZE_TO_COMPILE <? w) || (MAX_SIZE_TO_COMPILE <? h) = false →
  w ≤ 1000 ∧ h ≤ 1000.
Proof.
  unfold MAX_SIZE_TO_COMPILE. intros [H1 H2]%orb_false_iff.
  apply Z.ltb_ge in H1, H2. lia.
Qed.

Lemma unpack_len (img : list Z) (w h : Z) :
  1 ≤ w → 1 ≤ h →
  Z.of_nat (length (unpack img w h)) = lineSize_of w * h.
Proof.
  intros Hw Hh. rewrite unpack_length. pose proof (lineSize_ge w). nia.
Qed.

(** C9.  For a glyph of positive width and height the function ends:
    with [FUEL] turns for each loop of the tracing it returns a result,
    whatever the pixels are.  The walks of the contours come back to
    their starts, crossings included. *)
Theorem compile_terminates (g : BitmapGlyph) (fuel : nat) :
  1 ≤ width g → 1 ≤ height g → (FUEL ≤ fuel)%nat →
  ∃ r, compileType3Glyph fuel g = Some r.
Proof.
  intros Hw Hh Hfuel. unfold compileType3Glyph, FUEL in *.
  destruct ((MAX_SIZE_TO_COMPILE <? width g) || (MAX_SIZE_TO_COMPILE <? height g))
    eqn:Hgate; [by eexists|].
  apply gate_off in Hgate as [Hw' Hh'].
  set (dat := unpack (data g) (width g) (height g)).
  destruct (classify dat (width g) (height g)) as [[pts cnt]|] eqn:Hc;
    [|by eexists].
  apply classify_some in Hc as (Hsz & Hcur & _ & Hcnt & Htot);
    [|done|done|apply lineSize_ge|by apply unpack_len|apply unpack_binary].
  unfold POINT_TO_PROCESS_LIMIT in Hcnt.
  destruct (trace_terminates (width g) (height g) (ink dat (width g) (height g))
              (pix_inside dat (width g) (height g)) ltac:(lia) ltac:(lia)
              (glyph_matrix (width g) (height g)) fuel ltac:(lia) fuel 0
              (mkTracer pts cnt [])) as [tr Htr]; cbn [points].
  - lia.
  - done.
  - apply balanced_init; [apply pix_inside|lia|lia|done].
  - intros x y _ Hy. lia.
  - lia.
  - lia.
  - rewrite Htr. by eexists.
Qed.

Lemma compile_terminates_witness :
  ∃ r, compileType3Glyph FUEL diagonal = Some r.
Proof.
  apply (compile_terminates diagonal FUEL); [simpl; lia|simpl; lia|lia].
Defined.

(** C5.  For a glyph of positive width and height the function returns
    [null] exactly when the width or the height is over 1000 or the count
    of classified points is over 1000.  This holds for every number of
    turns granted to the tracing, none included: [null] is returned before
    the path buffer exists. *)
Theorem null_iff_over_budget (fuel : nat) (g : BitmapGlyph) :
  1 ≤ width g → 1 ≤ height g →
  compileType3Glyph fuel g = Some Null
  ↔ MAX_SIZE_TO_COMPILE < width g ∨ MAX_SIZE_TO_COMPILE < height g
    ∨ POINT_TO_PROCESS_LIMIT < boundary_points g.
Proof.
  intros Hw Hh. unfold compileType3Glyph, boundary_points.
  set (dat := unpack (data g) (width g) (height g)).
  pose proof (classify_none dat (width g) (height g) Hw Hh (lineSize_ge _)
                (unpack_len _ _ _ Hw Hh) (unpack_binary _ _ _)) as Hnone.
  destruct (Z.ltb_spec MAX_SIZE_TO_COMPILE (width g)) as [Hgw|Hgw]; cbn [orb].
  { split; [intros _; by left|done]. }
  destruct (Z.ltb_spec MAX_SIZE_TO_COMPILE (height g)) as [Hgh|Hgh].
  { split; [intros _; right; by left|done]. }
  destruct (classify dat (width g) (height g)) as [[pts cnt]|] eqn:Hc.
  - split.
    + by destruct (trace fuel fuel _ _ _ 0 _).
    + intros [?|[?|Hover]]; [lia|lia|]. apply Hnone in Hover. done.
  - split; [|done]. intros _. right. right. by apply Hnone.
Qed.

Lemma null_iff_over_budget_witness :
  compileType3Glyph 0 checkerboard = Some Null
  ↔ MAX_SIZE_TO_COMPILE < 64 ∨ MAX_SIZE_TO_COMPILE < 32
    ∨ POINT_TO_PROCESS_LIMIT < boundary_points checkerboard.
Proof.
  apply (null_iff_over_budget 0 checkerboard); simpl; lia.
Defined.

(** The checkerboard is over the limit of points. *)
Example checkerboard_is_null : compileType3Glyph 0 checkerboard = Some Null.
Proof. vm_compute. reflexivity. Qed.

(** C6.  Every contour of a result that is not [null] is closed: its last
    line-to has the coordinates of its move-to. *)
Theorem contours_closed (fuel : nat) (g : BitmapGlyph)
  (path : list path_cmd) (bbox : Z * Z * Z * Z) :
  1 ≤ width g → 1 ≤ height g →
  compileType3Glyph fuel g = Some (Outline path bbox) →
  closed path.
Proof.
  intros Hw Hh. unfold compileType3Glyph.
  destruct ((MAX_SIZE_TO_COMPILE <? width g) || (MAX_SIZE_TO_COMPILE <? height g));
    [done|].
  destruct (classify _ (width g) (height g)) as [[pts cnt]|]; [|done].
  destruct (trace fuel fuel _ _ _ 0 _) as [tr|] eqn:Htr; [|done].
  intros [= <- _]. eapply trace_path in Htr; [done|lia|lia|]. constructor.
Qed.

Lemma contours_closed_witness :
  closed match compileType3Glyph 20 diagonal with
         | Some (Outline path _) => path
         | _ => []
         end.
Proof.
  apply (contours_closed 20 diagonal _ (0, 0, 2, 2)); [simpl; lia|simpl; lia|].
  vm_compute. reflexivity.
Defined.

(** C4 as written fails: the only pixel of the 1 x 1 bitmap [[128]] has
    its bit set and is decoded to 0, not to 255. *)
Lemma set_bit_decodes_to_zero :
  Z.testbit 128 7 = true ∧ zget (unpack [128] 1 1) 0 = Some 0.
Proof. split; reflexivity. Qed.

(** C4, amended.  The decoding writes one byte per pixel, rows
    [lineSize] bytes apart: the pixel [x] of the row [y], whose bit is the
    bit [7 - x mod 8] of the byte [y * ceil(width / 8) + x / 8] of the
    packed data, is decoded to 0 when the bit is set and to 255 when it is
    clear. *)
Theorem unpack_pixel (img : list Z) (w h x y elem : Z) :
  0 ≤ x < w → 0 ≤ y < h →
  img !! Z.to_nat (y * ((w + 7) / 8) + x / 8) = Some elem →
  zget (unpack img w h) (y * lineSize_of w + x)
  = Some (if Z.testbit elem (7 - x mod 8) then 0 else 255).
Proof.
  intros Hx Hy Helem. rewrite unpack_get.
  pose proof (lineSize_ge w) as Hge. pose proof (lineSize_eq w) as Heq.
  set (rb := (w + 7) / 8) in *.
  assert (Hrb : 0 ≤ rb) by (apply Z.div_pos; lia).
  pose proof (lookup_lt_Some _ _ _ Helem) as Hlt.
  pose proof (Z.div_mod x 8 ltac:(lia)) as Hdm.
  pose proof (Z.mod_pos_bound x 8 ltac:(lia)) as Hmb.
  assert (Hx8 : 0 ≤ x / 8) by (apply Z.div_pos; lia).
  assert (Hk : y * lineSize_of w + x = x + (y * rb) * 8) by lia.
  assert (Hyrb : 0 ≤ y * rb) by nia.
  rewrite Hk, Z.div_add, Z.mod_add by lia.
  replace (x / 8 + y * rb) with (y * rb + x / 8) by lia.
  rewrite Helem. cbn [fmap option_fmap option_map].
  destruct (Z.leb_spec 0 (x + y * rb * 8)); [|lia].
  destruct (Z.ltb_spec (x + y * rb * 8) (8 * Z.of_nat (length img))); [|lia].
  destruct (Z.ltb_spec (x + y * rb * 8) (lineSize_of w * h)); [|nia].
  done.
Qed.

Lemma unpack_pixel_witness :
  zget (unpack [64; 128] 2 2) (1 * lineSize_of 2 + 1)
  = Some (if Z.testbit 128 (7 - 1 mod 8) then 0 else 255).
Proof.
  apply (unpack_pixel [64; 128] 2 2 1 1 128); [lia|lia|reflexivity].
Defined.

Lemma inject_Z_nonzero (n : Z) : 0 < n → ¬ (inject_Z n == 0)%Q.
Proof. unfold Qeq, inject_Z. simpl. lia. Qed.

(** The matrix of the glyph maps the point [(x, y)] of the grid to
    [(x / width, 1 - y / height)]. *)
Lemma glyph_matrix_transform (w h x y : Z) :
  0 < w → 0 < h →
  ((transform (glyph_matrix w h) x y).1 == inject_Z x / inject_Z w
   ∧ (transform (glyph_matrix w h) x y).2 == 1 - inject_Z y / inject_Z h)%Q.
Proof.
  intros Hw Hh.
  pose proof (inject_Z_nonzero w Hw). pose proof (inject_Z_nonzero h Hh).
  unfold transform, glyph_matrix, translateSelf, scaleSelf, identity_matrix.
  cbn [m_a m_b m_c m_d m_e m_f fst snd]. split; field; done.
Qed.

(** The four corners of a marked pixel are classified. *)
Example one_pixel_points : boundary_points (mkGlyph [0] 1 1) = 4.
Proof. reflexivity. Qed.

(** C7 as written fails: for the 1 x 1 bitmap with its bit set the path
    has no contour. *)
Lemma set_bit_gives_no_contour :
  compileType3Glyph 10 (mkGlyph [128] 1 1) = Some (Outline [] (0, 0, 1, 1)).
Proof. vm_compute. reflexivity. Qed.

Lemma classify_one_pixel (dat : list Z) :
  zget dat 0 = Some 255 → classify dat 1 1 = Some ([1; 2; 8; 4], 4).
Proof.
  intros H0. unfold classify, first_row, last_row, lineSize_of.
  change (Z.to_nat (1 - 1)) with O. cbn [for_loop middle_rows].
  change (Z.land (1 + 7) (Z.lnot 7) * (1 - 1)) with 0.
  rewrite !H0. vm_compute. reflexivity.
Qed.

(** C7, amended.  For a 1 x 1 bitmap whose pixel is marked (its bit, the
    most significant one of the only byte, is clear) the result has one
    contour, the unit square: a move-to at (0, 1) and four line-tos that
    end there, which are the corners (0, 0), (0, 1), (1, 1), (1, 0) of the
    pixel under the map (x / width, 1 - y / height). *)
Theorem inked_pixel_outline (b : Z) (fuel : nat) :
  Z.testbit b 7 = false → (5 ≤ fuel)%nat →
  compileType3Glyph fuel (mkGlyph [b] 1 1)
  = Some (Outline unit_square (0, 0, 1, 1)).
Proof.
  intros Hb Hfuel. unfold compileType3Glyph. cbn [data width height].
  change ((MAX_SIZE_TO_COMPILE <? 1) || (MAX_SIZE_TO_COMPILE <? 1)) with false.
  cbv iota.
  rewrite classify_one_pixel.
  2:{ rewrite unpack_get.
      change ((0 <=? 0) && (0 <? 8 * Z.of_nat (length [b]))
              && (0 <? lineSize_of 1 * 1)) with true.
      change ([b] !! Z.to_nat (0 / 8)) with (Some b).
      unfold bit_byte. change (7 - 0 mod 8) with 7.
      cbn [fmap option_fmap option_map]. by rewrite Hb. }
  do 5 (destruct fuel as [|fuel]; [lia|]).
  vm_compute. reflexivity.
Qed.

Lemma inked_pixel_outline_witness :
  compileType3Glyph 5 (mkGlyph [0] 1 1)
  = Some (Outline unit_square (0, 0, 1, 1)).
Proof. apply (inked_pixel_outline 0 5); [reflexivity|lia]. Defined.

(** * Further properties of the glyph mapping and of the font name *)

(** ** [recoverGlyphName] and [type1FontGlyphMapping] *)

(** The table the differences contribute: each entry with the id derived
    from it. *)
Definition difference_table `{Imports} (p : FontProperties)
  (glyphNames : list string) : gmap N value :=
  (λ name, VNum (difference_id glyphNames name)) <$> default ∅ (differences p).

(** The glyph [i] is the first one with the name [s]. *)
Definition first_named (g : list string) (s : string) (i : nat) : Prop :=
  g !! i = Some s ∧ ∀ j, (j < i)%nat → g !! j ≠ Some s.

(** What the id [i] of a difference entry [name] stands for. *)
Definition resolves `{Imports} (g : list string) (name : string) (i : nat)
  : Prop :=
  first_named g name i
  ∨ ((name ∉ g) ∧ first_named g (recoverGlyphName name getGlyphsUnicode) i)
  ∨ ((name ∉ g) ∧ (recoverGlyphName name getGlyphsUnicode ∉ g) ∧ i = 0%nat).

Section GlyphMappingExtras.
Context `{Imports}.

Lemma recoverGlyphName_cases (name : string) (m : unicode_map) :
  recoverGlyphName name m = name
  ∨ is_Some (umap_get m (recoverGlyphName name m)).
Proof.
  unfold recoverGlyphName.
  destruct (umap_get m name) as [u|]; [by left|].
  destruct (negb (getUnicodeForGlyph name m =? -1)); [|by left].
  destruct (find_key m m.*1 (getUnicodeForGlyph name m)) as [key|] eqn:Hf;
    [|by left].
  right. apply find_key_first in Hf as (_ & _ & _ & Hkey & _). by eexists.
Qed.

(** X1.  Recovering a recovered name changes nothing. *)
Theorem recoverGlyphName_idempotent (name : string) (m : unicode_map) :
  recoverGlyphName (recoverGlyphName name m) m = recoverGlyphName name m.
Proof.
  destruct (recoverGlyphName_cases name m) as [Heq|[u Hu]].
  - by rewrite !Heq.
  - unfold recoverGlyphName at 1. by rewrite Hu.
Qed.

(** X2.  The call raises exactly when the font is not internal and names a base
    encoding that [getEncoding] does not know. *)
Theorem mapping_fails_iff (p : FontProperties) (b : jsobj) (g : list string) :
  type1FontGlyphMapping p b g = None
  ↔ isInternalFont p = false
    ∧ ∃ encodingName, truthy_name (baseEncodingName p) = Some encodingName
                      ∧ getEncoding encodingName = None.
Proof.
  unfold type1FontGlyphMapping, base_pass.
  destruct (isInternalFont p); simpl.
  { split; [done|]. by intros [? _]. }
  destruct (truthy_name (baseEncodingName p)) as [n|].
  - destruct (getEncoding n) eqn:He; simpl.
    + split; [done|]. intros [_ (n' & [= <-] & Hn)]. congruence.
    + split; [|done]. intros _. split; [done|]. by exists n.
  - destruct (isSymbolicFont p); simpl; (split; [done|]);
      by intros [_ (n' & ? & _)].
Qed.

(** X3.  The differences are laid over the base table: the result is the union
    of the table of the differences and the base table, the differences
    first. *)
Theorem mapping_is_union (p : FontProperties) (b : jsobj) (g : list string) :
  type1FontGlyphMapping p b g
  = (λ base, difference_table p g ∪ base) <$> base_pass p b g.
Proof.
  unfold type1FontGlyphMapping. destruct (base_pass p b g) as [base|]; [|done].
  simpl. f_equal. apply map_eq. intros c.
  rewrite merge_differences_lookup, lookup_union. unfold difference_table.
  rewrite lookup_fmap. destruct (differences p) as [diffs|]; simpl.
  - destruct (diffs !! c); simpl; [|by rewrite (left_id_L None _)].
    by destruct (base !! c).
  - rewrite lookup_empty. simpl. by rewrite (left_id_L None _).
Qed.

Lemma name_position_first (g : list string) (s : string) (i : nat) :
  name_position g s = Some i → first_named g s i.
Proof.
  unfold name_position, first_named. destruct (list_find _ g) as [[k y]|] eqn:Hf; [|done].
  intros [= <-]. apply list_find_Some in Hf as (Hl & -> & Hmin).
  split; [done|]. intros j Hj Hs. by apply (Hmin j s).
Qed.

Lemma name_position_none (g : list string) (s : string) :
  name_position g s = None → s ∉ g.
Proof.
  unfold name_position. destruct (list_find _ g) as [[k y]|] eqn:Hf; [done|].
  intros _ Hin. apply list_find_None in Hf.
  rewrite Forall_forall in Hf. by apply (Hf s).
Qed.

(** X4.  The glyph id of a difference leads back to its name: the glyph at
    the id is the first one with the name of the entry; or, when no glyph
    has that name, the first one with the recovered name; or the id is 0
    when no glyph has either name. *)
Theorem difference_id_names (p : FontProperties) (b : jsobj) (g : list string)
  (m : gmap N value) (diffs : gmap N string) (c : N) (name : string) :
  type1FontGlyphMapping p b g = Some m →
  differences p = Some diffs →
  diffs !! c = Some name →
  ∃ i : nat, m !! c = Some (VNum (Z.of_nat i)) ∧ resolves g name i.
Proof.
  unfold type1FontGlyphMapping. intros Hm Hd Hc.
  destruct (base_pass p b g) as [base|]; [|done]. injection Hm as <-.
  rewrite merge_differences_lookup, Hd. simpl. rewrite Hc.
  unfold difference_id, resolves.
  destruct (name_position g name) as [i|] eqn:Hi.
  { exists i. split; [done|]. left. by apply name_position_first. }
  apply name_position_none in Hi.
  destruct (name_position g (recoverGlyphName name getGlyphsUnicode))
    as [i|] eqn:Hr; simpl.
  - exists i. split; [done|]. right. left. split; [done|].
    by apply name_position_first.
  - exists 0%nat. split; [done|]. right. right.
    split; [done|]. split; [|done]. by apply name_position_none.
Qed.

(** X5.  The map of glyph names to codepoints is fetched exactly when a name of
    the differences is not a glyph name, and what is kept for the next
    entries is the map that was fetched. *)
Theorem glyph_list_fetched_iff (g : list string) (m0 : gmap N value)
  (diffs : gmap N string) :
  let cache := (map_fold (difference_step g) (m0, None) diffs).2 in
  (cache = None ↔ ∀ c name, diffs !! c = Some name → name ∈ g)
  ∧ (cache = None ∨ cache = Some getGlyphsUnicode).
Proof.
  cbn zeta.
  set (P := λ (r : gmap N value * option unicode_map) (d : gmap N string),
       (r.2 = None ∧ ∀ c name, d !! c = Some name → name ∈ g)
       ∨ (r.2 = Some getGlyphsUnicode ∧ ∃ c name, d !! c = Some name ∧ name ∉ g)).
  assert (Hinv : P (map_fold (difference_step g) (m0, None) diffs) diffs).
  { apply (map_fold_weak_ind P); unfold P.
    { left. split; [done|]. intros c name Hc. by rewrite lookup_empty in Hc. }
    intros c name d [m cache] Hfresh IH. cbn [fst snd] in IH.
    unfold difference_step. rewrite indexOf_position.
    destruct (name_position g name) as [i|] eqn:Hi.
    - assert (Hin : name ∈ g).
      { apply name_position_first in Hi as [Hi _].
        by apply list_elem_of_lookup_2 in Hi. }
      simpl. destruct (Z.eqb_spec (Z.of_nat i) (-1)); [lia|]. cbn [fst snd].
      destruct IH as [[-> Hall]|[-> (c' & n' & Hc' & Hn')]].
      + left. split; [done|]. intros c' n' Hc'.
        destruct (decide (c = c')) as [<-|Hne].
        * rewrite lookup_insert_eq in Hc'. by injection Hc' as <-.
        * rewrite lookup_insert_ne in Hc' by done. by apply (Hall c').
      + right. split; [done|]. exists c', n'. split; [|done].
        rewrite lookup_insert_ne; [done|]. intros ->. congruence.
    - apply name_position_none in Hi. simpl. cbn [fst snd]. right. split.
      + by destruct IH as [[-> _]|[-> _]].
      + exists c, name. by rewrite lookup_insert_eq. }
  unfold P in Hinv. destruct Hinv as [[Hc Hall]|[Hc (c & name & Hd & Hn)]].
  - rewrite Hc. split; [done|by left].
  - rewrite Hc. split; [|by right]. split; [done|].
    intros Hall. destruct Hn. by apply (Hall c).
Qed.

(** X6.  With glyph names that are pairwise distinct, a char code of the base
    table whose entry names the glyph [i], and which is not a difference,
    is mapped to [i]: here for an internal font. *)
Theorem internal_font_roundtrip (p : FontProperties) (b : jsobj)
  (g : list string) (m : gmap N value) (c : N) (i : nat) (s : string) :
  NoDup g →
  isInternalFont p = true →
  type1FontGlyphMapping p b g = Some m →
  differences p ≫= (.!! c) = None →
  c ∈ char_codes b →
  obj_get b c = VStr s →
  g !! i = Some s →
  m !! c = Some (VNum (Z.of_nat i)).
Proof.
  intros Hnd Hint Hm Hdiff Hc Hget Hi.
  unfold type1FontGlyphMapping, base_pass in Hm. rewrite Hint in Hm.
  injection Hm as <-. rewrite merge_differences_lookup, Hdiff.
  rewrite translate_loop_lookup, bool_decide_eq_true_2 by done.
  rewrite Hget. simpl. unfold name_position.
  destruct (list_find (λ x, x = s) g) as [[k y]|] eqn:Hf.
  - apply list_find_Some in Hf as (Hk & -> & _). simpl.
    by rewrite (NoDup_lookup g k i s Hnd Hk Hi).
  - apply list_find_None in Hf. rewrite Forall_forall in Hf.
    destruct (Hf s); [|done]. by apply list_elem_of_lookup_2 in Hi.
Qed.

Lemma symbolic_bit (f : Z) :
  negb (Z.land f FontFlags.Symbolic =? 0) = Z.testbit f 2.
Proof.
  change FontFlags.Symbolic with (2 ^ 2). rewrite land_pow2 by lia.
  by destruct (Z.testbit f 2).
Qed.

(** X7.  Of the flags only the Symbolic bit is read: two property objects
    that agree on that bit and on the other fields get the same table. *)
Theorem mapping_ignores_other_flags (p : FontProperties) (flags' : Z)
  (b : jsobj) (g : list string) :
  Z.testbit flags' 2 = Z.testbit (flags p) 2 →
  type1FontGlyphMapping
    (mkProps flags' (isInternalFont p) (baseEncodingName p) (differences p)) b g
  = type1FontGlyphMapping p b g.
Proof.
  intros Hbit. unfold type1FontGlyphMapping, base_pass, merge_differences,
    isSymbolicFont. cbn [flags isInternalFont baseEncodingName differences].
  by rewrite !symbolic_bit, Hbit.
Qed.

(** X8.  The built-in encoding is looked at for an internal font, and for a
    symbolic font without base encoding name, only: in the other cases the
    result is the same for any two built-in encodings. *)
Theorem builtin_encoding_unused (p : FontProperties) (b b' : jsobj)
  (g : list string) :
  isInternalFont p = false →
  is_Some (truthy_name (baseEncodingName p)) ∨ isSymbolicFont p = false →
  type1FontGlyphMapping p b g = type1FontGlyphMapping p b' g.
Proof.
  intros Hint Hcase. unfold type1FontGlyphMapping, base_pass. rewrite Hint.
  destruct (truthy_name (baseEncodingName p)) as [n|]; [done|].
  destruct Hcase as [[n Hn]|Hsym]; [done|]. by rewrite Hsym.
Qed.

End GlyphMappingExtras.

Lemma difference_id_names_witness :
  ∃ i : nat,
    ({[ 0%N := VNum 0; 1%N := VNum 1; 65%N := VNum 1 ]} : gmap N value) !! 65%N
    = Some (VNum (Z.of_nat i))
    ∧ resolves (H := sample_imports) sample_names "uni0041" i.
Proof.
  apply (difference_id_names (H := sample_imports) differences_props
           (mkObj None ∅) sample_names _ {[ 65%N := "uni0041" ]}).
  - vm_compute. reflexivity.
  - reflexivity.
  - vm_compute. reflexivity.
Defined.

(** An internal font whose built-in encoding names the glyphs A and B. *)
Definition internal_props : FontProperties := mkProps 0 true None None.

Lemma internal_font_roundtrip_witness :
  ({[ 0%N := VNum 1; 1%N := VNum 2 ]} : gmap N value) !! 1%N
  = Some (VNum (Z.of_nat 2)).
Proof.
  apply (internal_font_roundtrip (H := sample_imports) internal_props
           (mkObj (Some 2%nat) {[ 0%N := VStr "A"; 1%N := VStr "B" ]})
           sample_names _ 1%N 2%nat "B").
  - apply (bool_decide_unpack _). vm_compute. exact I.
  - reflexivity.
  - vm_compute. reflexivity.
  - reflexivity.
  - apply (bool_decide_unpack _). vm_compute. exact I.
  - vm_compute. reflexivity.
  - reflexivity.
Defined.

Lemma mapping_ignores_other_flags_witness :
  type1FontGlyphMapping (H := sample_imports)
    (mkProps 68 false None None) (mkObj None {[ 65%N := VNum 2 ]}) sample_names
  = type1FontGlyphMapping (H := sample_imports) symbolic_props
      (mkObj None {[ 65%N := VNum 2 ]}) sample_names.
Proof.
  apply (mapping_ignores_other_flags (H := sample_imports) symbolic_props 68).
  reflexivity.
Defined.

Lemma builtin_encoding_unused_witness :
  type1FontGlyphMapping (H := sample_imports) differences_props
    (mkObj None ∅) sample_names
  = type1FontGlyphMapping (H := sample_imports) differences_props
      (mkObj None {[ 65%N := VNum 2 ]}) sample_names.
Proof.
  apply (builtin_encoding_unused (H := sample_imports) differences_props);
    [reflexivity|by right].
Defined.

(** ** [normalizeFontName] *)

(** The code units the function removes or replaces. *)
Definition plain_unit (c : N) : bool :=
  negb ((c =? COMMA)%N || (c =? UNDERSCORE)%N || is_whitespace c).

Lemma normalize_unit_plain (c : N) :
  forallb plain_unit (normalize_unit c) = true.
Proof.
  unfold normalize_unit, plain_unit.
  destruct ((c =? COMMA)%N || (c =? UNDERSCORE)%N) eqn:Hc; [reflexivity|].
  destruct (is_whitespace c) eqn:Hw; [reflexivity|].
  cbn [forallb]. by rewrite Hc, Hw.
Qed.

Lemma normalize_cons (c : N) (s : ustring) :
  normalizeFontName (c :: s) = normalize_unit c ++ normalizeFontName s.
Proof.
  unfold normalizeFontName, remove_whitespace, replace_comma_underscore.
  cbn [fmap list_fmap List.filter]. unfold normalize_unit.
  destruct ((c =? COMMA)%N || (c =? UNDERSCORE)%N) eqn:Hc.
  - reflexivity.
  - by destruct (is_whitespace c).
Qed.

(** X9.  The name of two pieces is normalized piece by piece. *)
Theorem normalizeFontName_app (s1 s2 : ustring) :
  normalizeFontName (s1 ++ s2) = normalizeFontName s1 ++ normalizeFontName s2.
Proof.
  induction s1 as [|c s1 IH]; [done|].
  cbn [app]. by rewrite !normalize_cons, IH, app_assoc.
Qed.

(** X10.  The normalized name is never longer than the name. *)
Theorem normalizeFontName_length (s : ustring) :
  (length (normalizeFontName s) ≤ length s)%nat.
Proof.
  induction s as [|c s IH]; [done|]. rewrite normalize_cons, length_app.
  assert (length (normalize_unit c) ≤ 1)%nat as Hc.
  { unfold normalize_unit. destruct (_ || _); [simpl; lia|].
    destruct (is_whitespace c); simpl; lia. }
  simpl. lia.
Qed.

Lemma normalize_plain (s : ustring) :
  forallb plain_unit (normalizeFontName s) = true.
Proof.
  induction s as [|c s IH]; [done|].
  rewrite normalize_cons, forallb_app, IH, normalize_unit_plain. done.
Qed.

Lemma normalize_fixed (s : ustring) :
  forallb plain_unit s = true → normalizeFontName s = s.
Proof.
  induction s as [|c s IH]; [done|]. cbn [forallb].
  intros [Hc Hs]%andb_true_iff. rewrite normalize_cons, (IH Hs).
  unfold normalize_unit, plain_unit in *.
  destruct ((c =? COMMA)%N || (c =? UNDERSCORE)%N); [done|].
  by destruct (is_whitespace c).
Qed.

(** X11.  The names the function leaves as they are are exactly those without
    comma, underscore and whitespace. *)
Theorem normalizeFontName_fixpoint (s : ustring) :
  normalizeFontName s = s ↔ forallb plain_unit s = true.
Proof.
  split.
  - intros Heq. rewrite <- Heq. apply normalize_plain.
  - apply normalize_fixed.
Qed.

(** X12.  Normalizing twice is normalizing once. *)
Theorem normalizeFontName_idempotent (s : ustring) :
  normalizeFontName (normalizeFontName s) = normalizeFontName s.
Proof. apply normalize_fixed, normalize_plain. Qed.

(** ** The tables *)

Lemma indexOf_NoDup (g : list string) (i : nat) (s : string) :
  NoDup g → g !! i = Some s → indexOf g (VStr s) = Z.of_nat i.
Proof.
  intros Hnd Hi. rewrite indexOf_position. unfold name_position.
  destruct (list_find (λ x, x = s) g) as [[k y]|] eqn:Hf.
  - apply list_find_Some in Hf as (Hk & -> & _). simpl.
    by rewrite (NoDup_lookup g k i s Hnd Hk Hi).
  - apply list_find_None in Hf. rewrite Forall_forall in Hf.
    destruct (Hf s); [|done]. by apply list_elem_of_lookup_2 in Hi.
Qed.

Lemma mac_names_distinct : NoDup MacStandardGlyphOrdering.
Proof. apply (bool_decide_unpack _). vm_compute. exact I. Qed.

(** X13.  The 258 names of [MacStandardGlyphOrdering] are pairwise distinct:
    [indexOf], the search the glyph mapping makes, leads from each name
    back to its glyph id. *)
Theorem mac_glyph_ids (i : nat) (name : string) :
  MacStandardGlyphOrdering !! i = Some name →
  indexOf MacStandardGlyphOrdering (VStr name) = Z.of_nat i
  ∧ (i < 258)%nat.
Proof.
  intros Hi. split.
  - by apply indexOf_NoDup; [apply mac_names_distinct|].
  - apply lookup_lt_Some in Hi. exact Hi.
Qed.

Lemma mac_glyph_ids_witness :
  indexOf MacStandardGlyphOrdering (VStr "space") = Z.of_nat 3 ∧ (3 < 258)%nat.
Proof. apply (mac_glyph_ids 3 "space"). reflexivity. Defined.

Lemma vertical_forms_checked :
  map_Forall (λ char form,
      getVerticalPresentationForm !! form = None
      ∧ (0xfe10 ≤ form ≤ 0xfe48)%N
      ∧ map_Forall (λ char' form', form' = form → char' = char)
          getVerticalPresentationForm)
    getVerticalPresentationForm.
Proof. apply (bool_decide_unpack _). vm_compute. exact I. Qed.

(** X14.  A vertical presentation form lies in U+FE10..U+FE48, is not itself
    a character of the table, so that the substitution is not repeated,
    and belongs to one character only. *)
Theorem vertical_form_final (char char' form : N) :
  getVerticalPresentationForm !! char = Some form →
  getVerticalPresentationForm !! char' = Some form →
  char' = char
  ∧ getVerticalPresentationForm !! form = None
  ∧ (0xfe10 ≤ form ≤ 0xfe48)%N.
Proof.
  intros Hc Hc'.
  destruct (vertical_forms_checked char form Hc) as (Hn & Hr & Hinj).
  split; [|done]. by apply (Hinj char' form Hc').
Qed.

Lemma vertical_form_final_witness :
  0x2013%N = 0x2013%N
  ∧ getVerticalPresentationForm !! 0xfe32%N = None
  ∧ (0xfe10 ≤ 0xfe32 ≤ 0xfe48)%N.
Proof. apply (vertical_form_final 0x2013 0x2013 0xfe32); reflexivity. Defined.

(** * Further properties of the compilation of Type3 glyphs *)

(** ** The decoded mask *)

(** X15.  The length of a decoded row is the width rounded up to a multiple
    of 8, for the widths on which [&] works as on integers: [width + 7] is
    a 32-bit integer. *)
Theorem lineSize_rounds_up (w : Z) :
  - 2 ^ 31 ≤ w + 7 < 2 ^ 31 →
  lineSize_of w mod 8 = 0 ∧ w ≤ lineSize_of w < w + 8
  ∧ - 2 ^ 31 ≤ lineSize_of w < 2 ^ 31.
Proof.
  intros Hw. rewrite lineSize_eq.
  pose proof (Z.div_mod (w + 7) 8 ltac:(lia)).
  pose proof (Z.mod_pos_bound (w + 7) 8 ltac:(lia)).
  split; [|lia]. rewrite Z.mul_comm. apply Z.mod_mul. lia.
Qed.

Lemma lineSize_rounds_up_witness :
  lineSize_of 9 mod 8 = 0 ∧ 9 ≤ lineSize_of 9 < 9 + 8
  ∧ - 2 ^ 31 ≤ lineSize_of 9 < 2 ^ 31.
Proof. apply (lineSize_rounds_up 9). lia. Defined.

(** X16.  For the sizes that pass the size test and are not negative, the
    decoded mask has [lineSize * height] bytes, each 0 or 255, whatever
    the packed data are. *)
Theorem unpack_shape (img : list Z) (w h : Z) :
  0 ≤ w ≤ MAX_SIZE_TO_COMPILE → 0 ≤ h ≤ MAX_SIZE_TO_COMPILE →
  Z.of_nat (length (unpack img w h)) = lineSize_of w * h
  ∧ Forall (λ v, v = 0 ∨ v = 255) (unpack img w h).
Proof.
  intros Hw Hh. split; [|apply unpack_binary].
  rewrite unpack_length. pose proof (lineSize_ge w). nia.
Qed.

Lemma unpack_shape_witness :
  Z.of_nat (length (unpack [64; 128] 2 2)) = lineSize_of 2 * 2
  ∧ Forall (λ v, v = 0 ∨ v = 255) (unpack [64; 128] 2 2).
Proof.
  apply (unpack_shape [64; 128] 2 2); unfold MAX_SIZE_TO_COMPILE; lia.
Defined.


Lemma zget_nat (a : list Z) (i : nat) : zget a (Z.of_nat i) = a !! i.
Proof.
  unfold zget. destruct (Z.ltb_spec (Z.of_nat i) 0); [lia|]. by rewrite Nat2Z.id.
Qed.

(** X18.  The bytes of the packed data beyond the bitmap are ignored. *)
Theorem unpack_long (img extra : list Z) (w h : Z) :
  lineSize_of w * h ≤ 8 * Z.of_nat (length img) →
  unpack (img ++ extra) w h = unpack img w h.
Proof.
  intros Hlen. apply list_eq. intros i. rewrite <- !zget_nat, !unpack_get.
  rewrite length_app.
  destruct (Z.leb_spec 0 (Z.of_nat i)); [|lia].
  destruct (Z.ltb_spec (Z.of_nat i) (lineSize_of w * h)); cbn [andb];
    [|by rewrite !andb_false_r].
  destruct (Z.ltb_spec (Z.of_nat i) (8 * Z.of_nat (length img))); [|lia].
  destruct (Z.ltb_spec (Z.of_nat i) (8 * Z.of_nat (length img + length extra)));
    [|lia].
  cbn [andb]. rewrite lookup_app_l; [done|].
  assert (Z.of_nat i / 8 < Z.of_nat (length img)).
  { apply Z.div_lt_upper_bound; lia. }
  assert (0 ≤ Z.of_nat i / 8) by (apply Z.div_pos; lia). lia.
Qed.


Lemma unpack_long_witness : unpack ([0] ++ [255]) 1 1 = unpack [0] 1 1.
Proof.
  apply (unpack_long [0] [255] 1 1). change (lineSize_of 1) with 8. simpl. lia.
Defined.

(** ** The vertices of the outline *)

(** The number of cells of [points] that are not 0: what [count] holds. *)
Definition nzs (a : list Z) : Z := foldr (λ c s, nz c + s) 0 a.

(** The number of line-tos of a path. *)
Definition line_count (path : list path_cmd) : Z :=
  foldr (λ c s, match c with LineTo _ _ => 1 + s | MoveTo _ _ => s end) 0 path.

Lemma nz_bounds (c : Z) : 0 ≤ nz c ≤ 1.
Proof. unfold nz. destruct (c =? 0); lia. Qed.

Lemma nzs_nonneg (a : list Z) : 0 ≤ nzs a.
Proof. induction a as [|c a IH]; simpl; [lia|]. pose proof (nz_bounds c). lia. Qed.

Lemma nzs_insert (a : list Z) (i : nat) (c v : Z) :
  a !! i = Some c → nzs (<[i := v]> a) = nzs a - nz c + nz v.
Proof.
  revert i. induction a as [|c' a IH]; intros [|i] Hl; simpl in *; try done.
  - injection Hl as ->. lia.
  - rewrite (IH i Hl). lia.
Qed.

Lemma nzs_zset (a : list Z) (i v : Z) :
  0 ≤ i < Z.of_nat (length a) →
  nzs (zset a i v) = nzs a - nz (rd a i) + nz v.
Proof.
  intros Hi. pose proof (zget_in_range a i Hi) as Hg.
  unfold zset, zget in *. destruct (Z.ltb_spec i 0); [lia|].
  by apply nzs_insert.
Qed.

Lemma nzs_zero (a : list Z) : nzs a = 0 → Forall (λ c, c = 0) a.
Proof.
  induction a as [|c a IH]; simpl; [constructor|].
  pose proof (nz_bounds c). pose proof (nzs_nonneg a). intros Hs.
  constructor; [|apply IH; lia].
  unfold nz in *. destruct (Z.eqb_spec c 0); [done|lia].
Qed.

Lemma rd_all_zero (a : list Z) (k : Z) : Forall (λ c, c = 0) a → rd a k = 0.
Proof.
  intros Ha. unfold rd, zget. destruct (k <? 0); [done|].
  destruct (a !! Z.to_nat k) as [c|] eqn:Hl; [|done].
  rewrite Forall_lookup in Ha. by apply (Ha _ _ Hl).
Qed.

Lemma all_zero_rd (a : list Z) :
  (∀ k, 0 ≤ k < Z.of_nat (length a) → rd a k = 0) → Forall (λ c, c = 0) a.
Proof.
  intros Hk. apply Forall_lookup. intros i c Hl.
  pose proof (lookup_lt_Some _ _ _ Hl).
  specialize (Hk (Z.of_nat i) ltac:(lia)).
  unfold rd, zget in Hk. destruct (Z.ltb_spec (Z.of_nat i) 0); [lia|].
  rewrite Nat2Z.id, Hl in Hk. done.
Qed.

Lemma total_all_zero (a : list Z) : Forall (λ c, c = 0) a → total a = 0.
Proof. induction 1 as [|c a -> _ IH]; simpl; [done|]. by rewrite IH. Qed.

Lemma nzs_zeros (n : nat) : nzs (replicate n 0) = 0.
Proof. induction n as [|n IH]; simpl; [done|]. by rewrite IH. Qed.

Lemma skip_nonzero (fuel : nat) (pts : list Z) (p step p' : Z) :
  skip fuel pts p step = Some p' → rd pts p' ≠ 0.
Proof.
  revert p. induction fuel as [|fuel IH]; intros p; simpl; [done|].
  rewrite truthy_rd, negb_involutive.
  destruct (Z.eqb_spec (rd pts (p + step)) 0) as [Hz|Hnz]; [apply IH|].
  by intros [= <-].
Qed.

Lemma line_count_app (p q : list path_cmd) :
  line_count (p ++ q) = line_count p + line_count q.
Proof. induction p as [|[u v|u v] p IH]; simpl; lia. Qed.

Lemma line_count_lineTo (m : DOMMatrix) (x y : Z) : line_count [lineTo m x y] = 1.
Proof. unfold lineTo. by destruct (transform m x y). Qed.

Lemma line_count_moveTo (m : DOMMatrix) (x y : Z) : line_count [moveTo m x y] = 0.
Proof. unfold moveTo. by destruct (transform m x y). Qed.

(** A cell that is left of a point type and is not 0 holds a direction of
    the type. *)
Lemma sub_has (c T : Z) :
  sub c T → (T = 0 ∨ is_dir T ∨ T = 5 ∨ T = 10) → c ≠ 0 →
  ∃ t, is_dir t ∧ has c t = true.
Proof.
  unfold sub, is_dir. intros Hs HT Hc.
  assert (c = 1 ∨ c = 2 ∨ c = 4 ∨ c = 8 ∨ c = 5 ∨ c = 10) as Hv
    by (intuition (subst; try congruence; auto 10)).
  destruct Hv as [->|[->|[->|[->|[->| ->]]]]];
    [exists 1|exists 2|exists 4|exists 8|exists 1|exists 2];
    (split; [lia|reflexivity]).
Qed.

Lemma sub_has_type (c T t : Z) :
  sub c T → is_dir t → has c t = true → has T t = true.
Proof.
  unfold sub, is_dir. intros Hs Ht Hh.
  destruct Hs as [->|[->|[[-> [->| ->]]|[-> [->| ->]]]]]; try done.
  all: destruct Ht as [->|[->|[->| ->]]]; done.
Qed.

Section Vertices.
Variables (w h : Z) (ink : Z → Z → bool).
Hypothesis ink_inside : ∀ x y, ink x y = true → 0 ≤ x < w ∧ 0 ≤ y < h.
Hypothesis w_pos : 0 ≤ w.
Hypothesis h_pos : 0 ≤ h.
Variables (m : DOMMatrix) (inner : nat).
Hypothesis inner_big : w + h ≤ Z.of_nat inner.

(** The command has the coordinates of a classified point. *)
Definition corner_cmd (c : path_cmd) : Prop :=
  ∃ x y, ctype ink x y ≠ 0 ∧ (c = moveTo m x y ∨ c = lineTo m x y).

(** Every classified point whose cell has been changed is the target of a
    line-to. *)
Definition visited (path : list path_cmd) (cur : Z → Z → Z) : Prop :=
  ∀ x y, ctype ink x y ≠ 0 → cur x y = ctype ink x y ∨ lineTo m x y ∈ path.

(** What the tracing keeps of its state: [count] is the number of cells
    that are not 0, every line-to has taken one direction out of the array
    which held [n0] of them, and the commands are at classified points. *)
Definition tracked (n0 : Z) (tr : tracer) : Prop :=
  count tr = nzs (points tr)
  ∧ line_count (pathBuf tr) + total (points tr) = n0
  ∧ Forall corner_cmd (pathBuf tr)
  ∧ visited (pathBuf tr) (cur_of w (points tr)).

Lemma walk_step_tracked (n0 : Z) (tr tr' : tracer) (px py t x0 y0 t0 p' o : Z) :
  sized w h (points tr) →
  walking w h ink (cur_of w (points tr)) px py t x0 y0 t0 →
  tracked n0 tr →
  walk_step inner (w + 1) m tr (idx w px py) t = Some (tr', p', o) →
  tracked n0 tr'.
Proof.
  intros Hsz HK (Hcnt & Hlines & Hall & Hvis) Hstep.
  destruct (walk_step_ok w h ink ink_inside w_pos h_pos m inner inner_big
              tr px py t x0 y0 t0 Hsz HK)
    as (tr1 & qx & qy & o1 & Hstep1 & HinQ & _ & Htot & _).
  rewrite Hstep in Hstep1. injection Hstep1 as <- -> <-.
  rewrite walk_step_eq in Hstep.
  destruct (zget (steps_of (w + 1)) t) as [step|]; [|done].
  destruct (skip inner (points tr) (idx w px py) step) as [p1|] eqn:Hskip;
    [|done].
  cbn zeta in Hstep. injection Hstep as Htr Hp _. subst p1.
  apply skip_nonzero in Hskip.
  pose proof HK as (Hcov & _).
  pose proof (idx_range w h w_pos qx qy HinQ) as Hrange.
  assert (HT : ctype ink qx qy ≠ 0).
  { intros HT. specialize (Hcov qx qy HinQ). rewrite HT in Hcov.
    apply sub_zero in Hcov. done. }
  rewrite (idx_mod w h w_pos qx qy HinQ), (idx_div w h w_pos qx qy HinQ) in Htr.
  set (c := rd (points tr) (idx w qx qy)) in *.
  set (c' := rest_of c (pair_dir c t)) in *.
  subst tr'. cbn [points] in Htot. unfold tracked. cbn [count points pathBuf].
  split_and!.
  - rewrite truthy_rd, negb_involutive, rd_zset by (rewrite Hsz; lia).
    rewrite bool_decide_eq_true_2 by done.
    rewrite nzs_zset by (rewrite Hsz; lia). fold c. unfold nz.
    destruct (Z.eqb_spec c' 0), (Z.eqb_spec c 0); lia.
  - rewrite line_count_app, line_count_lineTo. lia.
  - apply Forall_app. split; [done|]. constructor; [|done].
    exists qx, qy. auto.
  - intros x y Hxy. destruct (decide (x = qx ∧ y = qy)) as [[-> ->]|Hne].
    { right. apply elem_of_app. right. by apply list_elem_of_singleton. }
    destruct (Hvis x y Hxy) as [Hc|Hp].
    + left. rewrite <- Hc. unfold cur_of.
      rewrite rd_zset by (rewrite Hsz; lia).
      rewrite bool_decide_eq_false_2; [done|].
      intros Heq. apply (idx_inj w h w_pos) in Heq; [done| |done].
      by apply (ctype_inside w h ink ink_inside).
    + right. apply elem_of_app. by left.
Qed.

Lemma walk_tracked (n0 : Z) (n : nat) (tr tr' : tracer) (px py t x0 y0 t0 : Z) :
  sized w h (points tr) →
  walking w h ink (cur_of w (points tr)) px py t x0 y0 t0 →
  tracked n0 tr →
  walk inner n (w + 1) m (idx w x0 y0) tr (idx w px py) t = Some tr' →
  tracked n0 tr' ∧ balanced w h ink (cur_of w (points tr'))
  ∧ sized w h (points tr')
  ∧ (∀ k, rd (points tr) k = 0 → rd (points tr') k = 0).
Proof.
  revert tr px py t. induction n as [|n IH]; intros tr px py t Hsz HK Htr;
    cbn [walk]; [done|].
  destruct (walk_step_ok w h ink ink_inside w_pos h_pos m inner inner_big
              tr px py t x0 y0 t0 Hsz HK)
    as (tr1 & qx & qy & o & Hstep & HinQ & Hsz1 & _ & Hzero & Hcont & Hclose).
  pose proof (walk_step_tracked n0 tr tr1 px py t x0 y0 t0 _ o Hsz HK Htr Hstep)
    as Htr1.
  pose proof HK as (_ & _ & _ & Hin0 & _).
  rewrite Hstep.
  destruct (Z.eqb_spec (idx w x0 y0) (idx w qx qy)) as [Heq|Hne]; cbn [negb].
  - apply (idx_inj w h w_pos) in Heq as [-> ->]; [|done..].
    intros [= <-]. split_and!; [done|by apply Hclose|done|done].
  - intros Hw.
    destruct (IH tr1 qx qy o Hsz1) with (3 := Hw) as (H1 & H2 & H3 & H4).
    + apply Hcont. intros [= -> ->]. by destruct Hne.
    + done.
    + split_and!; auto.
Qed.

(** When the rows are empty up to the last column, the last column is
    empty as well: an edge leaves a point of the last column to the left
    or upwards, and upwards the boundary turns left at the next classified
    point. *)
Lemma last_column (cur : Z → Z → Z) :
  balanced w h ink cur →
  (∀ x y, 0 ≤ x < w → 0 ≤ y ≤ h → cur x y = 0) →
  ∀ x y, on_grid w h x y → cur x y = 0.
Proof.
  intros [Hcov Hbal] Hzero.
  assert (Hleft : ∀ x y, on_grid w h x y → has (cur x y) 2 = false).
  { intros x y Hin. destruct (has (cur x y) 2) eqn:Hh; [|done].
    assert (Hd : is_dir 2) by (unfold is_dir; lia).
    pose proof (sub_has_type _ _ 2 (Hcov x y Hin) Hd Hh) as HT.
    destruct (run_fwd w h ink ink_inside 2 x y Hd HT) as (k & Hr & _).
    pose proof (run_inside w h ink ink_inside w_pos h_pos 2 x y k Hd Hr)
      as (_ & Hq & _).
    specialize (Hbal 2 x y k Hd Hr). rewrite Hh in Hbal.
    destruct Hr as (Hk & _). simpl in Hbal, Hq.
    rewrite Hzero in Hbal; [by rewrite has_zero in Hbal| |];
      unfold on_grid in *; lia. }
  assert (Hright : ∀ t y, t = 8 ∨ t = 1 → out ink t w y = false).
  { intros t y [-> | ->]; unfold out; simpl.
    - destruct (ink w (y - 1)) eqn:Hi; [|done]. apply ink_inside in Hi. lia.
    - destruct (ink w y) eqn:Hi; [|done]. apply ink_inside in Hi. lia. }
  intros x y Hin. destruct (decide (x < w)) as [Hx|Hx].
  { apply Hzero; unfold on_grid in *; lia. }
  assert (x = w) as -> by (unfold on_grid in *; lia).
  destruct (decide (cur w y = 0)) as [Hz|Hnz]; [done|exfalso].
  destruct (sub_has _ _ (Hcov w y Hin) (ctype_values ink w y) Hnz)
    as (t & Ht & Hh).
  pose proof (sub_has_type _ _ t (Hcov w y Hin) Ht Hh) as HT.
  pose proof HT as Ho. rewrite ctype_has in Ho by done.
  apply andb_true_iff in Ho as [Ho _].
  destruct Ht as [->|[->|[->| ->]]].
  - rewrite Hright in Ho; [done|auto].
  - rewrite Hleft in Hh; done.
  - assert (Hd : is_dir 4) by (unfold is_dir; lia).
    destruct (run_fwd w h ink ink_inside 4 w y Hd HT) as (k & Hr & _).
    pose proof (run_inside w h ink ink_inside w_pos h_pos 4 w y k Hd Hr)
      as (_ & Hq & _).
    specialize (Hbal 4 w y k Hd Hr). rewrite Hh in Hbal.
    destruct Hr as (Hk & _ & _ & Hend & Hinn).
    change (dx 4) with 0 in *. change (dy 4) with (-1) in *.
    replace (w + k * 0) with w in * by lia.
    pose proof (pair_out 4 _ _ _ _ Hd Hinn Hend) as [Hdo Hho].
    fold (ctype ink w (y + k * -1)) in Hdo, Hho.
    set (o := pair_dir (ctype ink w (y + k * -1)) 4) in *.
    pose proof Hho as Hoo. rewrite ctype_has in Hoo by done.
    apply andb_true_iff in Hoo as [Hout Hnin%negb_true_iff].
    destruct Hdo as [Ho1|[Ho2|[Ho4|Ho8]]].
    + rewrite Ho1, Hright in Hout; [done|auto].
    + rewrite Ho2, Hleft in Hbal; done.
    + rewrite Ho4 in Hnin. congruence.
    + rewrite Ho8, Hright in Hout; [done|auto].
  - rewrite Hright in Ho; [done|auto].
Qed.

(** The tracing ends with every cell at 0. *)
Lemma trace_tracked (n0 : Z) (n : nat) (i : Z) (tr tr' : tracer) :
  0 ≤ i → sized w h (points tr) → balanced w h ink (cur_of w (points tr)) →
  (∀ x y, 0 ≤ x < w → 0 ≤ y < i → cur_of w (points tr) x y = 0) →
  tracked n0 tr →
  trace inner n w h m i tr = Some tr' →
  tracked n0 tr' ∧ sized w h (points tr')
  ∧ ∀ x y, on_grid w h x y → cur_of w (points tr') x y = 0.
Proof.
  revert i tr. induction n as [|n IH]; intros i tr Hi Hsz HJ Hzero Htr;
    cbn [trace]; [done|].
  destruct (negb (count tr =? 0) && (i <=? h)) eqn:Hcond.
  2:{ intros [= <-]. split; [done|]. split; [done|].
      apply andb_false_iff in Hcond as [Hc|Hc].
      - apply negb_false_iff, Z.eqb_eq in Hc. destruct Htr as (Hcnt & _).
        rewrite Hcnt in Hc. apply nzs_zero in Hc.
        intros x y _. unfold cur_of. by apply rd_all_zero.
      - apply Z.leb_gt in Hc. apply last_column; [done|].
        intros x y Hx Hy. apply Hzero; lia. }
  apply andb_true_iff in Hcond as [_ Hih%Z.leb_le].
  replace (i * (w + 1) + w - i * (w + 1)) with w by lia.
  destruct (scan_row_spec (points tr) (Z.to_nat w) (i * (w + 1)) (i * (w + 1) + w))
    as (Hp & Hbefore & Hat); [lia|lia|].
  set (p := scan_row (Z.to_nat w) (points tr) (i * (w + 1)) (i * (w + 1) + w)) in *.
  destruct (Z.eqb_spec p (i * (w + 1) + w)) as [Hend|Hfound].
  - apply IH; [lia|done|done| |done].
    intros x y Hx Hy. destruct (decide (y = i)) as [->|Hne].
    + apply Hbefore. unfold idx. lia.
    + apply Hzero; lia.
  - set (x0 := p - i * (w + 1)).
    assert (Hp0 : p = idx w x0 i) by (unfold idx, x0; lia).
    assert (Hin0 : on_grid w h x0 i) by (unfold on_grid, x0; lia).
    assert (Hnz : cur_of w (points tr) x0 i ≠ 0).
    { unfold cur_of. rewrite <- Hp0. apply Hat. lia. }
    assert (Hdir : is_dir (cur_of w (points tr) x0 i)).
    { apply (start_dir w h ink ink_inside w_pos h_pos inner);
        [done|done|unfold x0; lia|done|done]. }
    assert (HT : ctype ink x0 i ≠ 0).
    { intros HT. destruct HJ as [Hcov _]. specialize (Hcov x0 i Hin0).
      rewrite HT in Hcov. by apply sub_zero in Hcov. }
    cbn [points]. fold (rd (points tr) p). rewrite Hp0.
    fold (cur_of w (points tr) x0 i).
    rewrite (idx_mod w h w_pos x0 i Hin0).
    set (tr0 := mkTracer (points tr) (count tr) (pathBuf tr ++ [moveTo m x0 i])).
    destruct (walk inner inner (w + 1) m (idx w x0 i) tr0 (idx w x0 i)
                (cur_of w (points tr) x0 i)) as [tr1|] eqn:Hw; [|done].
    apply (walk_tracked n0 inner tr0 tr1 x0 i (cur_of w (points tr) x0 i)
             x0 i (cur_of w (points tr) x0 i))
      in Hw as (Htr1 & HJ1 & Hsz1 & Hzero1).
    + rewrite Z.sub_add. apply IH; [done|done|done| |done].
      intros x y Hx Hy. apply Hzero1. by apply Hzero.
    + done.
    + by apply balanced_start.
    + destruct Htr as (Hcnt & Hlines & Hall & Hvis).
      unfold tracked, tr0. cbn [count points pathBuf]. split_and!.
      * done.
      * rewrite line_count_app, line_count_moveTo. lia.
      * apply Forall_app. split; [done|]. constructor; [|done].
        exists x0, i. auto.
      * intros x y Hxy. destruct (Hvis x y Hxy) as [Hc|Hpth]; [by left|].
        right. apply elem_of_app. by left.
Qed.

End Vertices.

(** A marked pixel has a classified point on the boundary below the left
    end of its row of marked pixels. *)
Lemma marked_row_start (w h : Z) (ink : Z → Z → bool) (n : nat) (x y : Z) :
  (∀ x y, ink x y = true → 0 ≤ x < w ∧ 0 ≤ y < h) →
  x < Z.of_nat n → ink x y = true →
  ∃ x', ink x' y = true ∧ ink (x' - 1) y = false.
Proof.
  intros ink_inside. revert x. induction n as [|n IH]; intros x Hx Hi.
  { apply ink_inside in Hi. lia. }
  destruct (ink (x - 1) y) eqn:Hl; [|by exists x].
  apply (IH (x - 1)); [lia|done].
Qed.

Lemma marked_corner (w h : Z) (ink : Z → Z → bool) (x y : Z) :
  (∀ x y, ink x y = true → 0 ≤ x < w ∧ 0 ≤ y < h) →
  ink x y = true → ∃ x' y', ctype ink x' y' ≠ 0.
Proof.
  intros ink_inside Hi.
  destruct (marked_row_start w h ink (Z.to_nat (x + 1)) x y) as (x' & Hr & Hl);
    [done|lia|done|].
  assert (Hd : is_dir 1) by (unfold is_dir; lia).
  destruct (ahead w h ink ink_inside (Z.to_nat (room w h 1 x' y)) 1 x' y Hd)
    as (k & _ & _ & HT & _).
  - unfold out. simpl. by rewrite Hr, Hl.
  - lia.
  - eauto.
Qed.


(** The cells of the grid are all the cells. *)
Lemma grid_cells (w h : Z) (pts : list Z) (k : Z) :
  0 ≤ w → sized w h pts → 0 ≤ k < Z.of_nat (length pts) →
  ∃ x y, on_grid w h x y ∧ k = idx w x y.
Proof.
  unfold sized. intros Hw Hsz Hk. exists (k mod (w + 1)), (k / (w + 1)).
  pose proof (Z.div_mod k (w + 1) ltac:(lia)).
  pose proof (Z.mod_pos_bound k (w + 1) ltac:(lia)).
  assert (0 ≤ k / (w + 1)) by (apply Z.div_pos; lia).
  assert (k / (w + 1) < h + 1) by (apply Z.div_lt_upper_bound; lia).
  unfold on_grid, idx. lia.
Qed.

Lemma grid_zero_total (w h : Z) (pts : list Z) :
  0 ≤ w → sized w h pts → (∀ x y, on_grid w h x y → cur_of w pts x y = 0) →
  total pts = 0.
Proof.
  intros Hw Hsz Hzero. apply total_all_zero, all_zero_rd. intros k Hk.
  destruct (grid_cells w h pts k Hw Hsz Hk) as (x & y & Hin & ->). by apply Hzero.
Qed.


(** *** The classification and [count] *)

Lemma put_nzs (st : list Z * Z) (k T : Z) :
  0 ≤ k < Z.of_nat (length st.1) → rd st.1 k = 0 →
  nzs (put st k T).1 = nzs st.1 + nz T.
Proof.
  intros Hk Hz. unfold put, mark. destruct (Z.eqb_spec T 0) as [->|Hne].
  - change (nz 0) with 0. lia.
  - cbn [fst]. rewrite nzs_zset by done. rewrite Hz. change (nz 0) with 0. lia.
Qed.

(** The cells from [bound] on are 0 and the count is the number of cells
    that are not 0. *)
Definition tallied (w h bound : Z) (st : list Z * Z) : Prop :=
  Z.of_nat (length st.1) = (w + 1) * (h + 1)
  ∧ (∀ k, bound ≤ k → rd st.1 k = 0) ∧ nzs st.1 = st.2.

Lemma row_tallied (data : list Z) (w h y : Z) (st : list Z * Z) :
  0 ≤ w → 0 ≤ y ≤ h → tallied w h (y * (w + 1)) st →
  tallied w h ((y + 1) * (w + 1)) (row_spec data w h y st).
Proof.
  intros Hw Hy Hst. unfold row_spec.
  pose proof (for_loop_ind (λ x s, tallied w h (y * (w + 1) + x) s)
                (row_body data w h y) (Z.to_nat (w + 1)) 0 st) as Hind.
  cbv beta in Hind.
  replace (y * (w + 1) + (0 + Z.of_nat (Z.to_nat (w + 1))))
    with ((y + 1) * (w + 1)) in Hind by lia.
  apply Hind; clear Hind.
  { by rewrite Z.add_0_r. }
  intros x s Hx (Hlen & Hz & Hn). unfold row_body.
  assert (Hk0 : 0 ≤ y * (w + 1) + x < Z.of_nat (length s.1)) by (rewrite Hlen; nia).
  assert (Hzero : rd s.1 (y * (w + 1) + x) = 0) by (apply Hz; lia).
  unfold tallied. split_and!.
  - by rewrite put_length.
  - intros k Hk. rewrite put_rd by done.
    rewrite bool_decide_eq_false_2 by lia. apply Hz. lia.
  - rewrite put_nzs by done. rewrite (put_count data). lia.
Qed.

Lemma all_tallied (data : list Z) (w h : Z) :
  0 ≤ w → 0 ≤ h →
  tallied w h ((h + 1) * (w + 1)) (all_rows data w h (zeros w h, 0)).
Proof.
  intros Hw Hh. unfold all_rows.
  pose proof (for_loop_ind (λ y s, tallied w h (y * (w + 1)) s)
                (row_spec data w h) (Z.to_nat (h + 1)) 0 (zeros w h, 0)) as Hind.
  cbv beta in Hind.
  replace (0 + Z.of_nat (Z.to_nat (h + 1))) with (h + 1) in Hind by lia.
  apply Hind; clear Hind.
  - unfold tallied, zeros. cbn [fst snd]. split_and!.
    + rewrite length_replicate. lia.
    + intros k _. apply rd_zeros.
    + apply nzs_zeros.
  - intros y s Hy Hs. apply row_tallied; [done|lia|done].
Qed.

(** [count] starts as the number of cells that are not 0. *)
Lemma classify_count (data : list Z) (w h : Z) (pts : list Z) (cnt : Z) :
  1 ≤ w → 1 ≤ h → w ≤ lineSize_of w →
  Z.of_nat (length data) = lineSize_of w * h → binary data →
  classify data w h = Some (pts, cnt) → nzs pts = cnt.
Proof.
  intros Hw Hh Hline Hlen Hbin. rewrite classify_spec by done.
  pose proof (all_tallied data w h ltac:(lia) ltac:(lia)) as (_ & _ & Hn).
  destruct (POINT_TO_PROCESS_LIMIT <? _); [done|].
  intros [= Heq]. rewrite Heq in Hn. done.
Qed.

(** The types of the points of the grid, row by row: what the
    classification writes to [points]. *)
Definition grid_types (ink : Z → Z → bool) (w h : Z) : list Z :=
  (λ k, ctype ink (k mod (w + 1)) (k / (w + 1))) <$> seqZ 0 ((w + 1) * (h + 1)).

Lemma points_grid_types (ink : Z → Z → bool) (w h : Z) (pts : list Z) :
  0 ≤ w → 0 ≤ h → sized w h pts →
  (∀ x y, on_grid w h x y → cur_of w pts x y = ctype ink x y) →
  pts = grid_types ink w h.
Proof.
  intros Hw Hh Hsz Hcur. apply list_eq. intros i. unfold grid_types.
  rewrite list_lookup_fmap.
  destruct (decide (Z.of_nat i < (w + 1) * (h + 1))) as [Hlt|Hge].
  - rewrite lookup_seqZ_lt by done. cbn [fmap option_fmap option_map].
    destruct (grid_cells w h pts (Z.of_nat i) Hw Hsz) as (x & y & Hin & Hi).
    { unfold sized in Hsz. lia. }
    rewrite Z.add_0_l, Hi, (idx_mod w h Hw x y Hin), (idx_div w h Hw x y Hin).
    rewrite <- (Hcur x y Hin). unfold cur_of. rewrite <- Hi.
    pose proof (zget_in_range pts (Z.of_nat i)) as Hg.
    unfold zget in Hg. destruct (Z.ltb_spec (Z.of_nat i) 0); [lia|].
    rewrite Nat2Z.id in Hg. apply Hg. unfold sized in Hsz. lia.
  - rewrite lookup_seqZ_ge by lia. cbn [fmap option_fmap option_map].
    apply lookup_ge_None. unfold sized in Hsz. lia.
Qed.

(** *** The fuel of the tracing *)

Lemma skip_mono (n n' : nat) (pts : list Z) (p step r : Z) :
  skip n pts p step = Some r → (n ≤ n')%nat → skip n' pts p step = Some r.
Proof.
  revert n' p. induction n as [|n IH]; intros n' p; [done|].
  destruct n' as [|n']; [lia|]. cbn [skip].
  destruct (negb (truthy (zget pts (p + step)))); [|done].
  intros Hs Hn. apply IH; [done|lia].
Qed.

Lemma walk_step_mono (inner inner' : nat) (width1 : Z) (m : DOMMatrix)
  (tr : tracer) (p t : Z) (r : tracer * Z * Z) :
  walk_step inner width1 m tr p t = Some r → (inner ≤ inner')%nat →
  walk_step inner' width1 m tr p t = Some r.
Proof.
  rewrite !walk_step_eq. destruct (zget (steps_of width1) t) as [step|]; [|done].
  destruct (skip inner (points tr) p step) as [p'|] eqn:Hs; [|done].
  intros Hr Hn. by rewrite (skip_mono inner inner' _ _ _ p' Hs Hn).
Qed.

Lemma walk_mono (inner inner' n n' : nat) (width1 : Z) (m : DOMMatrix)
  (p0 : Z) (tr : tracer) (p t : Z) (r : tracer) :
  walk inner n width1 m p0 tr p t = Some r →
  (inner ≤ inner')%nat → (n ≤ n')%nat →
  walk inner' n' width1 m p0 tr p t = Some r.
Proof.
  intros Hw Hi. revert n' tr p t Hw.
  induction n as [|n IH]; intros n' tr p t; [done|].
  destruct n' as [|n']; [lia|]. cbn [walk].
  destruct (walk_step inner width1 m tr p t) as [[[tr1 p1] t1]|] eqn:Hs; [|done].
  rewrite (walk_step_mono inner inner' _ _ _ _ _ _ Hs Hi).
  destruct (negb (p0 =? p1)); [|done].
  intros Hw Hn. apply IH; [done|lia].
Qed.

Lemma trace_mono (inner inner' n n' : nat) (w h : Z) (m : DOMMatrix)
  (i : Z) (tr r : tracer) :
  trace inner n w h m i tr = Some r →
  (inner ≤ inner')%nat → (n ≤ n')%nat →
  trace inner' n' w h m i tr = Some r.
Proof.
  intros Ht Hi. revert n' i tr Ht.
  induction n as [|n IH]; intros n' i tr; [done|].
  destruct n' as [|n']; [lia|]. cbn [trace].
  destruct (negb (count tr =? 0) && (i <=? h)); [|done].
  destruct (_ =? _).
  { intros Ht Hn. apply IH; [done|lia]. }
  destruct (walk inner inner (w + 1) m _ _ _ _) as [tr1|] eqn:Hw; [|done].
  rewrite (walk_mono inner inner' inner inner' _ _ _ _ _ _ _ Hw Hi Hi).
  intros Ht Hn. apply IH; [done|lia].
Qed.

(** *** The outline of a glyph *)

(** The pixel [(x, y)] of the glyph is marked: it lies in the bitmap and
    its decoded byte is not 0, that is, its bit is there and is clear. *)
Definition marked (g : BitmapGlyph) (x y : Z) : bool :=
  pix (unpack (data g) (width g) (height g)) (width g) (height g) x y.

(** The point [(x, y)] of the grid is classified: its type is not 0, the
    boundary of the marked pixels turns or crosses there. *)
Definition corner (g : BitmapGlyph) (x y : Z) : Prop :=
  ctype (marked g) x y ≠ 0.

(** The number of directions the types of the grid points hold: one for
    a turn, two for a crossing. *)
Definition boundary_runs (g : BitmapGlyph) : Z :=
  total (grid_types (marked g) (width g) (height g)).

(** No pixel of the glyph is marked. *)
Definition blank (g : BitmapGlyph) : Prop := ∀ x y, marked g x y = false.

(** The path of a result, empty for [null] and for no result. *)
Definition path_of (r : option compiled) : list path_cmd :=
  match r with Some (Outline path _) => path | _ => [] end.

(** The command is at a classified point of the grid: it is the move-to
    or the line-to the code makes for a point [(x, y)] whose type is not
    0, and the point lies in the grid. *)
Definition at_corner (g : BitmapGlyph) (c : path_cmd) : Prop :=
  ∃ x y, corner g x y ∧ 0 ≤ x ≤ width g ∧ 0 ≤ y ≤ height g
         ∧ (c = moveTo (glyph_matrix (width g) (height g)) x y
            ∨ c = lineTo (glyph_matrix (width g) (height g)) x y).

(** What the tracing has done when the function returns an outline. *)
Lemma compile_outline (fuel : nat) (g : BitmapGlyph) (path : list path_cmd)
  (bbox : Z * Z * Z * Z) :
  1 ≤ width g → 1 ≤ height g →
  compileType3Glyph fuel g = Some (Outline path bbox) →
  Forall (corner_cmd (marked g) (glyph_matrix (width g) (height g))) path
  ∧ (∀ x y, corner g x y →
            lineTo (glyph_matrix (width g) (height g)) x y ∈ path)
  ∧ line_count path = boundary_runs g.
Proof.
  intros Hw Hh. unfold compileType3Glyph.
  destruct ((MAX_SIZE_TO_COMPILE <? width g) || (MAX_SIZE_TO_COMPILE <? height g))
    eqn:Hgate; [done|].
  apply gate_off in Hgate as [Hw' Hh'].
  set (dat := unpack (data g) (width g) (height g)).
  destruct (classify dat (width g) (height g)) as [[pts cnt]|] eqn:Hc; [|done].
  pose proof (classify_count dat (width g) (height g) pts cnt Hw Hh
                (lineSize_ge _) (unpack_len _ _ _ Hw Hh) (unpack_binary _ _ _) Hc)
    as Hn.
  apply classify_some in Hc as (Hsz & Hcur & _ & _ & _);
    [|done|done|apply lineSize_ge|by apply unpack_len|apply unpack_binary].
  change (ink dat (width g) (height g)) with (marked g) in Hcur.
  destruct (trace fuel fuel _ _ _ 0 _) as [tr|] eqn:Htr; [|done].
  intros [= <- _].
  apply (trace_mono fuel (fuel + 2000) fuel (fuel + 2000)) in Htr; [|lia..].
  apply (trace_tracked (width g) (height g) (marked g)
           (pix_inside dat (width g) (height g)) ltac:(lia) ltac:(lia)
           (glyph_matrix (width g) (height g)) (fuel + 2000) ltac:(lia)
           (total pts))
    in Htr as ((_ & Hlines & Hall & Hvis) & Hsz' & Hzero); cbn [points].
  - split; [done|]. split.
    + intros x y Hxy. destruct (Hvis x y Hxy) as [Heq|Hin]; [|done].
      rewrite Hzero in Heq; [by destruct Hxy|].
      by apply (ctype_inside (width g) (height g) (marked g)
                  (pix_inside dat (width g) (height g))).
    + rewrite (grid_zero_total (width g) (height g) _ ltac:(lia) Hsz' Hzero)
        in Hlines.
      unfold boundary_runs.
      rewrite <- (points_grid_types (marked g) (width g) (height g) pts);
        [lia|lia|lia|done|done].
  - lia.
  - done.
  - apply balanced_init; [apply pix_inside|lia|lia|done].
  - intros x y _ Hy. lia.
  - unfold tracked. cbn [count points pathBuf]. split_and!; [done|simpl; lia|done|].
    intros x y Hxy. left. apply Hcur.
    by apply (ctype_inside (width g) (height g) (marked g)
                (pix_inside dat (width g) (height g))).
Qed.

Lemma corner_on_grid (g : BitmapGlyph) (x y : Z) :
  corner g x y → 0 ≤ x ≤ width g ∧ 0 ≤ y ≤ height g.
Proof.
  apply (ctype_inside (width g) (height g) (marked g)).
  intros x' y'. apply pix_inside.
Qed.

(** X20.  Every command of an outline is at a classified point of the
    grid: the path has no other vertices than the points where the boundary
    of the marked pixels turns or crosses, each with the coordinates the
    code computes for that point. *)
Theorem outline_vertices_are_corners (fuel : nat) (g : BitmapGlyph)
  (path : list path_cmd) (bbox : Z * Z * Z * Z) :
  1 ≤ width g → 1 ≤ height g →
  compileType3Glyph fuel g = Some (Outline path bbox) →
  Forall (at_corner g) path.
Proof.
  intros Hw Hh Hc.
  destruct (compile_outline fuel g path bbox Hw Hh Hc) as (Hall & _).
  eapply Forall_impl; [exact Hall|]. intros c (x & y & HT & Hcmd).
  exists x, y. split; [done|].
  destruct (corner_on_grid g x y HT) as [Hx Hy]. done.
Qed.

(** X21.  Every classified point of the grid is the target of a line-to of the
    outline: no turn of the boundary is left out. *)
Theorem every_corner_is_vertex (fuel : nat) (g : BitmapGlyph)
  (path : list path_cmd) (bbox : Z * Z * Z * Z) (x y : Z) :
  1 ≤ width g → 1 ≤ height g →
  compileType3Glyph fuel g = Some (Outline path bbox) →
  corner g x y →
  lineTo (glyph_matrix (width g) (height g)) x y ∈ path.
Proof.
  intros Hw Hh Hc.
  destruct (compile_outline fuel g path bbox Hw Hh Hc) as (_ & Hvis & _).
  apply Hvis.
Qed.

(** X22.  The number of line-tos of an outline is the number of directions
    held by the types of the grid points: one for each point where the
    boundary turns, two for each crossing. *)
Theorem line_count_runs (fuel : nat) (g : BitmapGlyph)
  (path : list path_cmd) (bbox : Z * Z * Z * Z) :
  1 ≤ width g → 1 ≤ height g →
  compileType3Glyph fuel g = Some (Outline path bbox) →
  line_count path = boundary_runs g.
Proof.
  intros Hw Hh Hc.
  by destruct (compile_outline fuel g path bbox Hw Hh Hc) as (_ & _ & Hl).
Qed.

(** X24.  The path of an outline is empty exactly when no pixel is marked. *)
Theorem empty_iff_blank (fuel : nat) (g : BitmapGlyph)
  (path : list path_cmd) (bbox : Z * Z * Z * Z) :
  1 ≤ width g → 1 ≤ height g →
  compileType3Glyph fuel g = Some (Outline path bbox) →
  path = [] ↔ blank g.
Proof.
  intros Hw Hh Hc.
  destruct (compile_outline fuel g path bbox Hw Hh Hc) as (Hall & Hvis & _).
  split.
  - intros -> x y. destruct (marked g x y) eqn:Hm; [exfalso|done].
    destruct (marked_corner (width g) (height g) (marked g) x y)
      as (x' & y' & HT); [intros ? ?; apply pix_inside|done|].
    specialize (Hvis x' y' HT). by apply elem_of_nil in Hvis.
  - intros Hblank. destruct path as [|c path]; [done|exfalso].
    apply Forall_cons in Hall as [(x & y & HT & _) _].
    destruct HT. unfold ctype. by rewrite !Hblank.
Qed.

Lemma outline_vertices_are_corners_witness :
  Forall (at_corner diagonal) (path_of (compileType3Glyph 20 diagonal)).
Proof.
  apply (outline_vertices_are_corners 20 diagonal _ (0, 0, 2, 2));
    [simpl; lia|simpl; lia|].
  vm_compute. reflexivity.
Defined.

Lemma every_corner_is_vertex_witness :
  lineTo (glyph_matrix 2 2) 1 1 ∈ path_of (compileType3Glyph 20 diagonal).
Proof.
  apply (every_corner_is_vertex 20 diagonal _ (0, 0, 2, 2) 1 1);
    [simpl; lia|simpl; lia| |].
  - vm_compute. reflexivity.
  - unfold corner. vm_compute. discriminate.
Defined.

Lemma line_count_runs_witness :
  line_count (path_of (compileType3Glyph 20 diagonal))
  = boundary_runs diagonal.
Proof.
  apply (line_count_runs 20 diagonal _ (0, 0, 2, 2));
    [simpl; lia|simpl; lia|].
  vm_compute. reflexivity.
Defined.

Lemma empty_iff_blank_witness :
  path_of (compileType3Glyph 5 (mkGlyph [128] 1 1)) = []
  ↔ blank (mkGlyph [128] 1 1).
Proof.
  apply (empty_iff_blank 5 (mkGlyph [128] 1 1) _ (0, 0, 1, 1));
    [simpl; lia|simpl; lia|].
  vm_compute. reflexivity.
Defined.

(** *** The pixels are all that matters *)

Lemma for_loop_ext {A : Type} (f f' : Z → A → A) (n : nat) (j : Z) (s : A) :
  (∀ i s, f i s = f' i s) → for_loop n j f s = for_loop n j f' s.
Proof.
  intros Hext. revert j s. induction n as [|n IH]; intros j s; cbn [for_loop];
    [done|]. by rewrite Hext, IH.
Qed.

Lemma all_rows_ext (data data' : list Z) (w h : Z) (st : list Z * Z) :
  (∀ x y, pix data w h x y = pix data' w h x y) →
  all_rows data w h st = all_rows data' w h st.
Proof.
  intros Hext. unfold all_rows. apply for_loop_ext. intros y s.
  unfold row_spec. apply for_loop_ext. intros x s'.
  unfold row_body, ctype, ink. by rewrite !Hext.
Qed.

(** X25.  Two bitmaps of the same size with the same marked pixels have the
    same result: the padding bits of the rows and the bytes after the last
    row are not looked at. *)
Theorem pixels_only (fuel : nat) (img img' : list Z) (w h : Z) :
  1 ≤ w → 1 ≤ h →
  (∀ x y, marked (mkGlyph img w h) x y = marked (mkGlyph img' w h) x y) →
  compileType3Glyph fuel (mkGlyph img w h)
  = compileType3Glyph fuel (mkGlyph img' w h).
Proof.
  intros Hw Hh Hext. unfold compileType3Glyph. cbn [data width height].
  destruct ((MAX_SIZE_TO_COMPILE <? w) || (MAX_SIZE_TO_COMPILE <? h)); [done|].
  rewrite !classify_spec;
    [|done|done|apply lineSize_ge|by apply unpack_len|apply unpack_binary
     |done|done|apply lineSize_ge|by apply unpack_len|apply unpack_binary].
  by rewrite (all_rows_ext (unpack img w h) (unpack img' w h)).
Qed.

Lemma pixels_only_witness :
  compileType3Glyph 5 (mkGlyph [0] 1 1)
  = compileType3Glyph 5 (mkGlyph [127] 1 1).
Proof.
  apply (pixels_only 5 [0] [127] 1 1); [lia|lia|].
  intros x y. unfold marked, pix. cbn [data width height].
  destruct (decide (x = 0 ∧ y = 0)) as [[-> ->]|Hne]; [reflexivity|].
  destruct (Z.leb_spec 0 x), (Z.ltb_spec x 1), (Z.leb_spec 0 y), (Z.ltb_spec y 1);
    try reflexivity.
  lia.
Defined.
